(** * pg_rand_ext: exponential, Gaussian and Zipfian integer samplers

    A shallow embedding of [pg_rand_ext.c].  The C types are kept as the
    code has them:

    - [int64] is a [Z] with two's-complement wrap-around written out
      (PostgreSQL is built with [-fwrapv]);
    - [double] is Rocq's primitive binary64 [float], so [+ - * /], [sqrt]
      and the comparisons are the IEEE-754 operations the hardware runs,
      each rounding once, to nearest even;
    - a conversion from [double] to [int64] is partial, as in C;
    - the C library functions [exp], [log], [sin], [pow] and the port
      function [pg_erand48] are not part of the repository: they are the
      fields of a [Platform];
    - [elog(ERROR, ...)] does not return: it is an outcome of its own;
    - the rejection loops take fuel;
    - [Assert] is compiled out of production builds and is not modelled
      ([MIN_GAUSSIAN_PARAM], which only an [Assert] names, has no
      definition in the file). *)

From Stdlib Require Import ZArith Floats Bool Lia.
From Stdlib Require Uint63.

Local Open Scope Z_scope.

(** ** 64-bit integers *)

Module Int64.

Definition min_signed : Z := - 2 ^ 63.
Definition max_signed : Z := 2 ^ 63 - 1.

Definition in_range (z : Z) : Prop := min_signed <= z <= max_signed.

Definition in_rangeb (z : Z) : bool :=
  (min_signed <=? z) && (z <=? max_signed).

(** Reduction of a mathematical integer to its [int64] representative. *)
Definition wrap (z : Z) : Z := (z + 2 ^ 63) mod 2 ^ 64 - 2 ^ 63.

Definition add (a b : Z) : Z := wrap (a + b).
Definition sub (a b : Z) : Z := wrap (a - b).

End Int64.

(** ** Doubles *)

Module Double.

(** [(double) z]: conversion of an integer, rounded to nearest even. *)
Definition of_int64 (z : Z) : float :=
  SF2Prim (binary_normalize prec emax z 0 false).

(** Integer part of a finite double, rounded toward zero. *)
Definition SFtrunc (x : spec_float) : option Z :=
  match x with
  | S754_zero _ => Some 0
  | S754_finite s m e =>
      Some (cond_Zopp s
              (if 0 <=? e then Z.pos m * 2 ^ e else Z.pos m / 2 ^ (- e)))
  | S754_infinity _ | S754_nan => None
  end.

(** [(int64) x]: the conversion is undefined (C11 6.3.1.4) when the
    integer part of [x] is not representable, and for NaN and the
    infinities; [None] stands for that. *)
Definition to_int64 (x : float) : option Z :=
  match SFtrunc (Prim2SF x) with
  | Some z => if Int64.in_rangeb z then Some z else None
  | None => None
  end.

(** [floor] of <math.h>: exact, no rounding is involved. *)
Definition SFfloor (x : spec_float) : spec_float :=
  match x with
  | S754_finite s m e =>
      if 0 <=? e then x
      else binary_normalize prec emax
             (cond_Zopp s (Z.pos m) / 2 ^ (- e)) 0 s
  | _ => x
  end.

Definition floor (x : float) : float := SF2Prim (SFfloor (Prim2SF x)).

(** [M_PI] of <math.h>, 3.14159265358979323846 as a double. *)
Definition M_PI : float := 0x1.921fb54442d18p+1%float.

End Double.

(** ** The random state *)

(** [unsigned short xseed[3]]. *)
Record RandomState : Set := mkRandomState { xseed : Z * Z * Z }.

(** ** What the program takes from its platform

    [exp], [log], [sin] and [pow] come from the C library, [pg_erand48]
    from PostgreSQL's port library: it advances the three state words and
    returns a double. *)
Record Platform : Type := mkPlatform {
  exp : float -> float;
  log : float -> float;
  sin : float -> float;
  pow : float -> float -> float;
  pg_erand48 : RandomState -> float * RandomState
}.

(** ** Outcomes *)

(** The two [elog(ERROR, ...)] calls of the file, by their message. *)
Inductive pg_error : Set :=
| could_not_generate_random_seed
| zipfian_parameter_must_be_in_range.

(** The error taxonomy of the specification. *)
Inductive ErrorKind : Set :=
| InvalidParameter
| InvalidRange
| SeedingFailed.

Definition kind_of (e : pg_error) : ErrorKind :=
  match e with
  | could_not_generate_random_seed => SeedingFailed
  | zipfian_parameter_must_be_in_range => InvalidParameter
  end.

(** What a call does, together with [base_random_sequence] as the call
    leaves it.  [Undefined] is undefined behaviour (a conversion to
    [int64] that C does not define); [OutOfFuel] is a loop that is still
    running when the fuel is spent. *)
Inductive outcome : Type :=
| Returns (v : Z) (g : RandomState)
| Raises (e : pg_error) (g : RandomState)
| Undefined
| OutOfFuel.

Definition raised (o : outcome) : option ErrorKind :=
  match o with
  | Raises e _ => Some (kind_of e)
  | _ => None
  end.

Definition returned (o : outcome) : option Z :=
  match o with
  | Returns v _ => Some v
  | _ => None
  end.

Definition state_after (o : outcome) : option RandomState :=
  match o with
  | Returns _ g | Raises _ g => Some g
  | _ => None
  end.

(** ** Constants *)

(** [#define MAX_ZIPFIAN_PARAM 1000.0] and [#define MIN_ZIPFIAN_PARAM 1.001],
    the latter as the double the compiler reads it as. *)
Definition MAX_ZIPFIAN_PARAM : float := 1000%float.
Definition MIN_ZIPFIAN_PARAM : float := 0x1.004189374bc6ap+0%float.

(** ** Seeding *)

(** The three words [initRandomState] stores for a 64-bit [iseed]. *)
Definition seed_words (iseed : Z) : RandomState :=
  mkRandomState (Z.land iseed 0xFFFF,
                 Z.land (Z.shiftr iseed 16) 0xFFFF,
                 Z.land (Z.shiftr iseed 32) 0xFFFF).

(** [initRandomState]: [entropy] is what [pg_strong_random] delivers,
    [None] when it fails; [g] is [base_random_sequence] on entry.  The
    left summand is the [elog(ERROR, ...)], with the state as it is left. *)
Definition initRandomState (entropy : option Z) (g : RandomState)
  : pg_error * RandomState + RandomState :=
  match entropy with
  | None => inl (could_not_generate_random_seed, g)
  | Some iseed => inr (seed_words iseed)
  end.

(** ** The samplers *)

Section Samplers.

Variable P : Platform.

Local Open Scope float_scope.

(** The last line of [getExponentialRand] and of [getGaussianRand]:
    [min + (int64) ((max - min + 1) * rand)].  The width is computed in
    [int64], converted to [double] for the product, and the product is
    converted back. *)
Definition scale_to_range (min max : Z) (rand : float) : option Z :=
  match Double.to_int64
          (Double.of_int64 (Int64.add (Int64.sub max min) 1) * rand) with
  | Some k => Some (Int64.add min k)
  | None => None
  end.

(** [rand] of [getExponentialRand], for the draw [u] of [pg_erand48]. *)
Definition exponential_rand (parameter u : float) : float :=
  let cut := exp P (- parameter) in
  let uniform := 1 - u in
  - log P (cut + (1 - cut) * uniform) / parameter.

Definition getExponentialRand
  (random_state : RandomState) (min max : Z) (parameter : float)
  : outcome :=
  let (u, random_state') := pg_erand48 P random_state in
  match scale_to_range min max (exponential_rand parameter u) with
  | Some v => Returns v random_state'
  | None => Undefined
  end.

(** The body of the [do ... while] loop of [getGaussianRand]. *)
Definition box_muller (u1 u2 : float) : float :=
  let rand1 := 1 - u1 in
  let rand2 := 1 - u2 in
  let var_sqrt := sqrt (-2 * log P rand1) in
  var_sqrt * sin P (2 * Double.M_PI * rand2).

(** Its condition: [stdev < -parameter || stdev >= parameter]. *)
Definition gaussian_retry (parameter stdev : float) : bool :=
  (stdev <? - parameter) || (parameter <=? stdev).

Fixpoint gaussian_loop (fuel : nat) (random_state : RandomState)
  (parameter : float) : option (float * RandomState) :=
  match fuel with
  | O => None
  | S fuel' =>
      let (u1, s1) := pg_erand48 P random_state in
      let (u2, s2) := pg_erand48 P s1 in
      let stdev := box_muller u1 u2 in
      if gaussian_retry parameter stdev
      then gaussian_loop fuel' s2 parameter
      else Some (stdev, s2)
  end.

(** [rand = (stdev + parameter) / (parameter * 2.0)]. *)
Definition gaussian_rand (parameter stdev : float) : float :=
  (stdev + parameter) / (parameter * 2).

Definition getGaussianRand (fuel : nat)
  (random_state : RandomState) (min max : Z) (parameter : float)
  : outcome :=
  match gaussian_loop fuel random_state parameter with
  | None => OutOfFuel
  | Some (stdev, random_state') =>
      match scale_to_range min max (gaussian_rand parameter stdev) with
      | Some v => Returns v random_state'
      | None => Undefined
      end
  end.

(** One candidate of [computeIterativeZipfian]: the rank [x] for the
    draw [u], and the test that breaks the loop. *)
Definition zipfian_x (s u : float) : float :=
  Double.floor (pow P u (-1 / (s - 1))).

Definition zipfian_accept (n : Z) (s b v x : float) : bool :=
  let t := pow P (1 + 1 / x) (s - 1) in
  (v * x * (t - 1) / (b - 1) <=? t / b) && (x <=? Double.of_int64 n).

Fixpoint zipfian_loop (fuel : nat) (random_state : RandomState)
  (n : Z) (s b : float) : option (float * RandomState) :=
  match fuel with
  | O => None
  | S fuel' =>
      let (u, s1) := pg_erand48 P random_state in
      let (v, s2) := pg_erand48 P s1 in
      let x := zipfian_x s u in
      if zipfian_accept n s b v x
      then Some (x, s2)
      else zipfian_loop fuel' s2 n s b
  end.

Definition computeIterativeZipfian (fuel : nat)
  (random_state : RandomState) (n : Z) (s : float) : outcome :=
  let b := pow P 2 (s - 1) in
  if (n <=? 1)%Z then Returns 1 random_state
  else
    match zipfian_loop fuel random_state n s b with
    | None => OutOfFuel
    | Some (x, random_state') =>
        match Double.to_int64 x with
        | Some k => Returns k random_state'
        | None => Undefined
        end
    end.

Definition getZipfianRand (fuel : nat)
  (random_state : RandomState) (min max : Z) (s : float) : outcome :=
  let n := Int64.add (Int64.sub max min) 1 in
  match computeIterativeZipfian fuel random_state n s with
  | Returns k random_state' =>
      Returns (Int64.add (Int64.sub min 1) k) random_state'
  | o => o
  end.

(** *** The SQL entry points

    [entropy] is what [pg_strong_random] delivers during the call and
    [base_random_sequence] the static state on entry. *)

Definition random_exponential (entropy : option Z)
  (base_random_sequence : RandomState) (lb ub : Z) (param : float)
  : outcome :=
  match initRandomState entropy base_random_sequence with
  | inl (e, g) => Raises e g
  | inr g => getExponentialRand g lb ub param
  end.

Definition random_gaussian (fuel : nat) (entropy : option Z)
  (base_random_sequence : RandomState) (lb ub : Z) (param : float)
  : outcome :=
  match initRandomState entropy base_random_sequence with
  | inl (e, g) => Raises e g
  | inr g => getGaussianRand fuel g lb ub param
  end.

Definition random_zipfian (fuel : nat) (entropy : option Z)
  (base_random_sequence : RandomState) (lb ub : Z) (param : float)
  : outcome :=
  if (param <? MIN_ZIPFIAN_PARAM) || (MAX_ZIPFIAN_PARAM <? param)
  then Raises zipfian_parameter_must_be_in_range base_random_sequence
  else
    match initRandomState entropy base_random_sequence with
    | inl (e, g) => Raises e g
    | inr g => getZipfianRand fuel g lb ub param
    end.

(** *** Iterations of the rejection loops, by index *)

(** The state after [n] calls of [pg_erand48]. *)
Fixpoint after_draws (n : nat) (st : RandomState) : RandomState :=
  match n with
  | O => st
  | S n' => after_draws n' (snd (pg_erand48 P st))
  end.

(** The [stdev] that the iteration starting in state [st] computes. *)
Definition gaussian_candidate (st : RandomState) : float :=
  let (u1, s1) := pg_erand48 P st in
  let (u2, _) := pg_erand48 P s1 in
  box_muller u1 u2.

(** Iteration [k] (from 0) of the Gaussian loop started in [st] is the
    first one whose [stdev] leaves the loop. *)
Definition gaussian_first_accept
  (st : RandomState) (parameter : float) (k : nat) : Prop :=
  gaussian_retry parameter
    (gaussian_candidate (after_draws (2 * k) st)) = false /\
  forall j, (j < k)%nat ->
    gaussian_retry parameter
      (gaussian_candidate (after_draws (2 * j) st)) = true.

(** The same for the Zipfian loop: the rank [x] of the iteration that
    starts in [st], and whether the loop breaks on it. *)
Definition zipfian_candidate (s : float) (st : RandomState) : float :=
  zipfian_x s (fst (pg_erand48 P st)).

Definition zipfian_breaks (n : Z) (s : float) (st : RandomState) : bool :=
  let (u, s1) := pg_erand48 P st in
  let (v, _) := pg_erand48 P s1 in
  zipfian_accept n s (pow P 2 (s - 1)) v (zipfian_x s u).

Definition zipfian_first_accept
  (st : RandomState) (n : Z) (s : float) (k : nat) : Prop :=
  zipfian_breaks n s (after_draws (2 * k) st) = true /\
  forall j, (j < k)%nat ->
    zipfian_breaks n s (after_draws (2 * j) st) = false.

End Samplers.

(** ** A reference platform

    [erand48] as POSIX defines it (and as PostgreSQL's port library
    implements it): the 48-bit state [X] steps to
    [(0x5DEECE66D * X + 0xB) mod 2^48] and the draw is [X / 2^48]. *)

Module Posix.

Definition state_value (st : RandomState) : Z :=
  let '(x0, x1, x2) := xseed st in x0 + x1 * 2 ^ 16 + x2 * 2 ^ 32.

Definition state_of (x : Z) : RandomState :=
  mkRandomState (x mod 2 ^ 16, (x / 2 ^ 16) mod 2 ^ 16,
                 (x / 2 ^ 32) mod 2 ^ 16).

Definition dorand48 (st : RandomState) : RandomState :=
  state_of ((0x5DEECE66D * state_value st + 0xB) mod 2 ^ 48).

Definition erand48 (st : RandomState) : float * RandomState :=
  let st' := dorand48 st in
  ((Double.of_int64 (state_value st') * 0x1p-48)%float, st').

End Posix.

(** The C library at the arguments the examples of this file evaluate.
    Each clause is the correctly rounded value: [exp] at zero, [log] at
    one and [pow (1, y)] are fixed by C11 Annex F, [pow (x, 1)] is
    exact, [pow (x, -1)] is the rounded quotient, and the remaining
    clauses agree with 80-digit arithmetic.  Elsewhere the functions
    are left unspecified, which NaN stands for; the statements below
    that hold of every platform name the values they rely on as
    hypotheses. *)

Module Sample.

Local Open Scope float_scope.

Definition exp (x : float) : float :=
  if x =? 0 then 1
  else if x =? -0x1.2p-50 then 0x1.ffffffffffff7p-1
  else nan.

Definition log (x : float) : float :=
  if x =? 1 then 0
  else if x =? 0x1.ffffffffffff7p-1 then -0x1.2000000000003p-50
  else if x =? 0x1.088f7230f78p-3 then -0x1.05f556bd576fap+1
  else nan.

Definition sin (x : float) : float :=
  if x =? 0x1.921fb54442c04p+2 then -0x1.14469898cc517p-42
  else if x =? 0x1.a4242d61324a6p+0 then 0x1.febb81547ea4dp-1
  else nan.

Definition pow (x y : float) : float :=
  if y =? 1 then x
  else if y =? -1 then 1 / x
  else if x =? 1 then 1
  else if (x =? 2) && (y =? 0.5) then 0x1.6a09e667f3bcdp+0
  else if (x =? 0x1p-27) && (y =? -2) then 0x1p+54
  else nan.

Definition platform : Platform :=
  mkPlatform exp log sin pow Posix.erand48.

End Sample.

(** * Facts *)

(** ** Wrap-around arithmetic *)

Module Int64Facts.

Import Int64.

Lemma wrap_small (z : Z) : in_range z -> wrap z = z.
Proof.
  unfold in_range, wrap, min_signed, max_signed. intros H.
  rewrite Z.mod_small; lia.
Qed.

Lemma wrap_add_l (a b : Z) : wrap (wrap a + b) = wrap (a + b).
Proof.
  unfold wrap.
  replace ((a + 2 ^ 63) mod 2 ^ 64 - 2 ^ 63 + b + 2 ^ 63)
    with ((a + 2 ^ 63) mod 2 ^ 64 + b) by ring.
  rewrite Z.add_mod_idemp_l by lia.
  f_equal. f_equal. ring.
Qed.

(** [max - min + 1], as the code computes it. *)
Lemma width_eq (min max : Z) : add (sub max min) 1 = wrap (max - min + 1).
Proof. unfold add, sub. apply wrap_add_l. Qed.

(** [min - 1 + k], as the code computes it. *)
Lemma rank_shift_eq (min k : Z) : add (sub min 1) k = wrap (min - 1 + k).
Proof. unfold add, sub. apply wrap_add_l. Qed.

End Int64Facts.

(** ** Doubles: comparisons *)

Lemma SFcompare_antisym (x y : spec_float) :
  SFcompare y x = option_map CompOpp (SFcompare x y).
Proof.
  destruct x as [sx|sx| |sx mx ex], y as [sy|sy| |sy my ey]; try reflexivity;
    try (destruct sx; reflexivity); try (destruct sy; reflexivity);
    try (destruct sx, sy; reflexivity).
  cbn. destruct sx, sy; cbn; try reflexivity.
  - rewrite (Z.compare_antisym ey ex).
    destruct (ey ?= ex); cbn; try reflexivity.
    rewrite (Pos.compare_cont_antisym _ _ Eq). cbn.
    rewrite CompOpp_involutive. reflexivity.
  - rewrite (Z.compare_antisym ey ex).
    destruct (ey ?= ex); cbn; try reflexivity.
    rewrite (Pos.compare_cont_antisym _ _ Eq). reflexivity.
Qed.

Lemma SFcompare_defined (x y : spec_float) :
  x <> S754_nan -> y <> S754_nan -> exists c, SFcompare x y = Some c.
Proof.
  intros Hx Hy.
  destruct x as [sx|sx| |sx mx ex], y as [sy|sy| |sy my ey];
    try congruence; cbn; eexists; reflexivity.
Qed.

Lemma leb_true_ltb_false (a b : float) :
  (a <=? b)%float = true -> (b <? a)%float = false.
Proof.
  rewrite leb_spec, ltb_spec. unfold SFleb, SFltb.
  rewrite (SFcompare_antisym (Prim2SF a) (Prim2SF b)).
  destruct (SFcompare (Prim2SF a) (Prim2SF b)) as [[ | | ]|]; cbn; congruence.
Qed.

Lemma is_nan_spec (x : float) :
  is_nan x = false -> Prim2SF x <> S754_nan.
Proof.
  unfold is_nan. rewrite FloatAxioms.eqb_spec. intros H E. rewrite E in H.
  discriminate.
Qed.

Lemma opp_not_nan (p : float) : is_nan p = false -> Prim2SF (- p) <> S754_nan.
Proof.
  intros H. apply is_nan_spec in H. rewrite opp_spec.
  destruct (Prim2SF p); cbn; congruence.
Qed.

Lemma Prim2SF_zero : Prim2SF 0 = S754_zero false.
Proof. vm_compute. reflexivity. Qed.

Lemma Prim2SF_one : Prim2SF 1 = S754_finite false 4503599627370496 (-52).
Proof. vm_compute. reflexivity. Qed.

Lemma Prim2SF_infinity : Prim2SF infinity = S754_infinity false.
Proof. vm_compute. reflexivity. Qed.

Lemma Prim2SF_neg_infinity : Prim2SF (- infinity) = S754_infinity true.
Proof. vm_compute. reflexivity. Qed.

Lemma is_finite_inv (x : float) :
  is_finite x = true ->
  (exists s, Prim2SF x = S754_zero s) \/
  (exists s m e, Prim2SF x = S754_finite s m e).
Proof.
  unfold is_finite, is_nan, is_infinity.
  rewrite !FloatAxioms.eqb_spec, abs_spec, Prim2SF_infinity.
  destruct (Prim2SF x) as [s|s| |s m e]; intros H.
  - left. exists s. reflexivity.
  - destruct s; discriminate.
  - discriminate.
  - right. exists s, m, e. reflexivity.
Qed.

(** ** Doubles: mantissas and exponents *)

Lemma digits2_pos_bound (m : positive) :
  Z.pos m < 2 ^ Z.pos (digits2_pos m).
Proof.
  induction m as [m IH|m IH|]; cbn [digits2_pos].
  - rewrite Pos2Z.inj_succ, Z.pow_succ_r by lia. lia.
  - rewrite Pos2Z.inj_succ, Z.pow_succ_r by lia. lia.
  - reflexivity.
Qed.

Lemma bounded_inv (m : positive) (e : Z) :
  bounded prec emax m e = true ->
  fexp prec emax (Z.pos (digits2_pos m) + e) = e /\ e <= emax - prec.
Proof.
  unfold bounded, canonical_mantissa. intros H.
  apply andb_true_iff in H. destruct H as [H1 H2].
  apply Z.eqb_eq in H1. apply Z.leb_le in H2. split; assumption.
Qed.

Lemma bounded_mantissa (m : positive) (e : Z) :
  bounded prec emax m e = true -> Z.pos m < 2 ^ 53.
Proof.
  intros H. apply bounded_inv in H. destruct H as [H _].
  unfold fexp, FloatOps.emin, SpecFloat.emin, prec, emax in H.
  assert (Hd : Z.pos (digits2_pos m) <= 53) by lia.
  eapply Z.lt_le_trans; [apply digits2_pos_bound|].
  apply Z.pow_le_mono_r; lia.
Qed.

Lemma SFltb_one_inv (m : positive) (e : Z) :
  SFltb (S754_finite false m e)
        (S754_finite false 4503599627370496 (-52)) = true ->
  e < -52 \/ (e = -52 /\ Z.pos m < 2 ^ 52).
Proof.
  unfold SFltb. cbn [SFcompare]. intros H1.
  destruct (e ?= -52) eqn:E.
  - apply Z.compare_eq in E. right. split; [assumption|].
    destruct (Pos.compare_cont Eq m 4503599627370496) eqn:E';
      try discriminate.
    change (2 ^ 52) with 4503599627370496.
    apply Pos2Z.pos_lt_pos. exact E'.
  - left. apply Z.compare_lt_iff in E. exact E.
  - discriminate.
Qed.

Lemma Prim2SF_neg_one :
  Prim2SF (-1) = S754_finite true 4503599627370496 (-52).
Proof. vm_compute. reflexivity. Qed.

Lemma SFltb_neg_one_inv (m : positive) (e : Z) :
  SFltb (S754_finite true 4503599627370496 (-52))
        (S754_finite true m e) = true ->
  e < -52 \/ (e = -52 /\ Z.pos m < 2 ^ 52).
Proof.
  unfold SFltb. cbn [SFcompare]. intros H1.
  destruct (-52 ?= e) eqn:E.
  - apply Z.compare_eq in E. right. split; [symmetry; assumption|].
    destruct (Pos.compare_cont Eq 4503599627370496 m) eqn:E';
      try discriminate.
    change (2 ^ 52) with 4503599627370496.
    apply Pos2Z.pos_lt_pos. apply Pos.compare_gt_iff. exact E'.
  - discriminate.
  - left. apply Z.compare_gt_iff in E. exact E.
Qed.

Lemma SFtrunc_small (s : bool) (m : positive) (e : Z) :
  Z.pos m < 2 ^ 53 ->
  e < -52 \/ (e = -52 /\ Z.pos m < 2 ^ 52) ->
  Double.SFtrunc (S754_finite s m e) = Some 0.
Proof.
  intros Hv He. cbn [Double.SFtrunc].
  assert (Hq : Z.pos m / 2 ^ (- e) = 0).
  { apply Z.div_small. split; [apply Pos2Z.is_nonneg|].
    destruct He as [He|[He Hm]].
    - eapply Z.lt_le_trans; [exact Hv|]. apply Z.pow_le_mono_r; lia.
    - subst e. exact Hm. }
  destruct (0 <=? e) eqn:E0; [apply Z.leb_le in E0; lia|].
  rewrite Hq. destruct s; reflexivity.
Qed.

(** A double strictly between -1 and 1 has integer part 0. *)
Lemma to_int64_small (r : float) :
  (-1 <? r)%float = true -> (r <? 1)%float = true ->
  Double.to_int64 r = Some 0.
Proof.
  rewrite !ltb_spec. unfold Double.to_int64.
  pose proof (Prim2SF_valid r) as Hv.
  rewrite Prim2SF_neg_one, Prim2SF_one.
  destruct (Prim2SF r) as [s|s| |s m e].
  - reflexivity.
  - destruct s; cbn; discriminate.
  - cbn; discriminate.
  - intros H0 H1.
    cbn [valid_binary] in Hv. apply bounded_mantissa in Hv.
    destruct s.
    + apply SFltb_neg_one_inv in H0.
      rewrite (SFtrunc_small true m e Hv H0). reflexivity.
    + apply SFltb_one_inv in H1.
      rewrite (SFtrunc_small false m e Hv H1). reflexivity.
Qed.

(** 52 right shifts of [m * 2^52] give [m] back, exactly. *)
Lemma shr_52 (m : positive) :
  iter_pos shr_1 52
    (Build_shr_record (Z.pos (4503599627370496 * m)) false false) =
  Build_shr_record (Z.pos m) false false.
Proof. reflexivity. Qed.

Lemma digits2_pos_52 (m : positive) :
  Z.pos (digits2_pos (4503599627370496 * m)) = Z.pos (digits2_pos m) + 52.
Proof.
  cbn [Pos.mul digits2_pos]. rewrite !Pos2Z.inj_succ. lia.
Qed.

Lemma SFmul_one_finite (s : bool) (m : positive) (e : Z) :
  bounded prec emax m e = true ->
  SF64mul (S754_finite false 4503599627370496 (-52)) (S754_finite s m e) =
  S754_finite s m e.
Proof.
  intros Hb. apply bounded_inv in Hb. destruct Hb as [Hc He].
  unfold SF64mul, SFmul, binary_round_aux.
  assert (E1 : shr_fexp prec emax (Z.pos (4503599627370496 * m))
                 (-52 + e) loc_Exact
               = (Build_shr_record (Z.pos m) false false, e)).
  { unfold shr_fexp. cbn [Zdigits2]. rewrite digits2_pos_52.
    replace (Z.pos (digits2_pos m) + 52 + (-52 + e))
      with (Z.pos (digits2_pos m) + e) by ring.
    rewrite Hc. replace (e - (-52 + e)) with 52 by ring.
    cbn [shr shr_record_of_loc]. rewrite shr_52. f_equal. ring. }
  rewrite E1. cbn [shr_m loc_of_shr_record round_nearest_even].
  assert (E2 : shr_fexp prec emax (Z.pos m) e loc_Exact
               = (Build_shr_record (Z.pos m) false false, e)).
  { unfold shr_fexp. cbn [Zdigits2]. rewrite Hc, Z.sub_diag. reflexivity. }
  rewrite E2. cbn [shr_m xorb].
  apply Z.leb_le in He. rewrite He. reflexivity.
Qed.

(** Multiplying by [1.0] changes nothing. *)
Lemma mul_1_l (r : float) : (1 * r)%float = r.
Proof.
  apply Prim2SF_inj. rewrite mul_spec, Prim2SF_one.
  pose proof (Prim2SF_valid r) as Hv.
  destruct (Prim2SF r) as [s|s| |s m e]; try reflexivity.
  apply SFmul_one_finite. exact Hv.
Qed.

(** ** Doubles: the rounding of a product

    [SFmul] multiplies the mantissas, shifts the product right down to
    53 digits and rounds to nearest even.  What follows bounds the
    result from above. *)

Lemma digits2_pos_lower (m : positive) :
  2 ^ (Z.pos (digits2_pos m) - 1) <= Z.pos m.
Proof.
  induction m as [m IH|m IH|]; cbn [digits2_pos].
  - rewrite Pos2Z.inj_succ.
    replace (Z.succ (Z.pos (digits2_pos m)) - 1)
      with (Z.succ (Z.pos (digits2_pos m) - 1)) by lia.
    rewrite Z.pow_succ_r by lia. lia.
  - rewrite Pos2Z.inj_succ.
    replace (Z.succ (Z.pos (digits2_pos m)) - 1)
      with (Z.succ (Z.pos (digits2_pos m) - 1)) by lia.
    rewrite Z.pow_succ_r by lia. lia.
  - reflexivity.
Qed.

(** One right shift halves the mantissa and remembers the bit that
    falls off. *)
Lemma shr_1_spec (mrs : shr_record) :
  0 <= shr_m mrs ->
  shr_m (shr_1 mrs) = shr_m mrs / 2 /\
  shr_r (shr_1 mrs) = Z.odd (shr_m mrs).
Proof.
  destruct mrs as [m r s]. cbn [shr_m]. intros Hm.
  rewrite <- Z.div2_div.
  destruct m as [|[p|p|]|p]; try lia; cbn; split; reflexivity.
Qed.

Lemma iter_shr_1_spec (p : positive) :
  forall mrs : shr_record,
    0 <= shr_m mrs ->
    shr_m (iter_pos shr_1 p mrs) = shr_m mrs / 2 ^ Z.pos p /\
    shr_r (iter_pos shr_1 p mrs) = Z.testbit (shr_m mrs) (Z.pos p - 1).
Proof.
  induction p as [p IH|p IH|]; intros mrs Hm; cbn [iter_pos].
  - destruct (shr_1_spec mrs Hm) as [H1 _].
    assert (Hm1 : 0 <= shr_m (shr_1 mrs))
      by (rewrite H1; apply Z.div_pos; lia).
    destruct (IH _ Hm1) as [H2 _].
    assert (Hm2 : 0 <= shr_m (iter_pos shr_1 p (shr_1 mrs)))
      by (rewrite H2; apply Z.div_pos;
          [assumption|apply Z.pow_pos_nonneg; lia]).
    destruct (IH _ Hm2) as [H3 H4].
    rewrite H3, H4, H2, H1.
    assert (Hp : 0 < 2 ^ Z.pos p) by (apply Z.pow_pos_nonneg; lia).
    assert (E : shr_m mrs / 2 / 2 ^ Z.pos p = shr_m mrs / 2 ^ (Z.pos p + 1)).
    { rewrite Z.div_div by lia. f_equal.
      rewrite Z.pow_add_r by lia. lia. }
    rewrite E. split.
    + rewrite Z.div_div by (try apply Z.pow_pos_nonneg; lia).
      rewrite <- Z.pow_add_r by lia. f_equal. f_equal. lia.
    + rewrite Z.div_pow2_bits by lia. f_equal. lia.
  - destruct (IH _ Hm) as [H2 _].
    assert (Hm2 : 0 <= shr_m (iter_pos shr_1 p mrs))
      by (rewrite H2; apply Z.div_pos;
          [assumption|apply Z.pow_pos_nonneg; lia]).
    destruct (IH _ Hm2) as [H3 H4].
    rewrite H3, H4, H2.
    assert (Hp : 0 < 2 ^ Z.pos p) by (apply Z.pow_pos_nonneg; lia).
    split.
    + rewrite Z.div_div by lia.
      rewrite <- Z.pow_add_r by lia. f_equal. f_equal. lia.
    + rewrite Z.div_pow2_bits by lia. f_equal. lia.
  - destruct (shr_1_spec mrs Hm) as [H1 H2]. rewrite H1, H2.
    split; [reflexivity|]. symmetry. apply Z.bit0_odd.
Qed.

(** When the last bit shifted out is set, the part shifted out is at
    least half a unit of the last place kept. *)
Lemma testbit_mod_half (m k : Z) :
  0 < k -> Z.testbit m (k - 1) = true -> 2 ^ (k - 1) <= m mod 2 ^ k.
Proof.
  intros Hk Hb. apply Z.testbit_true in Hb; [|lia].
  assert (E : 2 ^ k = 2 ^ (k - 1) * 2).
  { replace k with (k - 1 + 1) at 1 by lia.
    rewrite Z.pow_add_r by lia. reflexivity. }
  rewrite E.
  rewrite Z.rem_mul_r by (try apply Z.pow_nonzero; lia).
  rewrite Hb.
  pose proof (Z.mod_pos_bound m (2 ^ (k - 1))
                ltac:(apply Z.pow_pos_nonneg; lia)).
  lia.
Qed.

(** Rounding to nearest even adds one only when that bit is set. *)
Lemma round_nearest_even_spec (mrs : shr_record) :
  round_nearest_even (shr_m mrs) (loc_of_shr_record mrs) = shr_m mrs \/
  (round_nearest_even (shr_m mrs) (loc_of_shr_record mrs) = shr_m mrs + 1 /\
   shr_r mrs = true).
Proof.
  destruct mrs as [m [|] [|]]; cbn [shr_m shr_r loc_of_shr_record
                                     round_nearest_even]; auto.
  destruct (Z.even m); auto.
Qed.

(** Rounding [M] up at [k] shifted-out bits stays below [TE] when [M]
    is at most [TE * (1 - 2^-53)] and half a unit is below [TE * 2^-53]. *)
Lemma round_up_below (M k TE : Z) :
  0 < k -> 0 <= M ->
  2 ^ (k - 1) <= M mod 2 ^ k ->
  M * 2 ^ 53 <= TE * (2 ^ 53 - 1) ->
  2 ^ (52 + k) < TE ->
  (M / 2 ^ k + 1) * 2 ^ k < TE.
Proof.
  intros Hk HM Hr Hb Ht.
  assert (E : 2 ^ k = 2 ^ (k - 1) * 2).
  { replace k with (k - 1 + 1) at 1 by lia.
    rewrite Z.pow_add_r by lia. reflexivity. }
  assert (E' : 2 ^ (52 + k) = 2 ^ 53 * 2 ^ (k - 1)).
  { replace (52 + k) with (53 + (k - 1)) by lia.
    rewrite Z.pow_add_r by lia. reflexivity. }
  pose proof (Z.div_mod M (2 ^ k) ltac:(apply Z.pow_nonzero; lia)) as Hd.
  rewrite E' in Ht.
  set (q := M / 2 ^ k) in *. set (r := M mod 2 ^ k) in *.
  rewrite E in Hd |- *. set (h := 2 ^ (k - 1)) in *.
  change (2 ^ 53) with 9007199254740992 in *.
  replace ((q + 1) * (h * 2)) with (2 * (h * q) + 2 * h) by ring.
  replace (h * 2 * q) with (2 * (h * q)) in Hd by ring.
  set (A := h * q) in *. lia.
Qed.

(** The integer part of [m * 2^e], for a value below [T] (both scaled
    by [2^-E]); the exponent is then far from overflowing. *)
Lemma SFtrunc_below (m : positive) (e E T : Z) :
  E <= 0 -> E <= e -> 1 <= T <= 2 ^ 63 ->
  Z.pos m * 2 ^ (e - E) < T * 2 ^ (- E) ->
  e <= emax - prec /\
  exists t, Double.SFtrunc (S754_finite false m e) = Some t /\ 0 <= t < T.
Proof.
  intros HE He HT Hm.
  assert (H1 : 0 < 2 ^ (e - E)) by (apply Z.pow_pos_nonneg; lia).
  assert (H2 : 0 < 2 ^ (- E)) by (apply Z.pow_pos_nonneg; lia).
  split.
  - assert (H3 : 2 ^ (e - E) < 2 ^ (63 - E)).
    { replace (63 - E) with (63 + - E) by lia.
      rewrite (Z.pow_add_r 2 63 (- E)) by lia.
      apply Z.le_lt_trans with (Z.pos m * 2 ^ (e - E)); [nia|].
      eapply Z.lt_le_trans; [exact Hm|].
      apply Z.mul_le_mono_nonneg_r; lia. }
    apply Z.pow_lt_mono_r_iff in H3; [|lia|lia].
    unfold emax, prec. lia.
  - cbn [Double.SFtrunc cond_Zopp].
    destruct (Z.leb_spec 0 e) as [H0|H0].
    + exists (Z.pos m * 2 ^ e). split; [reflexivity|].
      assert (H3 : 0 < 2 ^ e) by (apply Z.pow_pos_nonneg; lia).
      split; [nia|].
      replace (e - E) with (e + - E) in Hm by lia.
      rewrite Z.pow_add_r in Hm by lia.
      rewrite Z.mul_assoc in Hm.
      apply Z.mul_lt_mono_pos_r in Hm; assumption.
    + exists (Z.pos m / 2 ^ (- e)). split; [reflexivity|].
      assert (H3 : 0 < 2 ^ (- e)) by (apply Z.pow_pos_nonneg; lia).
      split; [apply Z.div_pos; lia|].
      apply Z.div_lt_upper_bound; [assumption|].
      replace (- E) with ((e - E) + - e) in Hm by lia.
      rewrite Z.pow_add_r in Hm by lia.
      nia.
Qed.

(** The renormalisation that follows the rounding does not increase
    the value. *)
Lemma round_second_stage (m1 e1 E T : Z) :
  E <= 0 -> E <= e1 -> 1 <= T <= 2 ^ 63 -> 0 <= m1 ->
  m1 * 2 ^ (e1 - E) < T * 2 ^ (- E) ->
  exists t,
    Double.SFtrunc
      (let '(mrs'', e'') :=
         shr (Build_shr_record m1 false false) e1
           (fexp prec emax (Zdigits2 m1 + e1) - e1) in
       match shr_m mrs'' with
       | 0 => S754_zero false
       | Z.pos m =>
           if e'' <=? emax - prec
           then S754_finite false m e''
           else S754_infinity false
       | Z.neg _ => S754_nan
       end) = Some t /\ 0 <= t < T.
Proof.
  intros HE He HT Hm1 Hb. unfold shr.
  destruct (fexp prec emax (Zdigits2 m1 + e1) - e1) as [|p2|p2] eqn:Ek;
    cbn [shr_m].
  1, 3: destruct m1 as [|m|m]; [exists 0; split; [reflexivity|lia]| |lia];
        destruct (SFtrunc_below m e1 E T HE He HT Hb) as [H1 H2];
        apply Z.leb_le in H1; rewrite H1; exact H2.
  destruct (iter_shr_1_spec p2 (Build_shr_record m1 false false) Hm1)
    as [Hq _].
  cbn [shr_m] in Hq. rewrite Hq.
  assert (Hp : 0 < 2 ^ Z.pos p2) by (apply Z.pow_pos_nonneg; lia).
  pose proof (Z.div_pos m1 (2 ^ Z.pos p2) Hm1 Hp) as Hq0.
  pose proof (Z.mul_div_le m1 (2 ^ Z.pos p2) Hp) as Hq1.
  destruct (m1 / 2 ^ Z.pos p2) as [|m|m] eqn:Em;
    [exists 0; split; [reflexivity|lia]| |lia].
  assert (Hb' : Z.pos m * 2 ^ (e1 + Z.pos p2 - E) < T * 2 ^ (- E)).
  { eapply Z.le_lt_trans; [|exact Hb].
    replace (e1 + Z.pos p2 - E) with (Z.pos p2 + (e1 - E)) by lia.
    rewrite Z.pow_add_r by lia.
    assert (0 < 2 ^ (e1 - E)) by (apply Z.pow_pos_nonneg; lia).
    nia. }
  destruct (SFtrunc_below m (e1 + Z.pos p2) E T HE ltac:(lia) HT Hb')
    as [H1 H2].
  apply Z.leb_le in H1. rewrite H1. exact H2.
Qed.

(** Rounding a value of at most [T * (1 - 2^-53)] gives a double with
    an integer part below [T]. *)
Lemma binary_round_aux_below (M : positive) (E T : Z) :
  E <= 0 -> 1 <= T <= 2 ^ 63 ->
  Z.pos M * 2 ^ 53 <= T * 2 ^ (- E) * (2 ^ 53 - 1) ->
  exists t,
    Double.SFtrunc
      (binary_round_aux prec emax false (Z.pos M) E loc_Exact) = Some t /\
    0 <= t < T.
Proof.
  intros HE HT HM.
  assert (H2E : 0 < 2 ^ (- E)) by (apply Z.pow_pos_nonneg; lia).
  assert (HMlt : Z.pos M < T * 2 ^ (- E)).
  { change (2 ^ 53) with 9007199254740992 in HM. nia. }
  pose proof (digits2_pos_lower M) as Hdl.
  unfold binary_round_aux, shr_fexp. cbn [Zdigits2 shr_record_of_loc].
  set (d := Z.pos (digits2_pos M)) in *.
  set (c := fexp prec emax (d + E)).
  assert (Hc : c = Z.max (d + E - 53) (-1074)) by reflexivity.
  clearbody c.
  unfold shr at 1.
  destruct (c - E) as [|pk|pk] eqn:Ek.
  1, 3: cbn [shr_m loc_of_shr_record round_nearest_even];
        apply (round_second_stage (Z.pos M) E E T); try lia;
        rewrite Z.sub_diag, Z.mul_1_r; exact HMlt.
  destruct (iter_shr_1_spec pk (Build_shr_record (Z.pos M) false false)
              ltac:(cbn; lia)) as [Hq Hr].
  cbn [shr_m] in Hq, Hr.
  set (mrs := iter_pos shr_1 pk _) in *.
  assert (Hp : 0 < 2 ^ Z.pos pk) by (apply Z.pow_pos_nonneg; lia).
  assert (Hq0 : 0 <= shr_m mrs) by (rewrite Hq; apply Z.div_pos; lia).
  replace (E + Z.pos pk) with c by lia.
  apply (round_second_stage _ c E T); try lia.
  - destruct (round_nearest_even_spec mrs) as [H|[H _]]; rewrite H; lia.
  - replace (c - E) with (Z.pos pk) by lia.
    destruct (round_nearest_even_spec mrs) as [H|[H Hr1]]; rewrite H, Hq.
    + pose proof (Z.mul_div_le (Z.pos M) (2 ^ Z.pos pk) Hp). lia.
    + rewrite Hr in Hr1.
      apply round_up_below; try lia.
      * apply testbit_mod_half; [lia|assumption].
      * (* half an ulp of the result is below T * 2^-53 *)
        destruct (Z.max_spec (d + E - 53) (-1074)) as [[_ Hm]|[_ Hm]].
        -- assert (Hk : Z.pos pk = -1074 - E) by lia.
           rewrite Hk.
           destruct (Z.lt_ge_cases (52 + (-1074 - E)) 0) as [Hn|Hn].
           ++ rewrite Z.pow_neg_r by assumption. lia.
           ++ apply Z.lt_le_trans with (2 ^ (- E)).
              ** apply Z.pow_lt_mono_r; lia.
              ** nia.
        -- assert (Hk : 52 + Z.pos pk = d - 1) by lia.
           rewrite Hk. lia.
Qed.

(** ** Doubles: conversion of integers *)

Lemma iter_xO_spec (p d : positive) :
  Z.pos (Pos.iter xO p d) = Z.pos p * 2 ^ Z.pos d /\
  Z.pos (digits2_pos (Pos.iter xO p d)) = Z.pos (digits2_pos p) + Z.pos d.
Proof.
  apply (Pos.iter_ind positive xO p
           (fun d q => Z.pos q = Z.pos p * 2 ^ Z.pos d /\
                       Z.pos (digits2_pos q) =
                       Z.pos (digits2_pos p) + Z.pos d)).
  - cbn [digits2_pos]. rewrite Pos2Z.inj_succ. split; lia.
  - intros d' q [H1 H2]. cbn [digits2_pos].
    rewrite !Pos2Z.inj_succ, Z.pow_succ_r by lia. split; lia.
Qed.

(** A mantissa of 53 digits at an exponent in the normal range is left
    as it is by the rounding of [binary_round_aux]. *)
Lemma binary_round_aux_exact (s : bool) (m : positive) (e : Z) :
  Z.pos (digits2_pos m) = 53 -> -1074 <= e <= 971 ->
  binary_round_aux prec emax s (Z.pos m) e loc_Exact = S754_finite s m e.
Proof.
  intros Hd He. unfold binary_round_aux.
  assert (E1 : shr_fexp prec emax (Z.pos m) e loc_Exact
               = (Build_shr_record (Z.pos m) false false, e)).
  { unfold shr_fexp. cbn [Zdigits2]. rewrite Hd.
    replace (fexp prec emax (53 + e) - e) with 0; [reflexivity|].
    unfold fexp, SpecFloat.emin, prec, emax. lia. }
  rewrite E1. cbn [shr_m loc_of_shr_record round_nearest_even].
  rewrite E1. cbn [shr_m].
  replace (e <=? emax - prec) with true; [reflexivity|].
  symmetry. apply Z.leb_le. unfold emax, prec. lia.
Qed.

(** Integers up to [2^53] convert to [double] exactly. *)
Lemma of_int64_exact (n : Z) :
  1 <= n <= 2 ^ 53 ->
  exists m e,
    Prim2SF (Double.of_int64 n) = S754_finite false m e /\
    -52 <= e <= 1 /\ Z.pos m * 2 ^ (e + 52) = n * 2 ^ 52.
Proof.
  intros Hn.
  destruct (Z.eq_dec n (2 ^ 53)) as [->|Hne].
  { exists 4503599627370496%positive, 1. vm_compute. repeat split; congruence. }
  destruct n as [|p|p]; try lia.
  pose proof (digits2_pos_lower p) as Hl.
  pose proof (digits2_pos_bound p) as Hu.
  set (d := Z.pos (digits2_pos p)) in *.
  assert (Hd : 1 <= d <= 53).
  { split; [unfold d; lia|].
    destruct (Z.le_gt_cases d 53) as [H|H]; [assumption|].
    assert (2 ^ 53 <= 2 ^ (d - 1)) by (apply Z.pow_le_mono_r; lia). lia. }
  assert (Hr : exists m,
             binary_normalize prec emax (Z.pos p) 0 false =
             S754_finite false m (d - 53) /\
             Z.pos (digits2_pos m) = 53 /\
             Z.pos m * 2 ^ (d - 53 + 52) = Z.pos p * 2 ^ 52).
  { unfold binary_normalize, binary_round.
    rewrite Z.add_0_r. fold d.
    replace (fexp prec emax d) with (d - 53)
      by (unfold fexp, SpecFloat.emin, prec, emax; lia).
    unfold shl_align. rewrite Z.sub_0_r.
    destruct (d - 53) as [|k|k] eqn:Ek; try lia.
    - exists p. split; [|split].
      + apply binary_round_aux_exact; fold d; lia.
      + fold d. lia.
      + reflexivity.
    - destruct (iter_xO_spec p k) as [H1 H2]. fold d in H2.
      exists (Pos.iter xO p k). split; [|split].
      + apply binary_round_aux_exact; lia.
      + lia.
      + rewrite H1.
        replace 52 with (Z.pos k + (Z.neg k + 52)) at 2 by lia.
        rewrite (Z.pow_add_r 2 (Z.pos k)) by lia. ring. }
  destruct Hr as (m & Hm & Hdm & Hv).
  exists m, (d - 53). split; [|split; [lia|exact Hv]].
  unfold Double.of_int64. rewrite Hm.
  apply Prim2SF_SF2Prim. cbn [SpecFloat.valid_binary].
  unfold bounded, canonical_mantissa. rewrite Hdm.
  apply andb_true_iff. split.
  - apply Z.eqb_eq. unfold fexp, SpecFloat.emin, prec, emax. lia.
  - apply Z.leb_le. unfold emax, prec. lia.
Qed.

Lemma digits2_pos_53 (m : positive) :
  2 ^ 52 <= Z.pos m < 2 ^ 53 -> Z.pos (digits2_pos m) = 53.
Proof.
  intros [H1 H2].
  pose proof (digits2_pos_lower m) as Hl.
  pose proof (digits2_pos_bound m) as Hu.
  set (d := Z.pos (digits2_pos m)) in *.
  assert (Hd : 1 <= d) by (unfold d; lia).
  destruct (Z.lt_trichotomy d 53) as [H|[H|H]]; [|assumption|].
  - assert (2 ^ d <= 2 ^ 52) by (apply Z.pow_le_mono_r; lia). lia.
  - assert (2 ^ 53 <= 2 ^ (d - 1)) by (apply Z.pow_le_mono_r; lia). lia.
Qed.

(** The carry of a rounding: [2^53] is renormalised to [2^52]. *)
Lemma shr_fexp_carry (k : Z) :
  -1074 <= k ->
  shr_fexp prec emax 9007199254740992 k loc_Exact =
  (Build_shr_record 4503599627370496 false false, k + 1).
Proof.
  intros Hk. unfold shr_fexp.
  change (Zdigits2 9007199254740992) with 54.
  replace (fexp prec emax (54 + k) - k) with 1
    by (unfold fexp, SpecFloat.emin, prec, emax; lia).
  reflexivity.
Qed.

(** [(double) n] for [2^53 < n < 2^63]: the value [NZ] it stands for is
    an integer, and when it exceeds [n] both are within half a unit
    [2^k] of the last place, of which [NZ] is a multiple. *)
Lemma of_int64_rounded (n : Z) :
  2 ^ 53 < n < 2 ^ 63 ->
  exists m e NZ,
    Prim2SF (Double.of_int64 n) = S754_finite false m e /\
    1 <= e <= 11 /\ Z.pos m * 2 ^ e = NZ /\ NZ <= 2 ^ 63 /\
    (NZ <= n \/
     exists k j, 1 <= k /\ NZ = j * 2 ^ k /\ NZ <= n + 2 ^ (k - 1) /\
                 2 ^ (52 + k) < n).
Proof.
  intros Hn. destruct n as [|p|p]; try lia.
  pose proof (digits2_pos_lower p) as Hl.
  pose proof (digits2_pos_bound p) as Hu.
  set (d := Z.pos (digits2_pos p)) in *.
  assert (Hd : 54 <= d <= 63).
  { split.
    - destruct (Z.le_gt_cases 54 d) as [H|H]; [assumption|].
      assert (2 ^ d <= 2 ^ 53) by (apply Z.pow_le_mono_r; unfold d; lia). lia.
    - destruct (Z.le_gt_cases d 63) as [H|H]; [assumption|].
      assert (2 ^ 63 <= 2 ^ (d - 1)) by (apply Z.pow_le_mono_r; lia). lia. }
  set (k := d - 53).
  assert (Hk : 1 <= k <= 10) by (unfold k; lia).
  assert (H2k : 0 < 2 ^ k) by (apply Z.pow_pos_nonneg; lia).
  assert (Hpow1 : 2 ^ (d - 1) = 2 ^ 52 * 2 ^ k).
  { replace (d - 1) with (52 + k) by (unfold k; lia).
    apply Z.pow_add_r; lia. }
  assert (Hpow2 : 2 ^ d = 2 ^ 53 * 2 ^ k).
  { replace d with (53 + k) at 1 by (unfold k; lia).
    apply Z.pow_add_r; lia. }
  assert (Hk63 : 2 ^ 53 * 2 ^ k <= 2 ^ 63).
  { rewrite <- Z.pow_add_r by lia. apply Z.pow_le_mono_r; lia. }
  pose proof (Z.div_mod (Z.pos p) (2 ^ k) ltac:(lia)) as Hdm.
  pose proof (Z.mod_pos_bound (Z.pos p) (2 ^ k) H2k) as Hrem.
  set (q := Z.pos p / 2 ^ k) in *.
  assert (Hq : 2 ^ 52 <= q < 2 ^ 53).
  { split.
    - apply Z.div_le_lower_bound; lia.
    - apply Z.div_lt_upper_bound; lia. }
  assert (Hr : exists m e,
             binary_normalize prec emax (Z.pos p) 0 false =
             S754_finite false m e /\
             bounded prec emax m e = true /\ 1 <= e <= 11 /\
             (Z.pos m * 2 ^ e = q * 2 ^ k \/
              (Z.pos m * 2 ^ e = (q + 1) * 2 ^ k /\
               2 ^ (k - 1) <= Z.pos p mod 2 ^ k))).
  { unfold binary_normalize, binary_round.
    rewrite Z.add_0_r. fold d.
    replace (fexp prec emax d) with k
      by (unfold fexp, SpecFloat.emin, prec, emax, k; lia).
    unfold shl_align. rewrite Z.sub_0_r.
    destruct k as [|pk|pk] eqn:Ek; try lia.
    unfold binary_round_aux.
    assert (E1 : shr_fexp prec emax (Z.pos p) 0 loc_Exact =
                 (iter_pos shr_1 pk
                    (Build_shr_record (Z.pos p) false false), Z.pos pk)).
    { unfold shr_fexp. cbn [Zdigits2]. fold d. rewrite Z.add_0_r.
      replace (fexp prec emax d - 0) with (Z.pos pk)
        by (unfold fexp, SpecFloat.emin, prec, emax; lia).
      reflexivity. }
    rewrite E1.
    destruct (iter_shr_1_spec pk (Build_shr_record (Z.pos p) false false)
                ltac:(cbn; lia)) as [Hsm Hsr].
    cbn [shr_m] in Hsm, Hsr. fold q in Hsm.
    set (mrs := iter_pos shr_1 pk _) in *.
    assert (Hm1 : 2 ^ 52 <= round_nearest_even (shr_m mrs)
                               (loc_of_shr_record mrs) <= 2 ^ 53 /\
                  (round_nearest_even (shr_m mrs) (loc_of_shr_record mrs)
                   = q \/
                   (round_nearest_even (shr_m mrs) (loc_of_shr_record mrs)
                    = q + 1 /\
                    2 ^ (Z.pos pk - 1) <= Z.pos p mod 2 ^ Z.pos pk))).
    { destruct (round_nearest_even_spec mrs) as [H|[H Hr1]];
        rewrite H, Hsm; (split; [lia|]); [left; reflexivity|right].
      split; [reflexivity|].
      rewrite Hsr in Hr1. apply testbit_mod_half; [lia|assumption]. }
    set (m1 := round_nearest_even _ _) in *.
    destruct Hm1 as [Hb1 Hv1].
    destruct (Z.eq_dec m1 (2 ^ 53)) as [Hc|Hc].
    - (* the mantissa was rounded up to 2^53 *)
      rewrite Hc. change (2 ^ 53) with 9007199254740992.
      rewrite shr_fexp_carry by lia. cbn [shr_m].
      replace (Z.pos pk + 1 <=? emax - prec) with true
        by (symmetry; apply Z.leb_le; unfold emax, prec; lia).
      exists 4503599627370496%positive, (Z.pos pk + 1).
      split; [reflexivity|]. split; [|split; [lia|]].
      + unfold bounded, canonical_mantissa.
        apply andb_true_iff. split.
        * apply Z.eqb_eq.
          change (Z.pos (digits2_pos 4503599627370496)) with 53.
          unfold fexp, SpecFloat.emin, prec, emax. lia.
        * apply Z.leb_le. unfold emax, prec. lia.
      + assert (Ev : Z.pos 4503599627370496 * 2 ^ (Z.pos pk + 1) =
                     m1 * 2 ^ Z.pos pk).
        { rewrite Hc, Z.pow_add_r by lia.
          change (2 ^ 53) with (4503599627370496 * 2 ^ 1). ring. }
        rewrite Ev.
        destruct Hv1 as [Hv1|[Hv1 Hrm]]; [left|right; split; [|exact Hrm]];
          rewrite Hv1; reflexivity.
    - destruct m1 as [|pm|pm] eqn:Em1; try lia.
      assert (Hdm1 : Z.pos (digits2_pos pm) = 53)
        by (apply digits2_pos_53; lia).
      assert (E2 : shr_fexp prec emax (Z.pos pm) (Z.pos pk) loc_Exact =
                   (Build_shr_record (Z.pos pm) false false, Z.pos pk)).
      { unfold shr_fexp. cbn [Zdigits2]. rewrite Hdm1.
        replace (fexp prec emax (53 + Z.pos pk) - Z.pos pk) with 0
          by (unfold fexp, SpecFloat.emin, prec, emax; lia).
        reflexivity. }
      rewrite E2. cbn [shr_m].
      replace (Z.pos pk <=? emax - prec) with true
        by (symmetry; apply Z.leb_le; unfold emax, prec; lia).
      exists pm, (Z.pos pk). split; [reflexivity|].
      split; [|split; [lia|]].
      + unfold bounded, canonical_mantissa. rewrite Hdm1.
        apply andb_true_iff. split.
        * apply Z.eqb_eq. unfold fexp, SpecFloat.emin, prec, emax. lia.
        * apply Z.leb_le. unfold emax, prec. lia.
      + destruct Hv1 as [Hv1|[Hv1 Hrm]]; [left|right; split; [|exact Hrm]];
          rewrite Hv1; reflexivity. }
  destruct Hr as (m & e & Hm & Hbd & He & Hv).
  exists m, e, (Z.pos m * 2 ^ e).
  split.
  { unfold Double.of_int64. rewrite Hm. apply Prim2SF_SF2Prim. exact Hbd. }
  split; [exact He|]. split; [reflexivity|].
  destruct Hv as [Hv|[Hv Hrm]]; rewrite Hv.
  - split; [nia|]. left. nia.
  - split; [nia|]. right. exists k, (q + 1).
    split; [lia|]. split; [reflexivity|].
    assert (Ek2 : 2 ^ k = 2 * 2 ^ (k - 1)).
    { replace k with (1 + (k - 1)) at 1 by lia.
      rewrite Z.pow_add_r by lia. reflexivity. }
    split; [nia|].
    replace (52 + k) with (d - 1) by (unfold k; lia).
    assert (0 < 2 ^ (k - 1)) by (apply Z.pow_pos_nonneg; lia).
    rewrite Hpow1. nia.
Qed.

(** ** The range mapper *)

(** On a one-value range a normalised value strictly between -1 and 1
    (so any value in [0, 1)) is mapped to that value. *)
Lemma scale_to_range_single (m : Z) (rand : float) :
  Int64.in_range m ->
  (-1 <? rand)%float = true -> (rand <? 1)%float = true ->
  scale_to_range m m rand = Some m.
Proof.
  intros Hm H0 H1. unfold scale_to_range.
  rewrite Int64Facts.width_eq. replace (m - m + 1) with 1 by ring.
  change (Double.of_int64 (Int64.wrap 1)) with 1%float.
  rewrite mul_1_l, (to_int64_small rand H0 H1).
  unfold Int64.add. rewrite Z.add_0_r, Int64Facts.wrap_small by assumption.
  reflexivity.
Qed.

Lemma scale_to_range_nan (min max : Z) : scale_to_range min max nan = None.
Proof.
  unfold scale_to_range.
  assert (E : (Double.of_int64 (Int64.add (Int64.sub max min) 1) * nan)%float
              = nan).
  { apply Prim2SF_inj. rewrite mul_spec.
    change (Prim2SF nan) with S754_nan.
    destruct (Prim2SF _); reflexivity. }
  rewrite E. reflexivity.
Qed.

(** A double below [1.0] is at most [1 - 2^-53]. *)
Lemma SFltb_one_bounded (m : positive) (e : Z) :
  bounded prec emax m e = true ->
  SFltb (S754_finite false m e)
        (S754_finite false 4503599627370496 (-52)) = true ->
  e <= -53 /\ Z.pos m < 2 ^ 53.
Proof.
  intros Hb Hlt. split; [|apply (bounded_mantissa m e Hb)].
  apply SFltb_one_inv in Hlt. destruct Hlt as [Hlt|[He Hm]]; [lia|].
  apply bounded_inv in Hb. destruct Hb as [Hc _].
  pose proof (digits2_pos_lower m) as Hl.
  assert (Hd : Z.pos (digits2_pos m) <= 52).
  { destruct (Z.le_gt_cases (Z.pos (digits2_pos m)) 52) as [H|H];
      [assumption|].
    assert (2 ^ 52 <= 2 ^ (Z.pos (digits2_pos m) - 1))
      by (apply Z.pow_le_mono_r; lia). lia. }
  unfold fexp, SpecFloat.emin, prec, emax in Hc. lia.
Qed.

Lemma in_rangeb_true (z : Z) : Int64.in_range z -> Int64.in_rangeb z = true.
Proof.
  unfold Int64.in_range, Int64.in_rangeb. intros [H1 H2].
  apply andb_true_iff. split; apply Z.leb_le; assumption.
Qed.

(** The product [(double) n * rand], for [n <= 2^53] and [rand] in
    [[0, 1)], has an integer part in [[0, n - 1]]: the rounding of the
    product cannot reach [n]. *)
Lemma scaled_rand_below_exact (n : Z) (rand : float) :
  1 <= n <= 2 ^ 53 ->
  (0 <=? rand)%float = true -> (rand <? 1)%float = true ->
  exists t, Double.to_int64 (Double.of_int64 n * rand) = Some t /\
            0 <= t < n.
Proof.
  intros Hn H0 H1.
  destruct (of_int64_exact n Hn) as (mN & eN & HN & HeN & HvN).
  rewrite leb_spec, Prim2SF_zero in H0.
  rewrite ltb_spec, Prim2SF_one in H1.
  pose proof (Prim2SF_valid rand) as Hv.
  assert (Ht : exists t,
             Double.SFtrunc (Prim2SF (Double.of_int64 n * rand)) = Some t /\
             0 <= t < n).
  { rewrite mul_spec, HN.
    destruct (Prim2SF rand) as [s|s| |s mr er].
    - exists 0. split; [reflexivity|lia].
    - destruct s; discriminate.
    - discriminate.
    - destruct s; [discriminate|].
      cbn [SpecFloat.valid_binary] in Hv.
      destruct (SFltb_one_bounded mr er Hv H1) as [Her Hmr].
      unfold SF64mul, SFmul. cbn [xorb].
      apply binary_round_aux_below; [lia| |].
      + split; [lia|].
        apply Z.le_trans with (2 ^ 53); [lia|].
        apply Z.pow_le_mono_r; lia.
      + (* n * 2^-(eN + er) = mN * 2^53 * 2^(-er - 53) *)
        assert (HX : 0 < 2 ^ (eN + 52)) by (apply Z.pow_pos_nonneg; lia).
        assert (HA : 0 < 2 ^ (- er - 53)) by (apply Z.pow_pos_nonneg; lia).
        assert (HnY : n * 2 ^ (53 - eN) = Z.pos mN * 2 ^ 53).
        { apply (Z.mul_reg_r _ _ (2 ^ (eN + 52))); [lia|].
          rewrite <- Z.mul_assoc, <- Z.pow_add_r by lia.
          replace (53 - eN + (eN + 52)) with (52 + 53) by lia.
          rewrite Z.pow_add_r by lia.
          rewrite <- (Z.mul_assoc (Z.pos mN)), (Z.mul_comm (2 ^ 53)).
          rewrite !Z.mul_assoc, HvN. reflexivity. }
        replace (- (eN + er)) with ((53 - eN) + (- er - 53)) by lia.
        rewrite Z.pow_add_r by lia.
        rewrite (Z.mul_assoc n), HnY, Pos2Z.inj_mul.
        change (2 ^ 53) with 9007199254740992 in *.
        set (A := 2 ^ (- er - 53)) in *. nia. }
  destruct Ht as (t & Ht & Hr).
  exists t. split; [|exact Hr].
  unfold Double.to_int64. rewrite Ht, in_rangeb_true; [reflexivity|].
  unfold Int64.in_range, Int64.min_signed, Int64.max_signed.
  change (2 ^ 53) with 9007199254740992 in Hn.
  change (2 ^ 63) with 9223372036854775808. lia.
Qed.

(** Above [2^(52+k)] the doubles are multiples of [2^k].  So when
    [NZ], such a multiple, exceeds [n] by at most half of [2^k], a
    double with an integer part below [NZ] has it below [n] too. *)
Lemma SFtrunc_grid (s : bool) (m : positive) (e t n NZ k j : Z) :
  bounded prec emax m e = true ->
  Double.SFtrunc (S754_finite s m e) = Some t ->
  t < NZ -> 1 <= k -> NZ = j * 2 ^ k -> NZ <= n + 2 ^ (k - 1) ->
  2 ^ (52 + k) < n ->
  t < n.
Proof.
  intros Hb Ht HtN Hk HNZ Hup Hlow.
  pose proof (bounded_mantissa m e Hb) as Hm.
  assert (Ht' : cond_Zopp s (if 0 <=? e then Z.pos m * 2 ^ e
                             else Z.pos m / 2 ^ (- e)) = t)
    by (unfold Double.SFtrunc in Ht; congruence).
  clear Ht. rename Ht' into Ht.
  assert (H2k : 0 < 2 ^ (k - 1)) by (apply Z.pow_pos_nonneg; lia).
  assert (Ek : 2 ^ k = 2 * 2 ^ (k - 1)).
  { replace k with (1 + (k - 1)) at 1 by lia.
    rewrite Z.pow_add_r by lia. reflexivity. }
  assert (E52 : 2 ^ (52 + k) = 2 ^ 53 * 2 ^ (k - 1)).
  { replace (52 + k) with (53 + (k - 1)) by lia.
    apply Z.pow_add_r; lia. }
  rewrite E52 in Hlow.
  change (2 ^ 53) with 9007199254740992 in *.
  set (h := 2 ^ (k - 1)) in *.
  destruct s; unfold cond_Zopp in Ht.
  { assert (0 <= (if 0 <=? e then Z.pos m * 2 ^ e
                  else Z.pos m / 2 ^ (- e))).
    { destruct (Z.leb_spec 0 e).
      - apply Z.mul_nonneg_nonneg; [lia|apply Z.pow_nonneg; lia].
      - apply Z.div_pos; [lia|apply Z.pow_pos_nonneg; lia]. }
    set (X := if 0 <=? e then _ else _) in *. lia. }
  destruct (Z.leb_spec 0 e) as [H0|H0]; cbv iota in Ht.
  - destruct (Z.lt_ge_cases e k) as [Hek|Hek].
    + assert (He1 : 2 ^ e <= h) by (apply Z.pow_le_mono_r; lia).
      assert (He2 : 0 < 2 ^ e) by (apply Z.pow_pos_nonneg; lia).
      assert (Hlt : Z.pos m * 2 ^ e < 9007199254740992 * 2 ^ e)
        by (apply Z.mul_lt_mono_pos_r; assumption).
      lia.
    + assert (Ee : 2 ^ e = 2 ^ (e - k) * 2 ^ k).
      { replace e with ((e - k) + k) at 1 by lia.
        apply Z.pow_add_r; lia. }
      assert (HK : 0 < 2 ^ k) by lia.
      rewrite Ee, Z.mul_assoc in Ht. subst t NZ.
      set (a := Z.pos m * 2 ^ (e - k)) in *.
      assert (Ha : a < j) by (apply (Z.mul_lt_mono_pos_r (2 ^ k)); assumption).
      assert (Ha' : a * 2 ^ k <= (j - 1) * 2 ^ k)
        by (apply Z.mul_le_mono_nonneg_r; lia).
      rewrite Z.mul_sub_distr_r in Ha'.
      set (A := a * 2 ^ k) in *. set (J := j * 2 ^ k) in *. lia.
  - assert (He2 : 0 < 2 ^ (- e)) by (apply Z.pow_pos_nonneg; lia).
    assert (Hd : Z.pos m / 2 ^ (- e) <= Z.pos m / 1)
      by (apply Z.div_le_compat_l; lia).
    rewrite Z.div_1_r in Hd. lia.
Qed.

(** The same for [2^53 < n < 2^63], where [(double) n] may be rounded:
    the product is below [(double) n], and when that exceeds [n] the
    product, a multiple of the unit [(double) n] was rounded to, is a
    whole unit below it. *)
Lemma scaled_rand_below_rounded (n : Z) (rand : float) :
  2 ^ 53 < n < 2 ^ 63 ->
  (0 <=? rand)%float = true -> (rand <? 1)%float = true ->
  exists t, Double.to_int64 (Double.of_int64 n * rand) = Some t /\
            0 <= t < n.
Proof.
  intros Hn H0 H1.
  destruct (of_int64_rounded n Hn)
    as (mN & eN & NZ & HN & HeN & HvN & HN63 & Hcase).
  rewrite leb_spec, Prim2SF_zero in H0.
  rewrite ltb_spec, Prim2SF_one in H1.
  pose proof (Prim2SF_valid rand) as Hv.
  pose proof (Prim2SF_valid (Double.of_int64 n * rand)) as Hvp.
  assert (Ht : exists t,
             Double.SFtrunc (Prim2SF (Double.of_int64 n * rand)) = Some t /\
             0 <= t < NZ).
  { rewrite mul_spec, HN.
    assert (HNZ1 : 1 <= NZ).
    { rewrite <- HvN.
      assert (0 < 2 ^ eN) by (apply Z.pow_pos_nonneg; lia). nia. }
    destruct (Prim2SF rand) as [s|s| |s mr er].
    - exists 0. split; [reflexivity|lia].
    - destruct s; discriminate.
    - discriminate.
    - destruct s; [discriminate|].
      cbn [SpecFloat.valid_binary] in Hv.
      destruct (SFltb_one_bounded mr er Hv H1) as [Her Hmr].
      unfold SF64mul, SFmul. cbn [xorb].
      apply binary_round_aux_below; [lia|lia|].
      assert (HA : 0 < 2 ^ (- er - 53)) by (apply Z.pow_pos_nonneg; lia).
      assert (HnY : NZ * 2 ^ (53 - eN) = Z.pos mN * 2 ^ 53).
      { rewrite <- HvN, <- Z.mul_assoc, <- Z.pow_add_r by lia.
        replace (eN + (53 - eN)) with 53 by lia. reflexivity. }
      replace (- (eN + er)) with ((53 - eN) + (- er - 53)) by lia.
      rewrite Z.pow_add_r by lia.
      rewrite (Z.mul_assoc NZ), HnY, Pos2Z.inj_mul.
      change (2 ^ 53) with 9007199254740992 in *.
      set (A := 2 ^ (- er - 53)) in *. nia. }
  destruct Ht as (t & Ht & Hr).
  assert (Htn : t < n).
  { destruct Hcase as [Hle|(k & j & Hk & HNZ & Hup & Hlow)]; [lia|].
    destruct (Prim2SF (Double.of_int64 n * rand)) as [s|s| |s m e];
      try discriminate.
    - injection Ht as <-. lia.
    - cbn [SpecFloat.valid_binary] in Hvp.
      apply (SFtrunc_grid s m e t n NZ k j); try assumption. lia. }
  exists t. split; [|lia].
  unfold Double.to_int64. rewrite Ht, in_rangeb_true; [reflexivity|].
  unfold Int64.in_range, Int64.min_signed, Int64.max_signed.
  change (2 ^ 63) with 9223372036854775808 in *. lia.
Qed.

(** The range mapper stays in the range, whatever the width: for
    [min <= max] whose width does not wrap, a [rand] in [[0, 1)] is
    mapped into [[min, max]]. *)
Lemma scale_to_range_in_range (min max : Z) (rand : float) :
  Int64.in_range min -> Int64.in_range max ->
  min <= max -> max - min + 1 <= Int64.max_signed ->
  (0 <=? rand)%float = true -> (rand <? 1)%float = true ->
  exists v, scale_to_range min max rand = Some v /\ min <= v <= max.
Proof.
  intros Hmin Hmax Hle Hw H0 H1. unfold scale_to_range.
  rewrite Int64Facts.width_eq, Int64Facts.wrap_small.
  - assert (Ht : exists t,
               Double.to_int64 (Double.of_int64 (max - min + 1) * rand)
               = Some t /\ 0 <= t < max - min + 1).
    { destruct (Z.le_gt_cases (max - min + 1) (2 ^ 53)) as [Hs|Hs].
      - apply scaled_rand_below_exact; [lia|assumption|assumption].
      - apply scaled_rand_below_rounded; [|assumption|assumption].
        unfold Int64.max_signed in Hw. lia. }
    destruct Ht as (t & Ht & Hr).
    rewrite Ht. exists (min + t). split; [|lia].
    unfold Int64.add. rewrite Int64Facts.wrap_small; [reflexivity|].
    unfold Int64.in_range in *. lia.
  - unfold Int64.in_range, Int64.min_signed, Int64.max_signed in *. lia.
Qed.

(** ** Seeding *)

Lemma land_ones_16 (z : Z) : Z.land z 0xFFFF = z mod 2 ^ 16.
Proof. change 0xFFFF with (Z.ones 16). apply Z.land_ones. lia. Qed.

Lemma seed_words_eq (iseed : Z) :
  seed_words iseed =
  mkRandomState (iseed mod 2 ^ 16, (iseed / 2 ^ 16) mod 2 ^ 16,
                 (iseed / 2 ^ 32) mod 2 ^ 16).
Proof.
  unfold seed_words. rewrite !land_ones_16, !Z.shiftr_div_pow2 by lia.
  reflexivity.
Qed.

(** The three words, read as one number, are the low 48 bits. *)
Lemma seed_words_value (iseed : Z) :
  Posix.state_value (seed_words iseed) = iseed mod 2 ^ 48.
Proof.
  rewrite seed_words_eq. unfold Posix.state_value. cbn [xseed].
  change (2 ^ 48) with (2 ^ 16 * (2 ^ 16 * 2 ^ 16)).
  rewrite !Z.rem_mul_r by lia.
  change (2 ^ 32) with (2 ^ 16 * 2 ^ 16).
  rewrite <- Z.div_div by lia. ring.
Qed.

(** Bit [i] of the word taken at offset [k] is bit [i + k] of the seed. *)
Lemma seed_word_bits (iseed i k : Z) :
  0 <= k ->
  Z.testbit ((iseed / 2 ^ k) mod 2 ^ 16) i =
  (0 <=? i) && (i <? 16) && Z.testbit iseed (i + k).
Proof.
  intros Hk. destruct (Z.leb_spec 0 i) as [Hi|Hi]; cbn [andb].
  - destruct (Z.ltb_spec i 16) as [Hi'|Hi']; cbn [andb].
    + rewrite Z.mod_pow2_bits_low by lia.
      rewrite <- Z.shiftr_div_pow2 by lia. apply Z.shiftr_spec. lia.
    + apply Z.mod_pow2_bits_high. lia.
  - apply Z.testbit_neg_r. lia.
Qed.

(** ** The rejection loops *)

Section LoopFacts.

Variable P : Platform.

Lemma after_draws_add (a b : nat) (st : RandomState) :
  after_draws P (a + b) st = after_draws P b (after_draws P a st).
Proof.
  revert st. induction a as [|a IH]; intros st; cbn; [reflexivity|apply IH].
Qed.

Lemma after_draws_shift (n m : nat) (st : RandomState) :
  (m = 2 + n)%nat ->
  after_draws P n (after_draws P 2 st) = after_draws P m st.
Proof. intros ->. rewrite <- after_draws_add. reflexivity. Qed.

(** Each iteration of the Gaussian loop draws twice; a rejected one
    hands the state after both draws to the next. *)
Lemma gaussian_loop_step (fuel : nat) (st : RandomState) (p : float) :
  gaussian_loop P (S fuel) st p =
  if gaussian_retry p (gaussian_candidate P st)
  then gaussian_loop P fuel (after_draws P 2 st) p
  else Some (gaussian_candidate P st, after_draws P 2 st).
Proof.
  cbn [gaussian_loop after_draws]. unfold gaussian_candidate.
  destruct (pg_erand48 P st) as [u1 s1]. cbn [snd].
  destruct (pg_erand48 P s1) as [u2 s2]. reflexivity.
Qed.

(** Enough fuel gives the result: when iteration [k] is the first to
    leave the loop, any fuel above [k] returns its [stdev], with the
    state [2 * (k + 1)] draws later. *)
Lemma gaussian_loop_first_accept (p : float) (k : nat) :
  forall (st : RandomState) (fuel : nat),
    gaussian_first_accept P st p k -> (k < fuel)%nat ->
    gaussian_loop P fuel st p =
    Some (gaussian_candidate P (after_draws P (2 * k) st),
          after_draws P (2 * k + 2) st).
Proof.
  induction k as [|k IH]; intros st fuel [Hk Hlt] Hf;
    (destruct fuel as [|fuel]; [lia|]); rewrite gaussian_loop_step.
  - change (2 * 0)%nat with 0%nat in *. cbn [after_draws] in Hk.
    rewrite Hk. reflexivity.
  - pose proof (Hlt 0%nat ltac:(lia)) as H0.
    change (2 * 0)%nat with 0%nat in H0. cbn [after_draws] in H0.
    rewrite H0.
    rewrite (IH (after_draws P 2 st) fuel).
    + rewrite (after_draws_shift (2 * k) (2 * S k)) by lia.
      rewrite (after_draws_shift (2 * k + 2) (2 * S k + 2)) by lia.
      reflexivity.
    + split.
      * rewrite (after_draws_shift (2 * k) (2 * S k)) by lia. exact Hk.
      * intros j Hj.
        rewrite (after_draws_shift (2 * j) (2 * S j)) by lia.
        apply Hlt. lia.
    + lia.
Qed.

(** Conversely, what the loop returns is the [stdev] of its first
    accepting iteration. *)
Lemma gaussian_loop_sound (p : float) (fuel : nat) :
  forall (st st' : RandomState) (stdev : float),
    gaussian_loop P fuel st p = Some (stdev, st') ->
    exists k, (k < fuel)%nat /\ gaussian_first_accept P st p k /\
              stdev = gaussian_candidate P (after_draws P (2 * k) st) /\
              st' = after_draws P (2 * k + 2) st.
Proof.
  induction fuel as [|fuel IH]; intros st st' stdev H; [discriminate|].
  rewrite gaussian_loop_step in H.
  destruct (gaussian_retry p (gaussian_candidate P st)) eqn:E.
  - apply IH in H. destruct H as (k & Hk & [Ha Hb] & Hs & Hst).
    exists (S k).
    rewrite (after_draws_shift (2 * k) (2 * S k)) in Ha, Hs by lia.
    rewrite (after_draws_shift (2 * k + 2) (2 * S k + 2)) in Hst by lia.
    repeat split; try assumption; try lia.
    intros j Hj. destruct j as [|j]; [exact E|].
    specialize (Hb j ltac:(lia)).
    rewrite (after_draws_shift (2 * j) (2 * S j)) in Hb by lia. exact Hb.
  - injection H as H1 H2. exists 0%nat.
    repeat split; try (symmetry; assumption); try lia.
    exact E.
Qed.

Lemma zipfian_loop_step (fuel : nat) (st : RandomState) (n : Z) (s : float) :
  zipfian_loop P (S fuel) st n s (pow P 2 (s - 1)) =
  if zipfian_breaks P n s st
  then Some (zipfian_candidate P s st, after_draws P 2 st)
  else zipfian_loop P fuel (after_draws P 2 st) n s (pow P 2 (s - 1)).
Proof.
  cbn [zipfian_loop after_draws]. unfold zipfian_breaks, zipfian_candidate.
  destruct (pg_erand48 P st) as [u s1]. cbn [snd fst].
  destruct (pg_erand48 P s1) as [v s2]. reflexivity.
Qed.

Lemma zipfian_loop_first_accept (n : Z) (s : float) (k : nat) :
  forall (st : RandomState) (fuel : nat),
    zipfian_first_accept P st n s k -> (k < fuel)%nat ->
    zipfian_loop P fuel st n s (pow P 2 (s - 1)) =
    Some (zipfian_candidate P s (after_draws P (2 * k) st),
          after_draws P (2 * k + 2) st).
Proof.
  induction k as [|k IH]; intros st fuel [Hk Hlt] Hf;
    (destruct fuel as [|fuel]; [lia|]); rewrite zipfian_loop_step.
  - change (2 * 0)%nat with 0%nat in *. cbn [after_draws] in Hk.
    rewrite Hk. reflexivity.
  - pose proof (Hlt 0%nat ltac:(lia)) as H0.
    change (2 * 0)%nat with 0%nat in H0. cbn [after_draws] in H0.
    rewrite H0.
    rewrite (IH (after_draws P 2 st) fuel).
    + rewrite (after_draws_shift (2 * k) (2 * S k)) by lia.
      rewrite (after_draws_shift (2 * k + 2) (2 * S k + 2)) by lia.
      reflexivity.
    + split.
      * rewrite (after_draws_shift (2 * k) (2 * S k)) by lia. exact Hk.
      * intros j Hj.
        rewrite (after_draws_shift (2 * j) (2 * S j)) by lia.
        apply Hlt. lia.
    + lia.
Qed.

Lemma zipfian_loop_sound (n : Z) (s : float) (fuel : nat) :
  forall (st st' : RandomState) (x : float),
    zipfian_loop P fuel st n s (pow P 2 (s - 1)) = Some (x, st') ->
    exists k, (k < fuel)%nat /\ zipfian_first_accept P st n s k /\
              x = zipfian_candidate P s (after_draws P (2 * k) st) /\
              st' = after_draws P (2 * k + 2) st.
Proof.
  induction fuel as [|fuel IH]; intros st st' x H; [discriminate|].
  rewrite zipfian_loop_step in H.
  destruct (zipfian_breaks P n s st) eqn:E.
  - injection H as H1 H2. exists 0%nat.
    repeat split; try (symmetry; assumption); try lia.
    exact E.
  - apply IH in H. destruct H as (k & Hk & [Ha Hb] & Hs & Hst).
    exists (S k).
    rewrite (after_draws_shift (2 * k) (2 * S k)) in Ha, Hs by lia.
    rewrite (after_draws_shift (2 * k + 2) (2 * S k + 2)) in Hst by lia.
    repeat split; try assumption; try lia.
    intros j Hj. destruct j as [|j]; [exact E|].
    specialize (Hb j ltac:(lia)).
    rewrite (after_draws_shift (2 * j) (2 * S j)) in Hb by lia. exact Hb.
Qed.

(** The rank the Zipfian loop breaks on passed the test against
    [(double) n]. *)
Lemma zipfian_loop_bound (n : Z) (s : float) (fuel : nat)
  (st st' : RandomState) (x : float) :
  zipfian_loop P fuel st n s (pow P 2 (s - 1)) = Some (x, st') ->
  (x <=? Double.of_int64 n)%float = true.
Proof.
  intros H. apply zipfian_loop_sound in H.
  destruct H as (k & _ & [Ha _] & Hx & _). subst x.
  unfold zipfian_breaks, zipfian_candidate in *.
  destruct (pg_erand48 P (after_draws P (2 * k) st)) as [u s1]. cbn [fst].
  destruct (pg_erand48 P s1) as [v s2].
  unfold zipfian_accept in Ha. apply andb_true_iff in Ha. apply Ha.
Qed.

End LoopFacts.

(** The Gaussian loop is left exactly on
    [-parameter <= stdev < parameter], as long as neither number is
    NaN. *)
Lemma gaussian_retry_false_iff (parameter stdev : float) :
  is_nan parameter = false -> is_nan stdev = false ->
  gaussian_retry parameter stdev = false <->
  (- parameter <=? stdev)%float = true /\ (stdev <? parameter)%float = true.
Proof.
  intros Hp Hs. unfold gaussian_retry.
  rewrite orb_false_iff, !ltb_spec, !leb_spec.
  pose proof (opp_not_nan parameter Hp) as Hp'.
  apply is_nan_spec in Hp, Hs.
  unfold SFltb, SFleb.
  rewrite (SFcompare_antisym (Prim2SF stdev) (Prim2SF (- parameter))).
  rewrite (SFcompare_antisym (Prim2SF stdev) (Prim2SF parameter)).
  destruct (SFcompare_defined _ _ Hs Hp') as [c1 E1].
  destruct (SFcompare_defined _ _ Hs Hp) as [c2 E2].
  rewrite E1, E2. destruct c1, c2; cbn; intuition congruence.
Qed.

(** A NaN [stdev] leaves the loop as well. *)
Lemma gaussian_retry_nan (parameter : float) :
  gaussian_retry parameter nan = false.
Proof.
  unfold gaussian_retry. rewrite ltb_spec, leb_spec.
  change (Prim2SF nan) with S754_nan.
  destruct (Prim2SF (- parameter)), (Prim2SF parameter); reflexivity.
Qed.

(** With [parameter = +infinity] every finite [stdev] leaves the loop
    and is normalised to NaN. *)
Lemma gaussian_retry_infinity (x : float) :
  is_finite x = true -> gaussian_retry infinity x = false.
Proof.
  intros H. unfold gaussian_retry.
  rewrite ltb_spec, leb_spec, Prim2SF_neg_infinity, Prim2SF_infinity.
  destruct (is_finite_inv x H) as [[s E]|(s & m & e & E)]; rewrite E;
    reflexivity.
Qed.

Lemma gaussian_rand_infinity (x : float) :
  is_finite x = true -> gaussian_rand infinity x = nan.
Proof.
  intros H. unfold gaussian_rand. apply Prim2SF_inj.
  rewrite div_spec, add_spec, Prim2SF_infinity.
  destruct (is_finite_inv x H) as [[s E]|(s & m & e & E)]; rewrite E;
    vm_compute; reflexivity.
Qed.

(** ** Errors of the entry points *)

Lemma random_exponential_raises
  (P : Platform) (entropy : option Z) (g : RandomState)
  (lb ub : Z) (param : float) :
  raised (random_exponential P entropy g lb ub param) = None \/
  raised (random_exponential P entropy g lb ub param) = Some SeedingFailed.
Proof.
  unfold random_exponential.
  destruct entropy as [iseed|]; cbn [initRandomState].
  - left. unfold getExponentialRand.
    destruct (pg_erand48 P (seed_words iseed)) as [u st'].
    destruct (scale_to_range lb ub (exponential_rand P param u));
      reflexivity.
  - right. reflexivity.
Qed.

Lemma getGaussianRand_raises
  (P : Platform) (fuel : nat) (st : RandomState) (lb ub : Z) (param : float) :
  raised (getGaussianRand P fuel st lb ub param) = None.
Proof.
  unfold getGaussianRand.
  destruct (gaussian_loop P fuel st param) as [[stdev st']|]; [|reflexivity].
  destruct (scale_to_range lb ub (gaussian_rand param stdev)); reflexivity.
Qed.

Lemma random_gaussian_raises
  (P : Platform) (fuel : nat) (entropy : option Z) (g : RandomState)
  (lb ub : Z) (param : float) :
  raised (random_gaussian P fuel entropy g lb ub param) = None \/
  raised (random_gaussian P fuel entropy g lb ub param) = Some SeedingFailed.
Proof.
  unfold random_gaussian.
  destruct entropy as [iseed|]; cbn [initRandomState].
  - left. apply getGaussianRand_raises.
  - right. reflexivity.
Qed.

Lemma getZipfianRand_raises
  (P : Platform) (fuel : nat) (st : RandomState) (lb ub : Z) (s : float) :
  raised (getZipfianRand P fuel st lb ub s) = None.
Proof.
  unfold getZipfianRand, computeIterativeZipfian.
  destruct (Int64.add (Int64.sub ub lb) 1 <=? 1); [reflexivity|].
  destruct (zipfian_loop P fuel st _ s _) as [[x st']|]; [|reflexivity].
  destruct (Double.to_int64 x); reflexivity.
Qed.

Lemma random_zipfian_raises
  (P : Platform) (fuel : nat) (entropy : option Z) (g : RandomState)
  (lb ub : Z) (param : float) :
  raised (random_zipfian P fuel entropy g lb ub param) = None \/
  raised (random_zipfian P fuel entropy g lb ub param) = Some SeedingFailed \/
  raised (random_zipfian P fuel entropy g lb ub param) = Some InvalidParameter.
Proof.
  unfold random_zipfian.
  destruct ((param <? MIN_ZIPFIAN_PARAM)%float
            || (MAX_ZIPFIAN_PARAM <? param)%float).
  - right; right. reflexivity.
  - destruct entropy as [iseed|]; cbn [initRandomState].
    + left. apply getZipfianRand_raises.
    + right; left. reflexivity.
Qed.

Lemma random_zipfian_checked
  (P : Platform) (fuel : nat) (entropy : option Z) (g : RandomState)
  (lb ub : Z) (param : float) :
  (param <? MIN_ZIPFIAN_PARAM)%float
  || (MAX_ZIPFIAN_PARAM <? param)%float = false ->
  raised (random_zipfian P fuel entropy g lb ub param) = None \/
  raised (random_zipfian P fuel entropy g lb ub param) = Some SeedingFailed.
Proof.
  intros H. unfold random_zipfian. rewrite H.
  destruct entropy as [iseed|]; cbn [initRandomState].
  - left. apply getZipfianRand_raises.
  - right. reflexivity.
Qed.

Lemma zipfian_param_check_passes (s : float) :
  (MIN_ZIPFIAN_PARAM <=? s)%float = true ->
  (s <=? MAX_ZIPFIAN_PARAM)%float = true ->
  (s <? MIN_ZIPFIAN_PARAM)%float || (MAX_ZIPFIAN_PARAM <? s)%float = false.
Proof.
  intros H1 H2.
  rewrite (leb_true_ltb_false _ _ H1), (leb_true_ltb_false _ _ H2).
  reflexivity.
Qed.

(** ** The degenerate branch of the Zipfian sampler *)

(** With [n <= 1] the Zipfian sampler returns [min] at once: the state
    is the one it was given and the fuel is not touched. *)
Lemma getZipfianRand_degenerate
  (P : Platform) (fuel : nat) (st : RandomState) (min max : Z) (s : float) :
  Int64.in_range min ->
  Int64.add (Int64.sub max min) 1 <= 1 ->
  getZipfianRand P fuel st min max s = Returns min st.
Proof.
  intros Hmin Hn. unfold getZipfianRand, computeIterativeZipfian.
  apply Z.leb_le in Hn. rewrite Hn.
  rewrite Int64Facts.rank_shift_eq.
  replace (min - 1 + 1) with min by ring.
  rewrite Int64Facts.wrap_small by assumption. reflexivity.
Qed.

(** ** The Zipfian rank

    The loop breaks on a candidate [x] with [x <= (double) n]. *)

Lemma SFleb_finite_inv (m1 m2 : positive) (e1 e2 : Z) :
  SFleb (S754_finite false m1 e1) (S754_finite false m2 e2) = true ->
  e1 < e2 \/ (e1 = e2 /\ Z.pos m1 <= Z.pos m2).
Proof.
  unfold SFleb. cbn [SFcompare]. intros H.
  destruct (e1 ?= e2) eqn:E.
  - apply Z.compare_eq in E. right. split; [assumption|].
    destruct (Pos.compare_cont Eq m1 m2) eqn:E'; try discriminate.
    + apply Pos.compare_eq in E'. subst m2. lia.
    + apply Pos2Z.pos_lt_pos in E'. lia.
  - left. apply Z.compare_lt_iff in E. exact E.
  - discriminate.
Qed.

(** A normal double has a 53-digit mantissa. *)
Lemma bounded_normal (m : positive) (e : Z) :
  bounded prec emax m e = true -> -1074 < e -> 2 ^ 52 <= Z.pos m.
Proof.
  intros Hb He. apply bounded_inv in Hb. destruct Hb as [Hc _].
  pose proof (digits2_pos_lower m) as Hl.
  unfold fexp, SpecFloat.emin, prec, emax in Hc.
  replace (Z.pos (digits2_pos m)) with 53 in Hl by lia. exact Hl.
Qed.

(** The integer part of a double of exponent at least -52, from its
    value in units of [2^-52]. *)
Lemma SFtrunc_scaled (m : positive) (e : Z) :
  -52 <= e ->
  Double.SFtrunc (S754_finite false m e) =
  Some (Z.pos m * 2 ^ (e + 52) / 2 ^ 52).
Proof.
  intros He. cbn [Double.SFtrunc cond_Zopp]. f_equal.
  destruct (Z.leb_spec 0 e) as [H0|H0].
  - rewrite Z.pow_add_r, Z.mul_assoc, Z.div_mul by lia. reflexivity.
  - replace 52 with ((e + 52) + - e) at 2 by lia.
    rewrite (Z.pow_add_r 2 (e + 52) (- e)) by lia.
    rewrite (Z.mul_comm (Z.pos m)), Z.div_mul_cancel_l;
      [reflexivity| |]; apply Z.pow_nonzero; lia.
Qed.

(** A double [x] with [1 <= x <= (double) n], for [n <= 2^53], converts
    to an integer in [[1, n]]. *)
Lemma to_int64_between (n : Z) (x : float) :
  1 <= n <= 2 ^ 53 ->
  (1 <=? x)%float = true -> (x <=? Double.of_int64 n)%float = true ->
  exists k, Double.to_int64 x = Some k /\ 1 <= k <= n.
Proof.
  intros Hn H1 H2.
  destruct (of_int64_exact n Hn) as (mN & eN & HN & HeN & HvN).
  pose proof (Prim2SF_valid (Double.of_int64 n)) as HvalN.
  rewrite HN in HvalN. cbn [SpecFloat.valid_binary] in HvalN.
  rewrite leb_spec, Prim2SF_one in H1. rewrite leb_spec, HN in H2.
  pose proof (Prim2SF_valid x) as Hv.
  unfold Double.to_int64.
  destruct (Prim2SF x) as [s|s| |s m e]; try discriminate.
  - destruct s; discriminate.
  - destruct s; [discriminate|].
    cbn [SpecFloat.valid_binary] in Hv.
    apply SFleb_finite_inv in H1, H2.
    assert (He : -52 <= e) by lia.
    assert (Hm : 2 ^ 52 <= Z.pos m).
    { destruct H1 as [H1|[_ H1]]; [|exact H1].
      apply (bounded_normal m e Hv). lia. }
    pose proof (bounded_mantissa m e Hv) as Hm'.
    rewrite (SFtrunc_scaled m e He).
    assert (H52 : 0 < 2 ^ 52) by lia.
    assert (Hlo : 1 * 2 ^ 52 <= Z.pos m * 2 ^ (e + 52)).
    { assert (0 < 2 ^ (e + 52)) by (apply Z.pow_pos_nonneg; lia). nia. }
    assert (Hhi : Z.pos m * 2 ^ (e + 52) <= n * 2 ^ 52).
    { rewrite <- HvN. destruct H2 as [H2|[-> H2]].
      - pose proof (bounded_normal mN eN HvalN ltac:(lia)) as HmN.
        assert (Ep : 2 ^ (eN + 52) = 2 * 2 ^ (e + 52) * 2 ^ (eN - e - 1)).
        { replace (eN + 52) with (1 + (e + 52) + (eN - e - 1)) by lia.
          rewrite (Z.pow_add_r 2 (1 + (e + 52))) by lia.
          rewrite (Z.pow_add_r 2 1) by lia. reflexivity. }
        rewrite Ep.
        assert (0 < 2 ^ (e + 52)) by (apply Z.pow_pos_nonneg; lia).
        assert (0 < 2 ^ (eN - e - 1)) by (apply Z.pow_pos_nonneg; lia).
        change (2 ^ 53) with (2 * 2 ^ 52) in Hm'.
        set (X := 2 ^ (e + 52)) in *. set (Y := 2 ^ (eN - e - 1)) in *.
        set (C := 2 ^ 52) in *.
        apply Z.le_trans with (2 * C * X); [nia|].
        apply Z.le_trans with (Z.pos mN * (2 * X)); [nia|].
        replace (Z.pos mN * (2 * X * Y)) with (Z.pos mN * (2 * X) * Y) by ring.
        nia.
      - apply Z.mul_le_mono_nonneg_r; [|assumption].
        apply Z.pow_nonneg. lia. }
    apply (Z.div_le_mono _ _ (2 ^ 52) H52) in Hlo, Hhi.
    rewrite Z.div_mul in Hlo, Hhi by lia.
    set (k := Z.pos m * 2 ^ (e + 52) / 2 ^ 52) in *.
    exists k. split; [|lia].
    rewrite in_rangeb_true; [reflexivity|].
    unfold Int64.in_range, Int64.min_signed, Int64.max_signed.
    change (2 ^ 53) with 9007199254740992 in Hn.
    change (2 ^ 63) with 9223372036854775808. lia.
Qed.

(** The rank the Zipfian sampler breaks its loop on, shifted into the
    range: for a width of at most [2^53] and a rank of at least 1 the
    result lies in the range. *)
Lemma getZipfianRand_in_range
  (P : Platform) (st : RandomState) (min max : Z) (s : float)
  (k fuel : nat) :
  Int64.in_range min -> Int64.in_range max ->
  min <= max -> max - min + 1 <= 2 ^ 53 ->
  zipfian_first_accept P st (max - min + 1) s k ->
  (1 <=? zipfian_candidate P s (after_draws P (2 * k) st))%float = true ->
  (k < fuel)%nat ->
  exists v st',
    getZipfianRand P fuel st min max s = Returns v st' /\ min <= v <= max.
Proof.
  intros Hmin Hmax Hle Hw Hk H1 Hf.
  assert (Hn : Int64.add (Int64.sub max min) 1 = max - min + 1).
  { rewrite Int64Facts.width_eq. apply Int64Facts.wrap_small.
    unfold Int64.in_range, Int64.min_signed, Int64.max_signed in *.
    change (2 ^ 53) with 9007199254740992 in Hw.
    change (2 ^ 63) with 9223372036854775808 in *. lia. }
  destruct (Z.leb_spec (max - min + 1) 1) as [Hd|Hd].
  - exists min, st. split; [|lia].
    apply getZipfianRand_degenerate; [assumption|]. rewrite Hn. exact Hd.
  - pose proof (zipfian_loop_first_accept P _ s k st fuel Hk Hf) as Hl.
    pose proof (zipfian_loop_bound P _ _ _ _ _ _ Hl) as H2.
    destruct (to_int64_between (max - min + 1) _ ltac:(lia) H1 H2)
      as (r & Hr & Hb).
    exists (min - 1 + r), (after_draws P (2 * k + 2) st). split; [|lia].
    unfold getZipfianRand, computeIterativeZipfian. rewrite Hn.
    apply Z.leb_gt in Hd. rewrite Hd, Hl, Hr.
    rewrite Int64Facts.rank_shift_eq, Int64Facts.wrap_small; [reflexivity|].
    unfold Int64.in_range in *. lia.
Qed.

(** ** The Zipfian bound test compares with [(double) n]

    [n = 2^54 - 1] converts to [2^54]; with [s = 1.5] and the draw
    [u = 2^-27] the candidate is exactly [2^54] and passes [x <= n]. *)

Section ZipfianOvershoot.

Variable P : Platform.
Variables st st1 st2 : RandomState.
Hypothesis Hu : pg_erand48 P st = (0x1p-27%float, st1).
Hypothesis Hv : pg_erand48 P st1 = (0x1.bb399b400016p-1%float, st2).
Hypothesis Hb : pow P 2 0.5 = 0x1.6a09e667f3bcdp+0%float.
Hypothesis Hx : pow P 0x1p-27 (-2) = 0x1p+54%float.
Hypothesis Ht : pow P 1 0.5 = 1%float.

Lemma zipfian_loop_overshoot (fuel : nat) :
  zipfian_loop P (S fuel) st (2 ^ 54 - 1) 1.5 (pow P 2 (1.5 - 1)) =
  Some (0x1p+54%float, st2).
Proof.
  cbn [zipfian_loop]. rewrite Hu, Hv.
  unfold zipfian_x, zipfian_accept. cbn.
  rewrite Hx.
  replace (Double.floor 0x1p+54) with 0x1p+54%float
    by (vm_compute; reflexivity).
  cbn. rewrite Ht, Hb.
  replace (Double.of_int64 18014398509481983) with 0x1p+54%float
    by (vm_compute; reflexivity).
  reflexivity.
Qed.

Lemma computeIterativeZipfian_overshoot (fuel : nat) :
  computeIterativeZipfian P (S fuel) st (2 ^ 54 - 1) 1.5 =
  Returns (2 ^ 54) st2.
Proof.
  unfold computeIterativeZipfian.
  change (2 ^ 54 - 1 <=? 1) with false. cbv iota.
  rewrite zipfian_loop_overshoot. reflexivity.
Qed.

End ZipfianOvershoot.

(** Through the entry point: [random_zipfian] on the range
    [[1, 2^54 - 1]] with the valid shape 1.5 and the seed
    240511640545961, whose first draw is [2^-27], returns [2^54], that
    is [max + 1]. *)
Lemma random_zipfian_overshoot
  (P : Platform) (fuel : nat) (g st1 st2 : RandomState) :
  pg_erand48 P (seed_words 240511640545961) = (0x1p-27%float, st1) ->
  pg_erand48 P st1 = (0x1.bb399b400016p-1%float, st2) ->
  pow P 2 0.5 = 0x1.6a09e667f3bcdp+0%float ->
  pow P 0x1p-27 (-2) = 0x1p+54%float ->
  pow P 1 0.5 = 1%float ->
  1 <= 2 ^ 54 - 1 <= Int64.max_signed /\
  (MIN_ZIPFIAN_PARAM <=? 1.5)%float && (1.5 <=? MAX_ZIPFIAN_PARAM)%float
  = true /\
  random_zipfian P (S fuel) (Some 240511640545961) g 1 (2 ^ 54 - 1) 1.5 =
    Returns (2 ^ 54 - 1 + 1) st2.
Proof.
  intros Hu Hv Hb Hx Ht.
  split; [unfold Int64.max_signed; lia|]. split; [reflexivity|].
  unfold random_zipfian.
  change ((1.5 <? MIN_ZIPFIAN_PARAM)%float
          || (MAX_ZIPFIAN_PARAM <? 1.5)%float) with false.
  cbn [initRandomState]. unfold getZipfianRand.
  change (Int64.add (Int64.sub (2 ^ 54 - 1) 1) 1) with (2 ^ 54 - 1).
  rewrite (computeIterativeZipfian_overshoot P _ st1 st2 Hu Hv Hb Hx Ht fuel).
  reflexivity.
Qed.

(** ** A reversed range whose width wraps

    For [min = INT64_MAX] and [max = INT64_MIN] the width
    [max - min + 1] wraps to 2 and the Zipfian loop runs; with [s = 2.0]
    and the draws [u = 0.5], [v = 0.5 + 11 * 2^-48] it breaks on the
    rank 2 and [min - 1 + 2] wraps to [INT64_MIN]. *)
Lemma getZipfianRand_wrapped_width
  (P : Platform) (fuel : nat) (st st1 st2 : RandomState) :
  pg_erand48 P st = (0.5%float, st1) ->
  pg_erand48 P st1 = (0x1.000000000016p-1%float, st2) ->
  pow P 2 1 = 2%float ->
  pow P 0.5 (-1) = 2%float ->
  pow P 1.5 1 = 1.5%float ->
  getZipfianRand P (S fuel) st Int64.max_signed Int64.min_signed 2 =
  Returns Int64.min_signed st2.
Proof.
  intros Hu Hv Hb Hx Ht.
  assert (Hl : zipfian_loop P (S fuel) st 2 2 (pow P 2 (2 - 1)) =
               Some (2%float, st2)).
  { cbn [zipfian_loop]. rewrite Hu, Hv.
    unfold zipfian_x, zipfian_accept. cbn.
    rewrite Hx.
    replace (Double.floor 2) with 2%float by (vm_compute; reflexivity).
    cbn. rewrite Ht, Hb.
    replace (Double.of_int64 2) with 2%float by (vm_compute; reflexivity).
    reflexivity. }
  unfold getZipfianRand, computeIterativeZipfian.
  replace (Int64.add (Int64.sub Int64.min_signed Int64.max_signed) 1)
    with 2 by (vm_compute; reflexivity).
  change (2 <=? 1) with false. cbv iota. rewrite Hl.
  replace (Double.to_int64 2) with (Some 2) by (vm_compute; reflexivity).
  f_equal.
Qed.

(** ** A zero parameter of the exponential sampler *)

(** [exp(-0) = 1] makes [1 - cut] vanish and [log(1) = 0] leaves
    [rand = -0 / 0]: NaN, whatever the draw. *)
Lemma exponential_rand_zero_parameter (P : Platform) (u : float) :
  exp P (- 0) = 1%float -> log P 1 = 0%float ->
  is_finite (1 - u) = true ->
  exponential_rand P 0 u = nan.
Proof.
  intros He Hl Hf. unfold exponential_rand. rewrite He.
  change (1 - 1)%float with 0%float.
  assert (E : (1 + 0 * (1 - u))%float = 1%float).
  { apply Prim2SF_inj. rewrite add_spec, mul_spec, Prim2SF_zero.
    destruct (is_finite_inv _ Hf) as [[s E]|(s & m & e & E)]; rewrite E;
      destruct s; vm_compute; reflexivity. }
  rewrite E, Hl. reflexivity.
Qed.

(** * The claims *)

(** C8: seeding takes the entropy value [iseed] and stores the three
    16-bit words made of its bits 0-15, 16-31 and 32-47 (read as one
    number, [iseed mod 2^48]).  Without entropy [initRandomState] raises
    its error, of kind [SeedingFailed]: no state is produced,
    [base_random_sequence] stays as it was (there is no fallback seed),
    and each entry point ends in an error without a value. *)
Theorem seeding_splits_low_bits_or_fails (g : RandomState) :
  (forall iseed : Z,
      exists w0 w1 w2 : Z,
        initRandomState (Some iseed) g = inr (mkRandomState (w0, w1, w2)) /\
        (forall i, Z.testbit w0 i =
                   (0 <=? i) && (i <? 16) && Z.testbit iseed i) /\
        (forall i, Z.testbit w1 i =
                   (0 <=? i) && (i <? 16) && Z.testbit iseed (i + 16)) /\
        (forall i, Z.testbit w2 i =
                   (0 <=? i) && (i <? 16) && Z.testbit iseed (i + 32)) /\
        w0 + w1 * 2 ^ 16 + w2 * 2 ^ 32 = iseed mod 2 ^ 48) /\
  initRandomState None g = inl (could_not_generate_random_seed, g) /\
  kind_of could_not_generate_random_seed = SeedingFailed /\
  (forall (P : Platform) (fuel : nat) (lb ub : Z) (param : float),
      random_exponential P None g lb ub param =
        Raises could_not_generate_random_seed g /\
      random_gaussian P fuel None g lb ub param =
        Raises could_not_generate_random_seed g /\
      exists e, random_zipfian P fuel None g lb ub param = Raises e g).
Proof.
  split; [|repeat split].
  - intros iseed.
    exists (iseed mod 2 ^ 16), ((iseed / 2 ^ 16) mod 2 ^ 16),
           ((iseed / 2 ^ 32) mod 2 ^ 16).
    split; [cbn [initRandomState]; rewrite seed_words_eq; reflexivity|].
    split.
    { intros i. pose proof (seed_word_bits iseed i 0 ltac:(lia)) as H.
      rewrite Z.pow_0_r, Z.div_1_r, Z.add_0_r in H. exact H. }
    split; [intros i; apply seed_word_bits; lia|].
    split; [intros i; apply seed_word_bits; lia|].
    pose proof (seed_words_value iseed) as H.
    rewrite seed_words_eq in H. exact H.
  - unfold random_zipfian.
    destruct ((param <? MIN_ZIPFIAN_PARAM)%float
              || (MAX_ZIPFIAN_PARAM <? param)%float);
      eexists; reflexivity.
Qed.

(** What a returning call leaves in the state: the state it started
    from, advanced by two draws per iteration of its loop. *)
Lemma getGaussianRand_state
  (P : Platform) (fuel : nat) (st st' : RandomState)
  (min max v : Z) (parameter : float) :
  getGaussianRand P fuel st min max parameter = Returns v st' ->
  exists k, st' = after_draws P (2 * k + 2) st.
Proof.
  unfold getGaussianRand.
  destruct (gaussian_loop P fuel st parameter) as [[stdev s2]|] eqn:E;
    [|discriminate].
  destruct (scale_to_range min max (gaussian_rand parameter stdev));
    [|discriminate].
  intros H. injection H as _ <-.
  apply gaussian_loop_sound in E. destruct E as (k & _ & _ & _ & Hst).
  exists k. exact Hst.
Qed.

Lemma getZipfianRand_state
  (P : Platform) (fuel : nat) (st st' : RandomState)
  (min max v : Z) (s : float) :
  getZipfianRand P fuel st min max s = Returns v st' ->
  st' = st \/ exists k, st' = after_draws P (2 * k + 2) st.
Proof.
  unfold getZipfianRand, computeIterativeZipfian.
  destruct (Int64.add (Int64.sub max min) 1 <=? 1).
  - intros H. injection H as _ <-. left. reflexivity.
  - destruct (zipfian_loop P fuel st _ s _) as [[x s2]|] eqn:E;
      [|discriminate].
    destruct (Double.to_int64 x); [|discriminate].
    intros H. injection H as _ <-. right.
    apply zipfian_loop_sound in E. destruct E as (k & _ & _ & _ & Hst).
    exists k. exact Hst.
Qed.

(** C9, as amended: an entry point replaces the one shared
    [base_random_sequence] by the words of fresh entropy and samples
    from that, unless it raises.  With entropy [iseed],
    [random_exponential] and [random_gaussian] are their sampler run on
    [seed_words iseed], and so is [random_zipfian] when its parameter
    passes the check: what such a call does and the state it leaves do
    not depend on the state [g] a previous call left, and the state a
    returning call leaves is the seeded one advanced by the draws of the
    call (one for [random_exponential], two per iteration of the loops).
    A call raises in two cases only: [random_zipfian] with a parameter
    below 1.001 or above 1000.0, before it seeds and whatever the
    entropy, and any entry point when no entropy is to be had.  A call
    that raises leaves [base_random_sequence] as it found it. *)
Theorem entry_points_reseed_unless_they_raise
  (P : Platform) (fuel : nat) (g : RandomState)
  (lb ub : Z) (param : float) :
  (forall iseed : Z,
      random_exponential P (Some iseed) g lb ub param =
        getExponentialRand P (seed_words iseed) lb ub param /\
      random_gaussian P fuel (Some iseed) g lb ub param =
        getGaussianRand P fuel (seed_words iseed) lb ub param /\
      ((param <? MIN_ZIPFIAN_PARAM)%float
       || (MAX_ZIPFIAN_PARAM <? param)%float = false ->
       random_zipfian P fuel (Some iseed) g lb ub param =
         getZipfianRand P fuel (seed_words iseed) lb ub param)) /\
  (forall (iseed : Z) (g' : RandomState),
      random_exponential P (Some iseed) g lb ub param =
        random_exponential P (Some iseed) g' lb ub param /\
      random_gaussian P fuel (Some iseed) g lb ub param =
        random_gaussian P fuel (Some iseed) g' lb ub param /\
      ((param <? MIN_ZIPFIAN_PARAM)%float
       || (MAX_ZIPFIAN_PARAM <? param)%float = false ->
       random_zipfian P fuel (Some iseed) g lb ub param =
         random_zipfian P fuel (Some iseed) g' lb ub param) /\
      returned (random_zipfian P fuel (Some iseed) g lb ub param) =
        returned (random_zipfian P fuel (Some iseed) g' lb ub param)) /\
  (forall iseed : Z,
      (state_after (random_exponential P (Some iseed) g lb ub param) =
         Some (after_draws P 1 (seed_words iseed)) \/
       random_exponential P (Some iseed) g lb ub param = Undefined) /\
      (forall (v : Z) (g1 : RandomState),
          random_gaussian P fuel (Some iseed) g lb ub param = Returns v g1 ->
          exists k, g1 = after_draws P (2 * k + 2) (seed_words iseed)) /\
      (forall (v : Z) (g1 : RandomState),
          random_zipfian P fuel (Some iseed) g lb ub param = Returns v g1 ->
          g1 = seed_words iseed \/
          exists k, g1 = after_draws P (2 * k + 2) (seed_words iseed))) /\
  (forall entropy : option Z,
      (param <? MIN_ZIPFIAN_PARAM)%float
      || (MAX_ZIPFIAN_PARAM <? param)%float = true ->
      random_zipfian P fuel entropy g lb ub param =
        Raises zipfian_parameter_must_be_in_range g) /\
  (random_exponential P None g lb ub param =
     Raises could_not_generate_random_seed g /\
   random_gaussian P fuel None g lb ub param =
     Raises could_not_generate_random_seed g /\
   ((param <? MIN_ZIPFIAN_PARAM)%float
    || (MAX_ZIPFIAN_PARAM <? param)%float = false ->
    random_zipfian P fuel None g lb ub param =
      Raises could_not_generate_random_seed g)) /\
  (forall (entropy : option Z) (e : pg_error) (g1 : RandomState),
      (random_exponential P entropy g lb ub param = Raises e g1 ->
       entropy = None /\ e = could_not_generate_random_seed /\ g1 = g) /\
      (random_gaussian P fuel entropy g lb ub param = Raises e g1 ->
       entropy = None /\ e = could_not_generate_random_seed /\ g1 = g) /\
      (random_zipfian P fuel entropy g lb ub param = Raises e g1 ->
       g1 = g /\
       (e = zipfian_parameter_must_be_in_range /\
        (param <? MIN_ZIPFIAN_PARAM)%float
        || (MAX_ZIPFIAN_PARAM <? param)%float = true \/
        e = could_not_generate_random_seed /\ entropy = None /\
        (param <? MIN_ZIPFIAN_PARAM)%float
        || (MAX_ZIPFIAN_PARAM <? param)%float = false))).
Proof.
  split; [|split; [|split; [|split; [|split]]]].
  - intros iseed. repeat split.
    intros H. unfold random_zipfian. rewrite H. reflexivity.
  - intros iseed g'. repeat split.
    + intros H. unfold random_zipfian. rewrite H. reflexivity.
    + unfold random_zipfian.
      destruct ((param <? MIN_ZIPFIAN_PARAM)%float
                || (MAX_ZIPFIAN_PARAM <? param)%float);
        reflexivity.
  - intros iseed. split; [|split].
    + cbn [random_exponential initRandomState after_draws].
      unfold getExponentialRand.
      destruct (pg_erand48 P (seed_words iseed)) as [u st'].
      destruct (scale_to_range lb ub (exponential_rand P param u));
        [left|right]; reflexivity.
    + intros v g1. cbn [random_gaussian initRandomState].
      apply getGaussianRand_state.
    + intros v g1. unfold random_zipfian.
      destruct ((param <? MIN_ZIPFIAN_PARAM)%float
                || (MAX_ZIPFIAN_PARAM <? param)%float); [discriminate|].
      cbn [initRandomState]. apply getZipfianRand_state.
  - intros entropy H. unfold random_zipfian. rewrite H. reflexivity.
  - repeat split.
    intros H. unfold random_zipfian. rewrite H. reflexivity.
  - intros entropy e g1. split; [|split].
    + destruct entropy as [iseed|];
        cbn [random_exponential initRandomState]; intros H.
      * unfold getExponentialRand in H.
        destruct (pg_erand48 P (seed_words iseed)) as [u st'].
        destruct (scale_to_range lb ub (exponential_rand P param u));
          discriminate H.
      * injection H as <- <-. repeat split.
    + destruct entropy as [iseed|];
        cbn [random_gaussian initRandomState]; intros H.
      * pose proof (getGaussianRand_raises P fuel (seed_words iseed)
                      lb ub param) as R.
        rewrite H in R. cbn [raised] in R. discriminate R.
      * injection H as <- <-. repeat split.
    + unfold random_zipfian.
      destruct ((param <? MIN_ZIPFIAN_PARAM)%float
                || (MAX_ZIPFIAN_PARAM <? param)%float).
      * intros H. injection H as <- <-.
        split; [reflexivity|left; split; reflexivity].
      * destruct entropy as [iseed|]; cbn [initRandomState]; intros H.
        -- pose proof (getZipfianRand_raises P fuel (seed_words iseed)
                         lb ub param) as R.
           rewrite H in R. cbn [raised] in R. discriminate R.
        -- injection H as <- <-.
           split; [reflexivity|right; repeat split].
Qed.

Lemma entry_points_reseed_unless_they_raise_witness :
  (random_zipfian Sample.platform 1 (Some 247785492720297)
     (mkRandomState (7, 7, 7)) 1 10 2 =
   getZipfianRand Sample.platform 1 (seed_words 247785492720297) 1 10 2 /\
   random_zipfian Sample.platform 1 (Some 247785492720297)
     (mkRandomState (7, 7, 7)) 1 10 2 =
   random_zipfian Sample.platform 1 (Some 247785492720297)
     (mkRandomState (1, 2, 3)) 1 10 2 /\
   random_zipfian Sample.platform 1 None (mkRandomState (7, 7, 7)) 1 10 2 =
   Raises could_not_generate_random_seed (mkRandomState (7, 7, 7))) /\
  random_zipfian Sample.platform 1 (Some 247785492720297)
    (mkRandomState (7, 7, 7)) 1 10 0.5 =
  Raises zipfian_parameter_must_be_in_range (mkRandomState (7, 7, 7)).
Proof.
  split.
  - destruct (entry_points_reseed_unless_they_raise Sample.platform 1
                (mkRandomState (7, 7, 7)) 1 10 2)
      as (Hs & Hg & _ & _ & Hn & _).
    split; [|split].
    + apply (Hs 247785492720297). reflexivity.
    + apply (Hg 247785492720297 (mkRandomState (1, 2, 3))). reflexivity.
    + apply Hn. reflexivity.
  - destruct (entry_points_reseed_unless_they_raise Sample.platform 1
                (mkRandomState (7, 7, 7)) 1 10 0.5)
      as (_ & _ & _ & Hr & _).
    apply (Hr (Some 247785492720297)). reflexivity.
Defined.

(** C9 as stated fails for [random_zipfian] with the parameter 0.5,
    which is below 1.001: the check raises before [initRandomState] is
    reached, although entropy is at hand, and [base_random_sequence]
    still holds the words (7, 7, 7) the previous call left, not the
    words (42, 0, 0) of the entropy 42.  It also fails for every entry
    point when no entropy is to be had: [initRandomState] raises and
    the state is not overwritten. *)
Lemma rejected_call_does_not_reseed :
  (0.5 <? MIN_ZIPFIAN_PARAM)%float = true /\
  random_zipfian Sample.platform 1 (Some 42) (mkRandomState (7, 7, 7))
    1 10 0.5 =
  Raises zipfian_parameter_must_be_in_range (mkRandomState (7, 7, 7)) /\
  seed_words 42 = mkRandomState (42, 0, 0) /\
  random_exponential Sample.platform None (mkRandomState (7, 7, 7)) 1 10 1 =
  Raises could_not_generate_random_seed (mkRandomState (7, 7, 7)) /\
  random_gaussian Sample.platform 1 None (mkRandomState (7, 7, 7)) 1 10 2 =
  Raises could_not_generate_random_seed (mkRandomState (7, 7, 7)).
Proof. repeat split. Qed.

(** C10, as amended: for [min > max] whose width [max - min + 1] does
    not wrap (it is at least [INT64_MIN]), a shape [s] in
    [[1.001, 1000.0]] and entropy at hand, [random_zipfian] returns
    [min] and raises nothing; the state it leaves is the seeded one, no
    draw was made, whatever the fuel. *)
Theorem zipfian_reversed_range_returns_min
  (P : Platform) (fuel : nat) (iseed : Z) (g : RandomState)
  (min max : Z) (s : float) :
  Int64.in_range min -> Int64.in_range max ->
  max < min ->
  Int64.min_signed <= max - min + 1 ->
  (MIN_ZIPFIAN_PARAM <=? s)%float = true ->
  (s <=? MAX_ZIPFIAN_PARAM)%float = true ->
  random_zipfian P fuel (Some iseed) g min max s =
  Returns min (seed_words iseed).
Proof.
  intros Hmin Hmax Hlt Hw H1 H2. unfold random_zipfian.
  rewrite zipfian_param_check_passes by assumption.
  cbn [initRandomState].
  apply getZipfianRand_degenerate; [assumption|].
  rewrite Int64Facts.width_eq, Int64Facts.wrap_small.
  - lia.
  - unfold Int64.in_range, Int64.max_signed in *. lia.
Qed.

Lemma zipfian_reversed_range_returns_min_witness :
  random_zipfian Sample.platform 0 (Some 0) (mkRandomState (7, 7, 7)) 5 3 2 =
  Returns 5 (seed_words 0).
Proof.
  apply (zipfian_reversed_range_returns_min Sample.platform 0 0
           (mkRandomState (7, 7, 7)) 5 3 2);
    try (unfold Int64.in_range, Int64.min_signed, Int64.max_signed; lia);
    reflexivity.
Defined.

(** C10 as stated fails at [min = INT64_MAX], [max = INT64_MIN],
    [s = 2.0]: the width wraps to [n = 2], the rejection loop runs (two
    draws are made) and the call returns [INT64_MIN], which is [max]
    and not [min].  It also fails when no entropy is to be had: the
    call on [min = 5 > max = 3] then raises the seeding error. *)
Lemma zipfian_reversed_range_wraps :
  Int64.max_signed > Int64.min_signed /\
  Int64.add (Int64.sub Int64.min_signed Int64.max_signed) 1 = 2 /\
  random_zipfian Sample.platform 1 (Some 247785492720297)
    (mkRandomState (0, 0, 0)) Int64.max_signed Int64.min_signed 2 =
  Returns Int64.min_signed (mkRandomState (11, 0, 32768)) /\
  random_zipfian Sample.platform 1 None (mkRandomState (0, 0, 0)) 5 3 2 =
  Raises could_not_generate_random_seed (mkRandomState (0, 0, 0)).
Proof. repeat split; vm_compute; reflexivity. Qed.

(** C2, as amended: for [min > max] no operation fails with
    [InvalidRange], the range is not checked anywhere.
    [random_exponential] and [random_gaussian] raise nothing but
    [SeedingFailed], [random_zipfian] nothing but [SeedingFailed] or
    [InvalidParameter]; with entropy at hand the first two run their
    sampler on the seeded state, and [random_exponential] then leaves the
    state one uniform draw later (or ends in an undefined conversion). *)
Theorem reversed_range_is_not_rejected
  (P : Platform) (fuel : nat) (g : RandomState)
  (min max : Z) (param : float) :
  max < min ->
  (forall entropy : option Z,
     (raised (random_exponential P entropy g min max param) = None \/
      raised (random_exponential P entropy g min max param)
      = Some SeedingFailed) /\
     (raised (random_gaussian P fuel entropy g min max param) = None \/
      raised (random_gaussian P fuel entropy g min max param)
      = Some SeedingFailed) /\
     (raised (random_zipfian P fuel entropy g min max param) = None \/
      raised (random_zipfian P fuel entropy g min max param)
      = Some SeedingFailed \/
      raised (random_zipfian P fuel entropy g min max param)
      = Some InvalidParameter)) /\
  (forall iseed : Z,
     random_exponential P (Some iseed) g min max param =
       getExponentialRand P (seed_words iseed) min max param /\
     random_gaussian P fuel (Some iseed) g min max param =
       getGaussianRand P fuel (seed_words iseed) min max param /\
     (state_after (random_exponential P (Some iseed) g min max param) =
        Some (after_draws P 1 (seed_words iseed)) \/
      random_exponential P (Some iseed) g min max param = Undefined)).
Proof.
  intros _. split.
  - intros entropy. split; [apply random_exponential_raises|].
    split; [apply random_gaussian_raises|apply random_zipfian_raises].
  - intros iseed. repeat split.
    cbn [random_exponential initRandomState after_draws].
    unfold getExponentialRand.
    destruct (pg_erand48 P (seed_words iseed)) as [u st'].
    destruct (scale_to_range min max (exponential_rand P param u));
      [left|right]; reflexivity.
Qed.

Lemma reversed_range_is_not_rejected_witness :
  (forall entropy : option Z,
     (raised (random_exponential Sample.platform entropy
                (mkRandomState (7, 7, 7)) 5 3 2) = None \/
      raised (random_exponential Sample.platform entropy
                (mkRandomState (7, 7, 7)) 5 3 2) = Some SeedingFailed) /\
     (raised (random_gaussian Sample.platform 1 entropy
                (mkRandomState (7, 7, 7)) 5 3 2) = None \/
      raised (random_gaussian Sample.platform 1 entropy
                (mkRandomState (7, 7, 7)) 5 3 2) = Some SeedingFailed) /\
     (raised (random_zipfian Sample.platform 1 entropy
                (mkRandomState (7, 7, 7)) 5 3 2) = None \/
      raised (random_zipfian Sample.platform 1 entropy
                (mkRandomState (7, 7, 7)) 5 3 2) = Some SeedingFailed \/
      raised (random_zipfian Sample.platform 1 entropy
                (mkRandomState (7, 7, 7)) 5 3 2) = Some InvalidParameter)) /\
  (forall iseed : Z,
     random_exponential Sample.platform (Some iseed)
       (mkRandomState (7, 7, 7)) 5 3 2 =
       getExponentialRand Sample.platform (seed_words iseed) 5 3 2 /\
     random_gaussian Sample.platform 1 (Some iseed)
       (mkRandomState (7, 7, 7)) 5 3 2 =
       getGaussianRand Sample.platform 1 (seed_words iseed) 5 3 2 /\
     (state_after (random_exponential Sample.platform (Some iseed)
                     (mkRandomState (7, 7, 7)) 5 3 2) =
        Some (after_draws Sample.platform 1 (seed_words iseed)) \/
      random_exponential Sample.platform (Some iseed)
        (mkRandomState (7, 7, 7)) 5 3 2 = Undefined)).
Proof.
  apply (reversed_range_is_not_rejected Sample.platform 1
           (mkRandomState (7, 7, 7)) 5 3 2).
  lia.
Defined.

(** C2 as stated fails: [random_zipfian] on [min = 5 > max = 3]
    returns 5, and [random_exponential] on [min = 10 > max = 1] returns
    10 after consuming a draw (the state it leaves is no longer the
    seeded one); neither raises an error. *)
Lemma reversed_range_is_sampled :
  3 < 5 /\
  random_zipfian Sample.platform 0 (Some 0) (mkRandomState (7, 7, 7)) 5 3 2 =
    Returns 5 (mkRandomState (0, 0, 0)) /\
  1 < 10 /\
  seed_words 107048004364969 = mkRandomState (10921, 3654, 24924) /\
  random_exponential Sample.platform (Some 107048004364969)
    (mkRandomState (7, 7, 7)) 10 1 0x1.2p-50 =
    Returns 10 (mkRandomState (0, 0, 0)).
Proof. repeat split; vm_compute; reflexivity. Qed.

(** C3: [random_zipfian] accepts the shape at both edges of its domain
    (1.001 and 1000.0 raise no [InvalidParameter]) and rejects the
    doubles next to them on the outside, before seeding and sampling
    (the state is untouched, also when no entropy is to be had).
    [random_gaussian] has no such check: it never raises
    [InvalidParameter], and with the shape 1.0, below the edge 2.0, it
    samples and returns 6 for the range [[1, 10]]. *)
Theorem gaussian_parameter_is_not_checked :
  (forall (P : Platform) (fuel : nat) (entropy : option Z) (g : RandomState)
          (lb ub : Z) (param : float),
      raised (random_gaussian P fuel entropy g lb ub param) = None \/
      raised (random_gaussian P fuel entropy g lb ub param)
      = Some SeedingFailed) /\
  (1 <? 2)%float = true /\
  random_gaussian Sample.platform 1 (Some 107048004364969)
    (mkRandomState (7, 7, 7)) 1 10 1 =
    Returns 6 (mkRandomState (11, 0, 0)) /\
  (forall (P : Platform) (fuel : nat) (entropy : option Z) (g : RandomState)
          (lb ub : Z),
      (raised (random_zipfian P fuel entropy g lb ub MIN_ZIPFIAN_PARAM)
       = None \/
       raised (random_zipfian P fuel entropy g lb ub MIN_ZIPFIAN_PARAM)
       = Some SeedingFailed) /\
      (raised (random_zipfian P fuel entropy g lb ub MAX_ZIPFIAN_PARAM)
       = None \/
       raised (random_zipfian P fuel entropy g lb ub MAX_ZIPFIAN_PARAM)
       = Some SeedingFailed) /\
      random_zipfian P fuel entropy g lb ub (next_down MIN_ZIPFIAN_PARAM) =
        Raises zipfian_parameter_must_be_in_range g /\
      random_zipfian P fuel entropy g lb ub (next_up MAX_ZIPFIAN_PARAM) =
        Raises zipfian_parameter_must_be_in_range g).
Proof.
  split; [intros; apply random_gaussian_raises|].
  split; [reflexivity|].
  split; [vm_compute; reflexivity|].
  intros P fuel entropy g lb ub.
  split; [apply random_zipfian_checked; reflexivity|].
  split; [apply random_zipfian_checked; reflexivity|].
  split; reflexivity.
Qed.

(** C4: the Zipfian loop tests the candidate against [(double) n], not
    against [n].  For [n = 2^54 - 1] and [s = 1.5], when the first draw
    is [u = 2^-27] the candidate is [x = floor(u^-2) = 2^54];
    [(double) n] is [2^54] as well, the loop breaks on [x], and the rank
    returned is [n + 1].  (The three values of [pow] are the exact
    ones: [sqrt 2] rounded, [2^54] and [1].) *)
Theorem zipfian_rank_can_exceed_n
  (P : Platform) (fuel : nat) (st st1 st2 : RandomState) :
  pg_erand48 P st = (0x1p-27%float, st1) ->
  pg_erand48 P st1 = (0x1.bb399b400016p-1%float, st2) ->
  pow P 2 0.5 = 0x1.6a09e667f3bcdp+0%float ->
  pow P 0x1p-27 (-2) = 0x1p+54%float ->
  pow P 1 0.5 = 1%float ->
  Double.of_int64 (2 ^ 54 - 1) = 0x1p+54%float /\
  zipfian_x P 1.5 0x1p-27 = 0x1p+54%float /\
  zipfian_breaks P (2 ^ 54 - 1) 1.5 st = true /\
  computeIterativeZipfian P (S fuel) st (2 ^ 54 - 1) 1.5 =
    Returns (2 ^ 54 - 1 + 1) st2.
Proof.
  intros Hu Hv Hb Hx Ht.
  pose proof (computeIterativeZipfian_overshoot
                P st st1 st2 Hu Hv Hb Hx Ht fuel) as Hc.
  pose proof (zipfian_loop_overshoot P st st1 st2 Hu Hv Hb Hx Ht 0) as Hl.
  split; [vm_compute; reflexivity|].
  split.
  - unfold zipfian_x. cbn. rewrite Hx. vm_compute. reflexivity.
  - split; [|exact Hc].
    rewrite zipfian_loop_step in Hl.
    destruct (zipfian_breaks P (2 ^ 54 - 1) 1.5 st);
      [reflexivity|discriminate].
Qed.

Lemma zipfian_rank_can_exceed_n_witness :
  Double.of_int64 (2 ^ 54 - 1) = 0x1p+54%float /\
  zipfian_x Sample.platform 1.5 0x1p-27 = 0x1p+54%float /\
  zipfian_breaks Sample.platform (2 ^ 54 - 1) 1.5
    (seed_words 240511640545961) = true /\
  computeIterativeZipfian Sample.platform 1 (seed_words 240511640545961)
    (2 ^ 54 - 1) 1.5 =
    Returns (2 ^ 54 - 1 + 1) (mkRandomState (11, 52640, 56732)).
Proof.
  apply (zipfian_rank_can_exceed_n Sample.platform 0
           (seed_words 240511640545961) (mkRandomState (0, 32, 0))
           (mkRandomState (11, 52640, 56732)));
    vm_compute; reflexivity.
Defined.

(** C1, as amended: for [min <= max] whose width [max - min + 1] does
    not wrap (it is at most [INT64_MAX]), the exponential sampler
    returns a value in [[min, max]], one draw later, whenever its
    [rand] lies in [[0, 1)]; the Gaussian sampler does so once an
    iteration leaves the loop, given the fuel to reach it, whenever the
    [rand] of that iteration lies in [[0, 1)]; the Zipfian sampler does
    so once an iteration breaks the loop, whenever the width is at most
    [2^53] and the rank of that iteration is at least 1. *)
Theorem samples_stay_in_range (P : Platform) (min max : Z) :
  Int64.in_range min -> Int64.in_range max ->
  min <= max -> max - min + 1 <= Int64.max_signed ->
  (forall (st : RandomState) (parameter : float),
      (0 <=? exponential_rand P parameter (fst (pg_erand48 P st)))%float
      = true ->
      (exponential_rand P parameter (fst (pg_erand48 P st)) <? 1)%float
      = true ->
      exists v,
        getExponentialRand P st min max parameter =
        Returns v (after_draws P 1 st) /\ min <= v <= max) /\
  (forall (st : RandomState) (parameter : float) (k fuel : nat),
      gaussian_first_accept P st parameter k ->
      (0 <=? gaussian_rand parameter
               (gaussian_candidate P (after_draws P (2 * k) st)))%float
      = true ->
      (gaussian_rand parameter
         (gaussian_candidate P (after_draws P (2 * k) st)) <? 1)%float
      = true ->
      (k < fuel)%nat ->
      exists v,
        getGaussianRand P fuel st min max parameter =
        Returns v (after_draws P (2 * k + 2) st) /\ min <= v <= max) /\
  (forall (st : RandomState) (s : float) (k fuel : nat),
      max - min + 1 <= 2 ^ 53 ->
      zipfian_first_accept P st (max - min + 1) s k ->
      (1 <=? zipfian_candidate P s (after_draws P (2 * k) st))%float = true ->
      (k < fuel)%nat ->
      exists v st',
        getZipfianRand P fuel st min max s = Returns v st' /\
        min <= v <= max).
Proof.
  intros Hmin Hmax Hle Hw. split; [|split].
  - intros st parameter H0 H1. unfold getExponentialRand.
    cbn [after_draws].
    destruct (pg_erand48 P st) as [u st']. cbn [fst snd] in *.
    destruct (scale_to_range_in_range min max _ Hmin Hmax Hle Hw H0 H1)
      as (v & Hv & Hb).
    exists v. rewrite Hv. split; [reflexivity|exact Hb].
  - intros st parameter k fuel Hk H0 H1 Hf. unfold getGaussianRand.
    rewrite (gaussian_loop_first_accept P parameter k st fuel Hk Hf).
    destruct (scale_to_range_in_range min max _ Hmin Hmax Hle Hw H0 H1)
      as (v & Hv & Hb).
    exists v. rewrite Hv. split; [reflexivity|exact Hb].
  - intros st s k fuel Hw' Hk H1 Hf.
    apply (getZipfianRand_in_range P st min max s k fuel); assumption.
Qed.

Lemma samples_stay_in_range_witness :
  (exists v,
      getExponentialRand Sample.platform (seed_words 107048004364969) 1 10
        0x1.2p-50 =
      Returns v (after_draws Sample.platform 1 (seed_words 107048004364969)) /\
      1 <= v <= 10) /\
  (exists v,
      getGaussianRand Sample.platform 1 (seed_words 107048004364969) 1 10 2 =
      Returns v
        (after_draws Sample.platform (2 * 0 + 2)
           (seed_words 107048004364969)) /\
      1 <= v <= 10) /\
  (exists v st',
      getZipfianRand Sample.platform 1 (seed_words 247785492720297) 1 10 2 =
      Returns v st' /\ 1 <= v <= 10).
Proof.
  destruct (samples_stay_in_range Sample.platform 1 10) as (He & Hg & Hz).
  - unfold Int64.in_range, Int64.min_signed, Int64.max_signed. lia.
  - unfold Int64.in_range, Int64.min_signed, Int64.max_signed. lia.
  - lia.
  - unfold Int64.max_signed. lia.
  - split; [|split].
    + apply (He (seed_words 107048004364969) 0x1.2p-50%float);
        vm_compute; reflexivity.
    + apply (Hg (seed_words 107048004364969) 2%float 0%nat 1%nat).
      * split; [vm_compute; reflexivity|]. intros j Hj. lia.
      * vm_compute. reflexivity.
      * vm_compute. reflexivity.
      * lia.
    + apply (Hz (seed_words 247785492720297) 2%float 0%nat 1%nat).
      * lia.
      * split; [vm_compute; reflexivity|]. intros j Hj. lia.
      * vm_compute. reflexivity.
      * lia.
Defined.

(** C1 as stated fails on the range [[0, INT64_MAX]]: the width wraps
    to [INT64_MIN] and [random_gaussian], with the valid shape 2.0,
    returns [-2^62], below [min].  It also fails, without any wrap, on
    [[1, 2^54 - 1]]: [random_zipfian] with the valid shape 1.5 returns
    [2^54], above [max]. *)
Lemma wide_range_sample_leaves_range :
  0 <= Int64.max_signed /\
  (2 <=? 2)%float = true /\
  Int64.add (Int64.sub Int64.max_signed 0) 1 = Int64.min_signed /\
  random_gaussian Sample.platform 1 (Some 107048004364969)
    (mkRandomState (7, 7, 7)) 0 Int64.max_signed 2 =
  Returns (- 2 ^ 62) (mkRandomState (11, 0, 0)) /\
  - 2 ^ 62 < 0 /\
  1 <= 2 ^ 54 - 1 <= Int64.max_signed /\
  (MIN_ZIPFIAN_PARAM <=? 1.5)%float && (1.5 <=? MAX_ZIPFIAN_PARAM)%float
  = true /\
  random_zipfian Sample.platform 1 (Some 240511640545961)
    (mkRandomState (7, 7, 7)) 1 (2 ^ 54 - 1) 1.5 =
  Returns (2 ^ 54 - 1 + 1) (mkRandomState (11, 52640, 56732)).
Proof. repeat split; vm_compute; try reflexivity; discriminate. Qed.

(** C6: [rand] of the exponential sampler can exceed 1.  For
    [parameter = 9 * 2^-53 > 0], [cut = exp(-parameter)] rounds to
    [1 - 9 * 2^-53]; with the draw [u = 1 - 2^-8] the sum
    [cut + (1 - cut) * uniform] rounds back to [cut], whose logarithm
    rounds to [-(9 * 2^-53 + 3 * 2^-102)], and [rand] is
    [1 + 3 * 2^-52].  On the range [[1, 10]] the sampler then returns
    11.  (It makes one draw and has no loop.) *)
Theorem exponential_rand_can_reach_one
  (P : Platform) (st st' : RandomState) :
  exp P (-0x1.2p-50) = 0x1.ffffffffffff7p-1%float ->
  log P 0x1.ffffffffffff7p-1 = (-0x1.2000000000003p-50)%float ->
  pg_erand48 P st = (0x1.fep-1%float, st') ->
  (0 <? 0x1.2p-50)%float = true /\
  exponential_rand P 0x1.2p-50 0x1.fep-1 = 0x1.0000000000003p+0%float /\
  (1 <? exponential_rand P 0x1.2p-50 0x1.fep-1)%float = true /\
  getExponentialRand P st 1 10 0x1.2p-50 = Returns 11 st'.
Proof.
  intros He Hl Hu.
  assert (Hr : exponential_rand P 0x1.2p-50 0x1.fep-1 =
               0x1.0000000000003p+0%float).
  { unfold exponential_rand. cbn. rewrite He. cbn. rewrite Hl. reflexivity. }
  split; [reflexivity|]. split; [exact Hr|]. split.
  - rewrite Hr. reflexivity.
  - unfold getExponentialRand. rewrite Hu, Hr. vm_compute. reflexivity.
Qed.

Lemma exponential_rand_can_reach_one_witness :
  (0 <? 0x1.2p-50)%float = true /\
  exponential_rand Sample.platform 0x1.2p-50 0x1.fep-1 =
    0x1.0000000000003p+0%float /\
  (1 <? exponential_rand Sample.platform 0x1.2p-50 0x1.fep-1)%float = true /\
  getExponentialRand Sample.platform (seed_words 277472306670249) 1 10
    0x1.2p-50 = Returns 11 (mkRandomState (0, 0, 65280)).
Proof.
  apply (exponential_rand_can_reach_one Sample.platform
           (seed_words 277472306670249) (mkRandomState (0, 0, 65280)));
    vm_compute; reflexivity.
Defined.

(** With [parameter = +infinity], which passes [parameter >= 2.0], the
    loop leaves on its first iteration with any finite [stdev]; [rand]
    is NaN and its conversion to [int64] is undefined. *)
Lemma gaussian_infinite_parameter
  (P : Platform) (fuel : nat) (st : RandomState) (min max : Z) :
  is_finite (gaussian_candidate P st) = true ->
  gaussian_loop P (S fuel) st infinity =
    Some (gaussian_candidate P st, after_draws P 2 st) /\
  gaussian_rand infinity (gaussian_candidate P st) = nan /\
  getGaussianRand P (S fuel) st min max infinity = Undefined.
Proof.
  intros Hf.
  assert (Hl : gaussian_loop P (S fuel) st infinity =
               Some (gaussian_candidate P st, after_draws P 2 st)).
  { rewrite gaussian_loop_step, gaussian_retry_infinity by assumption.
    reflexivity. }
  split; [exact Hl|].
  split; [apply gaussian_rand_infinity; assumption|].
  unfold getGaussianRand. rewrite Hl.
  rewrite gaussian_rand_infinity by assumption.
  rewrite scale_to_range_nan. reflexivity.
Qed.

(** C5: the value the Gaussian sampler normalises to can be 1.  In
    double arithmetic the sum [stdev + parameter] rounds up to
    [2 * parameter] when [stdev] is the double just below [parameter]
    (for a [parameter] with an even mantissa): [stdev = pred 2.0] is
    accepted for [parameter = 2.0] and normalised to exactly 1.  The
    loop gets there: with the draws [u1], [u2] of the seed 9721 and the
    correctly rounded [log] and [sin], the first [stdev] is
    [0x1.0252286b505bdp+1]; for [parameter = 0x1.0252286b505bep+1], the
    next double (about 2.018, above the edge 2.0), it is accepted after
    two draws, [rand] is 1 and the sampler returns 11 on the range
    [[1, 10]]. *)
Theorem gaussian_rand_can_reach_one
  (P : Platform) (fuel : nat) (st st1 st2 : RandomState) :
  pg_erand48 P st = (0x1.bddc2373c22p-1%float, st1) ->
  pg_erand48 P st1 = (0x1.7a43ce3267b6p-1%float, st2) ->
  log P 0x1.088f7230f78p-3 = (-0x1.05f556bd576fap+1)%float ->
  sin P 0x1.a4242d61324a6p+0 = 0x1.febb81547ea4dp-1%float ->
  (gaussian_retry 2 (next_down 2) = false /\
   gaussian_rand 2 (next_down 2) = 1%float) /\
  (2 <=? 0x1.0252286b505bep+1)%float = true /\
  gaussian_candidate P st = 0x1.0252286b505bdp+1%float /\
  gaussian_retry 0x1.0252286b505bep+1 0x1.0252286b505bdp+1 = false /\
  gaussian_rand 0x1.0252286b505bep+1 0x1.0252286b505bdp+1 = 1%float /\
  getGaussianRand P (S fuel) st 1 10 0x1.0252286b505bep+1 = Returns 11 st2.
Proof.
  intros Hu1 Hu2 Hl Hs.
  assert (Hc : gaussian_candidate P st = 0x1.0252286b505bdp+1%float).
  { unfold gaussian_candidate, box_muller. rewrite Hu1, Hu2. cbn.
    rewrite Hl, Hs. reflexivity. }
  split; [split; vm_compute; reflexivity|].
  split; [reflexivity|]. split; [exact Hc|].
  split; [reflexivity|]. split; [reflexivity|].
  unfold getGaussianRand. rewrite gaussian_loop_step, Hc.
  change (gaussian_retry 0x1.0252286b505bep+1 0x1.0252286b505bdp+1)
    with false.
  cbv iota. cbn [after_draws]. rewrite Hu1. cbn [snd]. rewrite Hu2.
  vm_compute. reflexivity.
Qed.

Lemma gaussian_rand_can_reach_one_witness :
  (gaussian_retry 2 (next_down 2) = false /\
   gaussian_rand 2 (next_down 2) = 1%float) /\
  (2 <=? 0x1.0252286b505bep+1)%float = true /\
  gaussian_candidate Sample.platform (seed_words 9721) =
    0x1.0252286b505bdp+1%float /\
  gaussian_retry 0x1.0252286b505bep+1 0x1.0252286b505bdp+1 = false /\
  gaussian_rand 0x1.0252286b505bep+1 0x1.0252286b505bdp+1 = 1%float /\
  getGaussianRand Sample.platform 1 (seed_words 9721) 1 10
    0x1.0252286b505bep+1 = Returns 11 (mkRandomState (13275, 59161, 48417)).
Proof.
  apply (gaussian_rand_can_reach_one Sample.platform 0
           (seed_words 9721) (mkRandomState (57616, 4537, 57070))
           (mkRandomState (13275, 59161, 48417)));
    vm_compute; reflexivity.
Defined.

(** C7, as amended: on a one-value range [[m, m]] the Zipfian sampler
    returns [m] for every [s], at once: the state is untouched and no
    fuel is needed.  The exponential sampler returns [m], one draw
    later, whenever its [rand] lies strictly between -1 and 1 (so
    whenever it lies in [[0, 1)]); the Gaussian sampler returns [m] once
    an iteration leaves the loop, given the fuel to reach it, whenever
    the [rand] of that iteration lies strictly between -1 and 1. *)
Theorem single_value_range (P : Platform) (st : RandomState) (m : Z) :
  Int64.in_range m ->
  (forall (fuel : nat) (s : float),
      getZipfianRand P fuel st m m s = Returns m st) /\
  (forall parameter : float,
      (-1 <? exponential_rand P parameter (fst (pg_erand48 P st)))%float
      = true ->
      (exponential_rand P parameter (fst (pg_erand48 P st)) <? 1)%float
      = true ->
      getExponentialRand P st m m parameter =
      Returns m (after_draws P 1 st)) /\
  (forall (parameter : float) (k fuel : nat),
      gaussian_first_accept P st parameter k ->
      (-1 <? gaussian_rand parameter
               (gaussian_candidate P (after_draws P (2 * k) st)))%float
      = true ->
      (gaussian_rand parameter
         (gaussian_candidate P (after_draws P (2 * k) st)) <? 1)%float
      = true ->
      (k < fuel)%nat ->
      getGaussianRand P fuel st m m parameter =
      Returns m (after_draws P (2 * k + 2) st)).
Proof.
  intros Hm. split; [|split].
  - intros fuel s. apply getZipfianRand_degenerate; [assumption|].
    rewrite Int64Facts.width_eq. replace (m - m + 1) with 1 by ring.
    vm_compute. discriminate.
  - intros parameter He0 He1. unfold getExponentialRand. cbn [after_draws].
    destruct (pg_erand48 P st) as [u st']. cbn [fst snd] in *.
    rewrite (scale_to_range_single m _ Hm He0 He1). reflexivity.
  - intros parameter k fuel Hk Hg0 Hg1 Hf. unfold getGaussianRand.
    rewrite (gaussian_loop_first_accept P parameter k st fuel Hk Hf).
    rewrite (scale_to_range_single m _ Hm Hg0 Hg1). reflexivity.
Qed.

Lemma single_value_range_witness :
  (forall (fuel : nat) (s : float),
      getZipfianRand Sample.platform fuel (seed_words 107048004364969) 5 5 s =
      Returns 5 (seed_words 107048004364969)) /\
  getExponentialRand Sample.platform (seed_words 107048004364969) 5 5
    0x1.2p-50 =
    Returns 5 (mkRandomState (0, 0, 0)) /\
  getGaussianRand Sample.platform 1 (seed_words 107048004364969) 5 5 2 =
    Returns 5 (mkRandomState (11, 0, 0)).
Proof.
  destruct (single_value_range Sample.platform (seed_words 107048004364969) 5)
    as (Hz & He & Hg).
  - unfold Int64.in_range, Int64.min_signed, Int64.max_signed. lia.
  - split; [exact Hz|]. split.
    + apply (He 0x1.2p-50%float); vm_compute; reflexivity.
    + apply (Hg 2%float 0%nat 1%nat).
      * split; [vm_compute; reflexivity|]. intros j Hj. lia.
      * vm_compute. reflexivity.
      * vm_compute. reflexivity.
      * lia.
Defined.

(** C7 as stated fails for the exponential sampler on the range
    [[5, 5]]: with the parameter 0 its [rand] is NaN, whose conversion
    to [int64] is undefined, and with the parameter [9 * 2^-53] and the
    draw [1 - 2^-8] its [rand] exceeds 1 and the sampler returns 6. *)
Lemma single_value_range_needs_rand_in_range :
  exponential_rand Sample.platform 0
    (fst (pg_erand48 Sample.platform (seed_words 0))) = nan /\
  getExponentialRand Sample.platform (seed_words 0) 5 5 0 = Undefined /\
  getExponentialRand Sample.platform (seed_words 277472306670249) 5 5
    0x1.2p-50 = Returns 6 (mkRandomState (0, 0, 65280)).
Proof. repeat split; vm_compute; reflexivity. Qed.

(** * Further properties of the code *)

(** ** Doubles: signs *)

(** The sign handed to the rounding only labels its result. *)
Lemma binary_round_aux_opp (s : bool) (m e : Z) (l : location) :
  binary_round_aux prec emax (negb s) m e l =
  SFopp (binary_round_aux prec emax s m e l).
Proof.
  unfold binary_round_aux.
  destruct (shr_fexp prec emax m e l) as [mrs' e'].
  destruct (shr_fexp prec emax _ e' loc_Exact) as [mrs'' e''].
  destruct (shr_m mrs''); try reflexivity.
  destruct (e'' <=? emax - prec); reflexivity.
Qed.

Lemma SFmul_opp_l (x y : spec_float) :
  SF64mul (SFopp x) y = SFopp (SF64mul x y).
Proof.
  destruct x as [sx|sx| |sx mx ex], y as [sy|sy| |sy my ey];
    try reflexivity; cbn [SFopp SF64mul SFmul];
    try (destruct sx, sy; reflexivity).
  replace (xorb (negb sx) sy) with (negb (xorb sx sy))
    by (destruct sx, sy; reflexivity).
  apply binary_round_aux_opp.
Qed.

Lemma SFtrunc_opp (x : spec_float) :
  Double.SFtrunc (SFopp x) = option_map Z.opp (Double.SFtrunc x).
Proof.
  destruct x as [s|s| |s m e]; try reflexivity.
  cbn [SFopp Double.SFtrunc option_map]. f_equal.
  destruct s; cbn [negb cond_Zopp]; lia.
Qed.

(** The conversion of an integer below [2^63] is a double as it
    stands, with no further normalisation. *)
Lemma binary_normalize_valid (n : Z) :
  0 <= n < 2 ^ 63 ->
  valid_binary (binary_normalize prec emax n 0 false) = true.
Proof.
  intros Hn.
  replace n with (Uint63Axioms.to_Z (Uint63.of_Z n)).
  - rewrite <- of_uint63_spec. apply Prim2SF_valid.
  - rewrite Uint63.of_Z_spec. apply Z.mod_small. exact Hn.
Qed.

Lemma valid_binary_opp (x : spec_float) :
  valid_binary (SFopp x) = valid_binary x.
Proof. destruct x; reflexivity. Qed.

(** [(double) (-n)] is [-(double) n]. *)
Lemma of_int64_opp (n : Z) :
  0 < n < 2 ^ 63 ->
  Prim2SF (Double.of_int64 (- n)) = SFopp (Prim2SF (Double.of_int64 n)).
Proof.
  intros Hn. unfold Double.of_int64.
  pose proof (binary_normalize_valid n ltac:(lia)) as Hv.
  rewrite (Prim2SF_SF2Prim _ Hv).
  assert (E : binary_normalize prec emax (- n) 0 false =
              SFopp (binary_normalize prec emax n 0 false)).
  { destruct n as [|p|p]; try lia.
    cbn [Z.opp binary_normalize]. unfold binary_round.
    destruct (shl_align p 0 _) as [mz ez].
    apply (binary_round_aux_opp false). }
  rewrite E. apply Prim2SF_SF2Prim.
  rewrite valid_binary_opp. exact Hv.
Qed.

(** ** The range mapper on a width that is not positive *)

Lemma to_int64_opp (x : float) (t : Z) :
  Double.to_int64 x = Some t -> 0 <= t ->
  Double.to_int64 (- x) = Some (- t).
Proof.
  unfold Double.to_int64. rewrite opp_spec, SFtrunc_opp.
  destruct (Double.SFtrunc (Prim2SF x)) as [z|]; [|discriminate].
  destruct (Int64.in_rangeb z) eqn:Ez; [|discriminate].
  intros H Ht. injection H as ->. cbn [option_map].
  rewrite in_rangeb_true; [reflexivity|].
  unfold Int64.in_rangeb in Ez. apply andb_true_iff in Ez.
  destruct Ez as [E1 E2]. apply Z.leb_le in E1, E2.
  unfold Int64.in_range, Int64.min_signed, Int64.max_signed in *. lia.
Qed.

(** For a width [w <= 0] the offset [(int64) (w * rand)] lies in
    [(w, 0]]. *)
Lemma scaled_rand_above (w : Z) (rand : float) :
  - 2 ^ 63 < w <= 0 ->
  (0 <=? rand)%float = true -> (rand <? 1)%float = true ->
  exists t, Double.to_int64 (Double.of_int64 w * rand) = Some t /\
            w <= t <= 0 /\ (w < 0 -> w < t).
Proof.
  intros Hw H0 H1.
  destruct (Z.eq_dec w 0) as [->|Hne].
  - exists 0. split; [|lia].
    change (Double.of_int64 0) with 0%float.
    unfold Double.to_int64. rewrite mul_spec, Prim2SF_zero.
    rewrite leb_spec, Prim2SF_zero in H0.
    rewrite ltb_spec, Prim2SF_one in H1.
    destruct (Prim2SF rand) as [s|s| |s m e]; try discriminate;
      try reflexivity; destruct s; discriminate.
  - assert (Hn : 1 <= - w < 2 ^ 63) by lia.
    assert (Ht : exists t,
               Double.to_int64 (Double.of_int64 (- w) * rand) = Some t /\
               0 <= t < - w).
    { destruct (Z.le_gt_cases (- w) (2 ^ 53)) as [Hs|Hs].
      - apply scaled_rand_below_exact; [lia|assumption|assumption].
      - apply scaled_rand_below_rounded; [lia|assumption|assumption]. }
    destruct Ht as (t & Ht & Hr).
    exists (- t). split; [|lia].
    assert (E : (Double.of_int64 w * rand)%float =
                (- (Double.of_int64 (- w) * rand))%float).
    { apply Prim2SF_inj. rewrite opp_spec, !mul_spec, <- SFmul_opp_l.
      rewrite <- (of_int64_opp (- w)) by lia.
      rewrite Z.opp_involutive. reflexivity. }
    rewrite E. apply to_int64_opp; [exact Ht|lia].
Qed.

(** On a reversed range whose width does not wrap, a [rand] in
    [[0, 1)] is mapped into [(max, min]]. *)
Lemma scale_to_range_reversed (min max : Z) (rand : float) :
  Int64.in_range min -> Int64.in_range max ->
  max < min -> Int64.min_signed < max - min + 1 ->
  (0 <=? rand)%float = true -> (rand <? 1)%float = true ->
  exists v, scale_to_range min max rand = Some v /\ max < v <= min.
Proof.
  intros Hmin Hmax Hlt Hw H0 H1. unfold scale_to_range.
  unfold Int64.min_signed in Hw.
  rewrite Int64Facts.width_eq, Int64Facts.wrap_small
    by (unfold Int64.in_range, Int64.min_signed, Int64.max_signed in *; lia).
  destruct (scaled_rand_above (max - min + 1) rand ltac:(lia) H0 H1)
    as (t & Ht & Hr & Hr').
  rewrite Ht. exists (min + t). split; [|lia].
  unfold Int64.add. rewrite Int64Facts.wrap_small; [reflexivity|].
  unfold Int64.in_range in *. lia.
Qed.

(** X1: on a reversed range, [max < min] with a width that does not
    wrap, the exponential and the Gaussian sampler raise nothing and
    return a value [v] with [max < v <= min], whenever the [rand] they
    compute lies in [[0, 1)]: the width [max - min + 1] is then zero or
    negative, and so is the offset added to [min]. *)
Theorem reversed_range_is_sampled_downwards (P : Platform) (min max : Z) :
  Int64.in_range min -> Int64.in_range max ->
  max < min -> Int64.min_signed < max - min + 1 ->
  (forall (st : RandomState) (parameter : float),
      (0 <=? exponential_rand P parameter (fst (pg_erand48 P st)))%float
      = true ->
      (exponential_rand P parameter (fst (pg_erand48 P st)) <? 1)%float
      = true ->
      exists v,
        getExponentialRand P st min max parameter =
        Returns v (after_draws P 1 st) /\ max < v <= min) /\
  (forall (st : RandomState) (parameter : float) (k fuel : nat),
      gaussian_first_accept P st parameter k ->
      (0 <=? gaussian_rand parameter
               (gaussian_candidate P (after_draws P (2 * k) st)))%float
      = true ->
      (gaussian_rand parameter
         (gaussian_candidate P (after_draws P (2 * k) st)) <? 1)%float
      = true ->
      (k < fuel)%nat ->
      exists v,
        getGaussianRand P fuel st min max parameter =
        Returns v (after_draws P (2 * k + 2) st) /\ max < v <= min).
Proof.
  intros Hmin Hmax Hlt Hw. split.
  - intros st parameter H0 H1. unfold getExponentialRand.
    cbn [after_draws].
    destruct (pg_erand48 P st) as [u st']. cbn [fst snd] in *.
    destruct (scale_to_range_reversed min max _ Hmin Hmax Hlt Hw H0 H1)
      as (v & Hv & Hb).
    exists v. rewrite Hv. split; [reflexivity|exact Hb].
  - intros st parameter k fuel Hk H0 H1 Hf. unfold getGaussianRand.
    rewrite (gaussian_loop_first_accept P parameter k st fuel Hk Hf).
    destruct (scale_to_range_reversed min max _ Hmin Hmax Hlt Hw H0 H1)
      as (v & Hv & Hb).
    exists v. rewrite Hv. split; [reflexivity|exact Hb].
Qed.

Lemma reversed_range_is_sampled_downwards_witness :
  (exists v,
      getExponentialRand Sample.platform (seed_words 107048004364969) 10 1
        0x1.2p-50 =
      Returns v (after_draws Sample.platform 1 (seed_words 107048004364969)) /\
      1 < v <= 10) /\
  (exists v,
      getGaussianRand Sample.platform 1 (seed_words 107048004364969) 10 1 2 =
      Returns v
        (after_draws Sample.platform (2 * 0 + 2)
           (seed_words 107048004364969)) /\
      1 < v <= 10).
Proof.
  destruct (reversed_range_is_sampled_downwards Sample.platform 10 1)
    as (He & Hg).
  - unfold Int64.in_range, Int64.min_signed, Int64.max_signed. lia.
  - unfold Int64.in_range, Int64.min_signed, Int64.max_signed. lia.
  - lia.
  - unfold Int64.min_signed. lia.
  - split.
    + apply (He (seed_words 107048004364969) 0x1.2p-50%float);
        vm_compute; reflexivity.
    + apply (Hg (seed_words 107048004364969) 2%float 0%nat 1%nat).
      * split; [vm_compute; reflexivity|]. intros j Hj. lia.
      * vm_compute. reflexivity.
      * vm_compute. reflexivity.
      * lia.
Defined.

(** ** Parameters the samplers do not reject *)

Lemma SFcompare_refl (x : spec_float) :
  x <> S754_nan -> SFcompare x x = Some Eq.
Proof.
  destruct x as [s|s| |s m e]; intros H; try congruence;
    try (destruct s; reflexivity).
  cbn [SFcompare]. rewrite Z.compare_refl.
  change (Pos.compare_cont Eq m m) with (Pos.compare m m).
  rewrite Pos.compare_refl. destruct s; reflexivity.
Qed.

Lemma is_nan_true (x : float) : is_nan x = true -> x = nan.
Proof.
  unfold is_nan. rewrite FloatAxioms.eqb_spec. intros H.
  apply Prim2SF_inj. change (Prim2SF nan) with S754_nan.
  destruct (Prim2SF x) as [s|s| |s m e] eqn:E; try reflexivity;
    unfold SFeqb in H; rewrite SFcompare_refl in H by discriminate;
    discriminate.
Qed.

Lemma eqb_zero_inv (x : float) :
  (x =? 0)%float = true -> exists s, Prim2SF x = S754_zero s.
Proof.
  rewrite FloatAxioms.eqb_spec, Prim2SF_zero. unfold SFeqb.
  destruct (Prim2SF x) as [s|s| |s m e]; try discriminate.
  - intros _. exists s. reflexivity.
  - destruct s; discriminate.
  - destruct s; discriminate.
Qed.

(** An infinity and NaN have no integer part, and neither has their
    product with any double. *)
Lemma to_int64_not_finite (x : float) :
  Double.SFtrunc (Prim2SF x) = None -> Double.to_int64 x = None.
Proof. unfold Double.to_int64. intros ->. reflexivity. Qed.

Lemma mul_not_finite (a x : float) :
  Double.SFtrunc (Prim2SF x) = None ->
  Double.SFtrunc (Prim2SF (a * x)) = None.
Proof.
  rewrite mul_spec.
  destruct (Prim2SF a), (Prim2SF x); try discriminate; reflexivity.
Qed.

Lemma scale_to_range_not_finite (min max : Z) (rand : float) :
  Double.SFtrunc (Prim2SF rand) = None -> scale_to_range min max rand = None.
Proof.
  intros H. unfold scale_to_range.
  rewrite (to_int64_not_finite _ (mul_not_finite _ _ H)). reflexivity.
Qed.

(** A quotient by zero or by NaN is an infinity or NaN. *)
Lemma div_by_zero_nan (a p : float) :
  (p =? 0)%float = true \/ is_nan p = true ->
  Double.SFtrunc (Prim2SF (a / p)) = None.
Proof.
  rewrite div_spec. intros [H|H].
  - destruct (eqb_zero_inv p H) as [s E]. rewrite E.
    destruct (Prim2SF a); reflexivity.
  - rewrite (is_nan_true p H). change (Prim2SF nan) with S754_nan.
    destruct (Prim2SF a); reflexivity.
Qed.

(** X2: the exponential sampler divides by its parameter: for a
    parameter that is zero (of either sign) or NaN its [rand] is an
    infinity or NaN, whatever [exp] and [log] return and whatever the
    draw, and the conversion of the scaled value to [int64] is
    undefined.  Neither the sampler nor [random_exponential] rejects
    such a parameter. *)
Theorem exponential_zero_parameter_is_undefined
  (P : Platform) (st : RandomState) (min max : Z) (parameter : float) :
  (parameter =? 0)%float = true \/ is_nan parameter = true ->
  getExponentialRand P st min max parameter = Undefined /\
  forall (iseed : Z) (g : RandomState),
    random_exponential P (Some iseed) g min max parameter = Undefined.
Proof.
  intros H.
  assert (E : forall st', getExponentialRand P st' min max parameter
                          = Undefined).
  { intros st'. unfold getExponentialRand.
    destruct (pg_erand48 P st') as [u st''].
    unfold exponential_rand.
    rewrite scale_to_range_not_finite; [reflexivity|].
    apply div_by_zero_nan. exact H. }
  split; [apply E|]. intros iseed g. apply E.
Qed.

Lemma exponential_zero_parameter_is_undefined_witness :
  getExponentialRand Sample.platform (seed_words 0) 1 10 (-0) = Undefined /\
  forall (iseed : Z) (g : RandomState),
    random_exponential Sample.platform (Some iseed) g 1 10 (-0) = Undefined.
Proof.
  apply (exponential_zero_parameter_is_undefined Sample.platform
           (seed_words 0) 1 10 (-0)%float).
  left. reflexivity.
Defined.

(** Every comparison with NaN is false. *)
Lemma gaussian_retry_nan_parameter (stdev : float) :
  gaussian_retry nan stdev = false.
Proof.
  unfold gaussian_retry. rewrite ltb_spec, leb_spec, opp_spec.
  change (Prim2SF nan) with S754_nan.
  destruct (Prim2SF stdev); reflexivity.
Qed.

Lemma gaussian_rand_nan (parameter stdev : float) :
  is_nan parameter = true \/ is_nan stdev = true ->
  gaussian_rand parameter stdev = nan.
Proof.
  intros H. unfold gaussian_rand. apply Prim2SF_inj.
  rewrite div_spec, add_spec, mul_spec.
  change (Prim2SF nan) with S754_nan.
  destruct H as [H|H]; rewrite (is_nan_true _ H);
    change (Prim2SF nan) with S754_nan.
  - destruct (Prim2SF stdev); reflexivity.
  - reflexivity.
Qed.

(** With a parameter that is zero or negative, [stdev < -parameter] or
    [stdev >= parameter] holds of every [stdev] but NaN. *)
Lemma gaussian_retry_nonpositive (parameter stdev : float) :
  (parameter <=? 0)%float = true -> is_nan stdev = false ->
  gaussian_retry parameter stdev = true.
Proof.
  intros Hp Hs. apply is_nan_spec in Hs.
  rewrite leb_spec, Prim2SF_zero in Hp.
  unfold gaussian_retry. rewrite ltb_spec, leb_spec, opp_spec.
  destruct (Prim2SF parameter) as [sp|sp| |sp mp ep];
    try discriminate;
    try (destruct sp; try discriminate);
    destruct (Prim2SF stdev) as [ss|ss| |ss ms es];
    try congruence; try (destruct ss); try reflexivity;
    apply orb_true_iff; right; reflexivity.
Qed.

(** With such a parameter the loop is left on a NaN [stdev] only. *)
Lemma gaussian_loop_nonpositive (P : Platform) (parameter : float) :
  (parameter <=? 0)%float = true ->
  forall (fuel : nat) (st st' : RandomState) (stdev : float),
    gaussian_loop P fuel st parameter = Some (stdev, st') ->
    is_nan stdev = true.
Proof.
  intros Hp fuel. induction fuel as [|fuel IH]; intros st st' stdev H;
    [discriminate|].
  rewrite gaussian_loop_step in H.
  destruct (is_nan (gaussian_candidate P st)) eqn:En.
  - destruct (gaussian_retry parameter (gaussian_candidate P st)).
    + apply (IH _ _ _ H).
    + injection H as <- _. exact En.
  - rewrite (gaussian_retry_nonpositive _ _ Hp En) in H.
    apply (IH _ _ _ H).
Qed.

(** X3: [getGaussianRand] does not check its parameter, and for one
    that is not positive it returns no value.  With [parameter <= 0]
    every [stdev] other than NaN is rejected, so the loop runs on as
    long as the Box-Muller values are numbers; with a NaN parameter the
    first [stdev] is accepted.  Whenever the loop is left [rand] is NaN
    and its conversion to [int64] is undefined. *)
Theorem gaussian_nonpositive_parameter_returns_nothing
  (P : Platform) (st : RandomState) (min max : Z) (parameter : float) :
  (0 <? parameter)%float = false ->
  (forall fuel : nat,
      getGaussianRand P fuel st min max parameter = OutOfFuel \/
      getGaussianRand P fuel st min max parameter = Undefined) /\
  ((parameter <=? 0)%float = true ->
   (forall k : nat,
       is_nan (gaussian_candidate P (after_draws P (2 * k) st)) = false) ->
   forall fuel : nat,
     getGaussianRand P fuel st min max parameter = OutOfFuel) /\
  (is_nan parameter = true ->
   forall fuel : nat,
     getGaussianRand P (S fuel) st min max parameter = Undefined).
Proof.
  intros Hp.
  assert (Hcase : (parameter <=? 0)%float = true \/ is_nan parameter = true).
  { rewrite ltb_spec, Prim2SF_zero in Hp. rewrite leb_spec, Prim2SF_zero.
    destruct (Prim2SF parameter) as [s|s| |s m e] eqn:E.
    - left. reflexivity.
    - destruct s; [left; reflexivity|discriminate].
    - right. unfold is_nan. rewrite FloatAxioms.eqb_spec, E. reflexivity.
    - destruct s; [left; reflexivity|discriminate]. }
  assert (Hnan : is_nan parameter = true ->
                 forall fuel, getGaussianRand P (S fuel) st min max parameter
                              = Undefined).
  { intros Hn fuel. unfold getGaussianRand.
    rewrite gaussian_loop_step, (is_nan_true _ Hn),
      gaussian_retry_nan_parameter.
    rewrite gaussian_rand_nan by (left; reflexivity).
    rewrite scale_to_range_nan. reflexivity. }
  split; [|split].
  - intros fuel. destruct Hcase as [Hle|Hn].
    + unfold getGaussianRand.
      destruct (gaussian_loop P fuel st parameter) as [[stdev st']|] eqn:El;
        [right|left; reflexivity].
      rewrite gaussian_rand_nan
        by (right; apply (gaussian_loop_nonpositive P _ Hle _ _ _ _ El)).
      rewrite scale_to_range_nan. reflexivity.
    + destruct fuel as [|fuel]; [left; reflexivity|right].
      apply Hnan. exact Hn.
  - intros Hle Hnum fuel. unfold getGaussianRand.
    destruct (gaussian_loop P fuel st parameter) as [[stdev st']|] eqn:El;
      [|reflexivity].
    pose proof (gaussian_loop_nonpositive P _ Hle _ _ _ _ El) as Hs.
    apply gaussian_loop_sound in El. destruct El as (k & _ & _ & -> & _).
    rewrite Hnum in Hs. discriminate.
  - exact Hnan.
Qed.

Lemma gaussian_nonpositive_parameter_returns_nothing_witness :
  (forall fuel : nat,
      getGaussianRand Sample.platform fuel (seed_words 0) 1 10 0 = OutOfFuel \/
      getGaussianRand Sample.platform fuel (seed_words 0) 1 10 0 = Undefined) /\
  ((0 <=? 0)%float = true ->
   (forall k : nat,
       is_nan (gaussian_candidate Sample.platform
                 (after_draws Sample.platform (2 * k) (seed_words 0)))
       = false) ->
   forall fuel : nat,
     getGaussianRand Sample.platform fuel (seed_words 0) 1 10 0 = OutOfFuel) /\
  (is_nan 0 = true ->
   forall fuel : nat,
     getGaussianRand Sample.platform (S fuel) (seed_words 0) 1 10 0
     = Undefined).
Proof.
  apply (gaussian_nonpositive_parameter_returns_nothing Sample.platform
           (seed_words 0) 1 10 0%float).
  reflexivity.
Defined.

(** For doubles that are numbers, [a < b] fails exactly when [b <= a]. *)
Lemma ltb_false_iff_leb (a b : float) :
  is_nan a = false -> is_nan b = false ->
  (a <? b)%float = false <-> (b <=? a)%float = true.
Proof.
  intros Ha Hb. apply is_nan_spec in Ha, Hb.
  rewrite ltb_spec, leb_spec. unfold SFltb, SFleb.
  rewrite (SFcompare_antisym (Prim2SF a) (Prim2SF b)).
  destruct (SFcompare_defined _ _ Ha Hb) as [c E]. rewrite E.
  destruct c; cbn; intuition congruence.
Qed.

Lemma ltb_nan_l (b : float) : (nan <? b)%float = false.
Proof. rewrite ltb_spec. reflexivity. Qed.

Lemma ltb_nan_r (a : float) : (a <? nan)%float = false.
Proof.
  rewrite ltb_spec. change (Prim2SF nan) with S754_nan.
  unfold SFltb. destruct (Prim2SF a); reflexivity.
Qed.

(** X4: the parameter check of [random_zipfian] comes first and is
    written with two [<]: it raises its error, before seeding and
    whether or not entropy is to be had, exactly for the doubles below
    1.001 or above 1000.0.  The doubles that pass are those of
    [[1.001, 1000.0]] and NaN, of which both comparisons are false: a
    NaN parameter is not rejected, and the sampler runs with it on the
    seeded state. *)
Theorem zipfian_check_lets_nan_through
  (P : Platform) (fuel : nat) (g : RandomState) (lb ub : Z) (param : float) :
  (forall entropy : option Z,
      (param <? MIN_ZIPFIAN_PARAM)%float
      || (MAX_ZIPFIAN_PARAM <? param)%float = true ->
      random_zipfian P fuel entropy g lb ub param =
      Raises zipfian_parameter_must_be_in_range g) /\
  (forall entropy : option Z,
      raised (random_zipfian P fuel entropy g lb ub param)
      = Some InvalidParameter <->
      (param <? MIN_ZIPFIAN_PARAM)%float
      || (MAX_ZIPFIAN_PARAM <? param)%float = true) /\
  ((param <? MIN_ZIPFIAN_PARAM)%float
   || (MAX_ZIPFIAN_PARAM <? param)%float = false <->
   is_nan param = true \/
   ((MIN_ZIPFIAN_PARAM <=? param)%float = true /\
    (param <=? MAX_ZIPFIAN_PARAM)%float = true)) /\
  (forall iseed : Z,
      random_zipfian P fuel (Some iseed) g lb ub nan =
      getZipfianRand P fuel (seed_words iseed) lb ub nan).
Proof.
  split; [|split; [|split]].
  - intros entropy H. unfold random_zipfian. rewrite H. reflexivity.
  - intros entropy. unfold random_zipfian.
    destruct ((param <? MIN_ZIPFIAN_PARAM)%float
              || (MAX_ZIPFIAN_PARAM <? param)%float).
    + split; reflexivity.
    + split; [|discriminate].
      destruct entropy as [iseed|]; cbn [initRandomState raised kind_of];
        [rewrite getZipfianRand_raises|]; discriminate.
  - destruct (is_nan param) eqn:En.
    + rewrite (is_nan_true _ En), ltb_nan_l, ltb_nan_r.
      split; [left; reflexivity|reflexivity].
    + rewrite orb_false_iff.
      rewrite (ltb_false_iff_leb param MIN_ZIPFIAN_PARAM En eq_refl).
      rewrite (ltb_false_iff_leb MAX_ZIPFIAN_PARAM param eq_refl En).
      split; [intros H; right; exact H|].
      intros [H|H]; [discriminate|exact H].
  - intros iseed. reflexivity.
Qed.

(** [(double) n] is a positive number for [1 <= n < 2^63]. *)
Lemma of_int64_positive (n : Z) :
  1 <= n < 2 ^ 63 ->
  exists m e, Prim2SF (Double.of_int64 n) = S754_finite false m e.
Proof.
  intros Hn. destruct (Z.le_gt_cases n (2 ^ 53)) as [Hs|Hs].
  - destruct (of_int64_exact n ltac:(lia)) as (m & e & H & _).
    exists m, e. exact H.
  - destruct (of_int64_rounded n ltac:(lia)) as (m & e & NZ & H & _).
    exists m, e. exact H.
Qed.

(** A candidate that is NaN or [+infinity] fails [x <= n]. *)
Lemma zipfian_accept_not_below_infinity
  (P : Platform) (n : Z) (s b v x : float) :
  1 <= n < 2 ^ 63 ->
  zipfian_accept P n s b v x = true -> (x <? infinity)%float = true.
Proof.
  intros Hn H. unfold zipfian_accept in H.
  apply andb_true_iff in H. destruct H as [_ H].
  destruct (of_int64_positive n Hn) as (m & e & E).
  rewrite leb_spec, E in H. rewrite ltb_spec, Prim2SF_infinity.
  destruct (Prim2SF x) as [sx|sx| |sx mx ex]; try discriminate;
    try reflexivity; destruct sx; try discriminate; reflexivity.
Qed.

(** The integer part of a double [x <= (double) n], for [n <= 2^53], is
    at most [n]. *)
Lemma to_int64_at_most (n k : Z) (x : float) :
  1 <= n <= 2 ^ 53 ->
  (x <=? Double.of_int64 n)%float = true ->
  Double.to_int64 x = Some k -> k <= n.
Proof.
  intros Hn H2 Hk.
  destruct (of_int64_exact n Hn) as (mN & eN & HN & HeN & HvN).
  pose proof (Prim2SF_valid (Double.of_int64 n)) as HvalN.
  rewrite HN in HvalN. cbn [SpecFloat.valid_binary] in HvalN.
  rewrite leb_spec, HN in H2.
  pose proof (Prim2SF_valid x) as Hv.
  unfold Double.to_int64 in Hk.
  destruct (Double.SFtrunc (Prim2SF x)) as [z|] eqn:Ez; [|discriminate].
  destruct (Int64.in_rangeb z); [|discriminate].
  injection Hk as <-.
  destruct (Prim2SF x) as [s|s| |s m e]; try discriminate.
  - injection Ez as <-. lia.
  - cbn [SpecFloat.valid_binary] in Hv.
    pose proof (bounded_mantissa m e Hv) as Hm'.
    destruct s.
    + (* a negative double *)
      assert (Hz : Double.SFtrunc (S754_finite true m e) =
                   Some (- (if 0 <=? e then Z.pos m * 2 ^ e
                            else Z.pos m / 2 ^ (- e)))) by reflexivity.
      rewrite Hz in Ez. injection Ez as <-.
      assert (0 <= (if 0 <=? e then Z.pos m * 2 ^ e
                    else Z.pos m / 2 ^ (- e))).
      { destruct (Z.leb_spec 0 e).
        - apply Z.mul_nonneg_nonneg; [lia|apply Z.pow_nonneg; lia].
        - apply Z.div_pos; [lia|apply Z.pow_pos_nonneg; lia]. }
      set (X := if 0 <=? e then _ else _) in *. lia.
    + apply SFleb_finite_inv in H2.
      destruct (Z.lt_ge_cases e (-52)) as [He|He].
      * rewrite (SFtrunc_small false m e Hm' (or_introl He)) in Ez.
        injection Ez as <-. lia.
      * rewrite (SFtrunc_scaled m e He) in Ez. injection Ez as <-.
        assert (H52 : 0 < 2 ^ 52) by lia.
        assert (Hhi : Z.pos m * 2 ^ (e + 52) <= n * 2 ^ 52).
        { rewrite <- HvN. destruct H2 as [H2|[-> H2]].
          - pose proof (bounded_normal mN eN HvalN ltac:(lia)) as HmN.
            assert (Ep : 2 ^ (eN + 52) =
                         2 * 2 ^ (e + 52) * 2 ^ (eN - e - 1)).
            { replace (eN + 52) with (1 + (e + 52) + (eN - e - 1)) by lia.
              rewrite (Z.pow_add_r 2 (1 + (e + 52))) by lia.
              rewrite (Z.pow_add_r 2 1) by lia. reflexivity. }
            rewrite Ep.
            assert (0 < 2 ^ (e + 52)) by (apply Z.pow_pos_nonneg; lia).
            assert (0 < 2 ^ (eN - e - 1)) by (apply Z.pow_pos_nonneg; lia).
            change (2 ^ 53) with (2 * 2 ^ 52) in Hm'.
            set (X := 2 ^ (e + 52)) in *. set (Y := 2 ^ (eN - e - 1)) in *.
            set (C := 2 ^ 52) in *.
            apply Z.le_trans with (2 * C * X); [nia|].
            apply Z.le_trans with (Z.pos mN * (2 * X)); [nia|].
            replace (Z.pos mN * (2 * X * Y))
              with (Z.pos mN * (2 * X) * Y) by ring.
            nia.
          - apply Z.mul_le_mono_nonneg_r; [|assumption].
            apply Z.pow_nonneg. lia. }
        apply (Z.div_le_mono _ _ (2 ^ 52) H52) in Hhi.
        rewrite Z.div_mul in Hhi by lia. exact Hhi.
Qed.

Section ZipfianNever.

Variable P : Platform.

(** The loop gives up only when the fuel does: with candidates that
    are all NaN or [+infinity] it never breaks. *)
Lemma zipfian_loop_never_breaks (n : Z) (s : float) :
  1 <= n < 2 ^ 63 ->
  forall (fuel : nat) (st : RandomState),
    (forall k : nat,
        (zipfian_candidate P s (after_draws P (2 * k) st) <? infinity)%float
        = false) ->
    zipfian_loop P fuel st n s (pow P 2 (s - 1)) = None.
Proof.
  intros Hn fuel. induction fuel as [|fuel IH]; intros st H; [reflexivity|].
  rewrite zipfian_loop_step.
  destruct (zipfian_breaks P n s st) eqn:E.
  - exfalso. specialize (H 0%nat).
    change (2 * 0)%nat with 0%nat in H. cbn [after_draws] in H.
    unfold zipfian_breaks, zipfian_candidate in *.
    destruct (pg_erand48 P st) as [u s1]. cbn [fst] in H.
    destruct (pg_erand48 P s1) as [v s2].
    apply (zipfian_accept_not_below_infinity P n _ _ _ _ Hn) in E.
    congruence.
  - apply IH. intros k.
    rewrite (after_draws_shift P (2 * k) (2 * S k)) by lia. apply H.
Qed.

End ZipfianNever.

(** X5: what [computeIterativeZipfian] never does, whatever [pow]
    returns.  For [2 <= n <= INT64_MAX] the test [x <= n] fails of a
    candidate that is NaN or [+infinity], so the loop never breaks on
    one, and runs on for as long as the candidates are such values: it
    does so for ever with [s = NaN] when [pow] returns NaN for a NaN
    exponent.  For [n <= 2^53] a rank that is returned is never
    above [n]. *)
Theorem zipfian_rank_never_above_n
  (P : Platform) (st : RandomState) (n : Z) (s : float) :
  2 <= n <= Int64.max_signed ->
  (forall (fuel : nat) (x : float) (st' : RandomState),
      zipfian_loop P fuel st n s (pow P 2 (s - 1)) = Some (x, st') ->
      (x <? infinity)%float = true) /\
  ((forall k : nat,
       (zipfian_candidate P s (after_draws P (2 * k) st) <? infinity)%float
       = false) ->
   forall fuel : nat, computeIterativeZipfian P fuel st n s = OutOfFuel) /\
  ((forall st' : RandomState, pow P (fst (pg_erand48 P st')) nan = nan) ->
   forall fuel : nat, computeIterativeZipfian P fuel st n nan = OutOfFuel) /\
  (n <= 2 ^ 53 ->
   forall (fuel : nat) (k : Z) (st' : RandomState),
     computeIterativeZipfian P fuel st n s = Returns k st' -> k <= n).
Proof.
  intros Hn.
  assert (Hn' : 1 <= n < 2 ^ 63) by (unfold Int64.max_signed in Hn; lia).
  assert (Hgt : (n <=? 1) = false) by (apply Z.leb_gt; lia).
  assert (Hnever : forall s0 : float,
             (forall k : nat,
                 (zipfian_candidate P s0 (after_draws P (2 * k) st)
                  <? infinity)%float = false) ->
             forall fuel : nat,
               computeIterativeZipfian P fuel st n s0 = OutOfFuel).
  { intros s0 H fuel. unfold computeIterativeZipfian. rewrite Hgt.
    rewrite (zipfian_loop_never_breaks P n s0 Hn' fuel st H). reflexivity. }
  split; [|split; [|split]].
  - intros fuel x st' H. apply zipfian_loop_sound in H.
    destruct H as (k & _ & [Ha _] & -> & _).
    unfold zipfian_breaks, zipfian_candidate in *.
    destruct (pg_erand48 P (after_draws P (2 * k) st)) as [u s1]. cbn [fst].
    destruct (pg_erand48 P s1) as [v s2].
    apply (zipfian_accept_not_below_infinity P n _ _ _ _ Hn' Ha).
  - apply Hnever.
  - intros Hpow. apply Hnever. intros k.
    unfold zipfian_candidate, zipfian_x.
    replace (-1 / (nan - 1))%float with nan by reflexivity.
    rewrite Hpow. reflexivity.
  - intros Hs fuel k st' H. unfold computeIterativeZipfian in H.
    rewrite Hgt in H.
    destruct (zipfian_loop P fuel st n s (pow P 2 (s - 1)))
      as [[x s2]|] eqn:El; [|discriminate].
    destruct (Double.to_int64 x) as [r|] eqn:Er; [|discriminate].
    injection H as <- _.
    apply (to_int64_at_most n r x ltac:(lia));
      [apply (zipfian_loop_bound P _ _ _ _ _ _ El)|exact Er].
Qed.

Lemma zipfian_rank_never_above_n_witness :
  (forall (fuel : nat) (x : float) (st' : RandomState),
      zipfian_loop Sample.platform fuel (seed_words 247785492720297) 10 2
        (pow Sample.platform 2 (2 - 1)) = Some (x, st') ->
      (x <? infinity)%float = true) /\
  ((forall k : nat,
       (zipfian_candidate Sample.platform 2
          (after_draws Sample.platform (2 * k) (seed_words 247785492720297))
        <? infinity)%float = false) ->
   forall fuel : nat,
     computeIterativeZipfian Sample.platform fuel
       (seed_words 247785492720297) 10 2 = OutOfFuel) /\
  ((forall st' : RandomState,
       pow Sample.platform (fst (pg_erand48 Sample.platform st')) nan = nan) ->
   forall fuel : nat,
     computeIterativeZipfian Sample.platform fuel
       (seed_words 247785492720297) 10 nan = OutOfFuel) /\
  (10 <= 2 ^ 53 ->
   forall (fuel : nat) (k : Z) (st' : RandomState),
     computeIterativeZipfian Sample.platform fuel
       (seed_words 247785492720297) 10 2 = Returns k st' -> k <= 10).
Proof.
  apply (zipfian_rank_never_above_n Sample.platform
           (seed_words 247785492720297) 10 2%float).
  unfold Int64.max_signed. lia.
Defined.

(** ** The Gaussian normalisation

    [rand = (stdev + parameter) / (parameter * 2.0)] in double
    arithmetic: the sum and the quotient are each rounded once. *)

Lemma Zdigits2_bounds (q : Z) :
  0 <= q -> 0 <= Zdigits2 q /\ q < 2 ^ Zdigits2 q /\
            (0 < q -> 2 ^ (Zdigits2 q - 1) <= q).
Proof.
  intros Hq. destruct q as [|p|p]; try lia.
  - cbn. repeat split; lia.
  - cbn [Zdigits2]. split; [lia|]. split.
    + apply digits2_pos_bound.
    + intros _. apply digits2_pos_lower.
Qed.

Lemma shr_m_of_loc (m : Z) (l : location) : shr_m (shr_record_of_loc m l) = m.
Proof. destruct l as [|[ | | ]]; reflexivity. Qed.

(** The first stage of the rounding, the shift to 53 digits and the
    rounding proper, when the value [q * 2^E] (and what [l] records
    beyond it) is below [TE * 2^E], a multiple of the unit it is
    rounded to. *)
Lemma round_first_stage (q E TE : Z) (l : location) :
  0 <= q -> q < TE ->
  (exists j, TE = j * 2 ^ Z.max (fexp prec emax (Zdigits2 q + E) - E) 0) ->
  exists m1 e1,
    (let '(mrs, e) := shr_fexp prec emax q E l in
     (round_nearest_even (shr_m mrs) (loc_of_shr_record mrs), e)) = (m1, e1) /\
    0 <= m1 <= 2 ^ 53 /\ E <= e1 /\ -1074 <= e1 /\
    m1 * 2 ^ (e1 - E) <= TE /\
    (2 ^ 52 <= m1 \/ e1 <= Z.max E (-1074)).
Proof.
  intros Hq Hlt [j Hj].
  destruct (Zdigits2_bounds q Hq) as (Hd0 & Hdu & Hdl).
  unfold shr_fexp. set (d := Zdigits2 q) in *.
  set (c := fexp prec emax (d + E)) in *.
  assert (Hc : c = Z.max (d + E - 53) (-1074)) by reflexivity.
  clearbody c. unfold shr.
  destruct (c - E) as [|pk|pk] eqn:Ek.
  1, 3: (* no shift: the mantissa has at most 53 digits *)
    replace (Z.max _ 0) with 0 in Hj by lia;
    rewrite Z.pow_0_r, Z.mul_1_r in Hj;
    assert (Hq53 : q < 2 ^ 53)
      by (apply Z.lt_le_trans with (2 ^ d);
          [assumption|apply Z.pow_le_mono_r; lia]);
    eexists _, E; split; [reflexivity|];
    rewrite Z.sub_diag, Z.mul_1_r;
    destruct (round_nearest_even_spec (shr_record_of_loc q l)) as [H|[H _]];
    rewrite H, shr_m_of_loc; repeat split; lia.
  (* a shift by [pk] *)
  replace (Z.max (Z.pos pk) 0) with (Z.pos pk) in Hj by lia.
  assert (Hs : 0 <= shr_m (shr_record_of_loc q l))
    by (rewrite shr_m_of_loc; exact Hq).
  destruct (iter_shr_1_spec pk (shr_record_of_loc q l) Hs) as [Hm _].
  rewrite shr_m_of_loc in Hm.
  set (mrs := iter_pos shr_1 pk _) in *.
  assert (Hp : 0 < 2 ^ Z.pos pk) by (apply Z.pow_pos_nonneg; lia).
  assert (Hq1 : shr_m mrs + 1 <= j).
  { rewrite Hm. subst TE.
    assert (q / 2 ^ Z.pos pk < j); [|lia].
    apply Z.div_lt_upper_bound; lia. }
  assert (Hq0 : 0 <= shr_m mrs) by (rewrite Hm; apply Z.div_pos; lia).
  assert (Hq53 : shr_m mrs < 2 ^ 53).
  { rewrite Hm. apply Z.div_lt_upper_bound; [assumption|].
    rewrite <- Z.pow_add_r by lia.
    apply Z.lt_le_trans with (2 ^ d); [assumption|].
    apply Z.pow_le_mono_r; lia. }
  eexists _, (E + Z.pos pk). split; [reflexivity|].
  replace (E + Z.pos pk - E) with (Z.pos pk) by lia.
  assert (Hnorm : 2 ^ 52 <= shr_m mrs \/ E + Z.pos pk <= Z.max E (-1074)).
  { destruct (Z.max_spec (d + E - 53) (-1074)) as [[_ Hmx]|[Hgt Hmx]].
    - right. lia.
    - left. rewrite Hm. apply Z.div_le_lower_bound; [assumption|].
      assert (Hpos : 0 < q)
        by (destruct (Z.eq_dec q 0); [subst; cbn in *|]; lia).
      specialize (Hdl Hpos).
      replace (Z.pos pk) with (d - 53) by lia.
      rewrite Z.mul_comm, <- Z.pow_add_r by lia.
      replace (52 + (d - 53)) with (d - 1) by lia. exact Hdl. }
  destruct (round_nearest_even_spec mrs) as [H|[H _]]; rewrite H;
    (split; [lia|]); (split; [lia|]); (split; [lia|]);
    (split; [subst TE; nia|]); lia.
Qed.

(** Rounding to nearest does not step over a multiple of the unit it
    rounds to: a value below [TE * 2^E], such a multiple, is rounded to
    a double that is at most [TE * 2^E].  The double is normal, or its
    exponent is the one the value came with. *)
Lemma binary_round_aux_grid (q E TE : Z) (l : location) :
  0 <= q -> q < TE ->
  (exists j, TE = j * 2 ^ Z.max (fexp prec emax (Zdigits2 q + E) - E) 0) ->
  binary_round_aux prec emax false q E l = S754_zero false \/
  exists m2 e2,
    binary_round_aux prec emax false q E l =
    (if e2 <=? emax - prec then S754_finite false m2 e2
     else S754_infinity false) /\
    E <= e2 /\ Z.pos m2 * 2 ^ (e2 - E) <= TE /\
    (2 ^ 52 <= Z.pos m2 \/ e2 <= Z.max E (-1074)).
Proof.
  intros Hq Hlt Hj.
  destruct (round_first_stage q E TE l Hq Hlt Hj)
    as (m1 & e1 & H1 & Hm1 & HE & He1 & Hv & Hn).
  unfold binary_round_aux.
  destruct (shr_fexp prec emax q E l) as [mrs' e'].
  injection H1 as -> ->.
  destruct (Z.eq_dec m1 (2 ^ 53)) as [Hc|Hc].
  - right. rewrite Hc. change (2 ^ 53) with 9007199254740992.
    rewrite shr_fexp_carry by lia. cbn [shr_m].
    exists 4503599627370496%positive, (e1 + 1).
    split; [reflexivity|]. split; [lia|]. split; [|left; lia].
    replace (e1 + 1 - E) with (1 + (e1 - E)) by lia.
    rewrite Z.pow_add_r by lia. rewrite Hc in Hv.
    change (2 ^ 53) with (4503599627370496 * 2 ^ 1) in Hv. lia.
  - destruct m1 as [|pm|pm]; try lia.
    + left.
      assert (E0 : shr_fexp prec emax 0 e1 loc_Exact =
                   (Build_shr_record 0 false false, e1)).
      { unfold shr_fexp, shr. cbn [Zdigits2 shr_record_of_loc].
        destruct (fexp prec emax (0 + e1) - e1) as [|p|p] eqn:Ek;
          try reflexivity.
        unfold fexp, SpecFloat.emin, prec, emax in Ek. lia. }
      rewrite E0. reflexivity.
    + right.
      assert (Hd : Z.pos (digits2_pos pm) <= 53).
      { pose proof (digits2_pos_lower pm) as Hl.
        destruct (Z.le_gt_cases (Z.pos (digits2_pos pm)) 53) as [H|H];
          [assumption|].
        assert (2 ^ 53 <= 2 ^ (Z.pos (digits2_pos pm) - 1))
          by (apply Z.pow_le_mono_r; lia). lia. }
      assert (E2 : shr_fexp prec emax (Z.pos pm) e1 loc_Exact =
                   (Build_shr_record (Z.pos pm) false false, e1)).
      { unfold shr_fexp, shr. cbn [Zdigits2 shr_record_of_loc].
        destruct (fexp prec emax (Z.pos (digits2_pos pm) + e1) - e1)
          as [|p|p] eqn:Ek; try reflexivity.
        unfold fexp, SpecFloat.emin, prec, emax in Ek. lia. }
      rewrite E2. cbn [shr_m].
      exists pm, e1. split; [reflexivity|]. repeat split; try lia.
Qed.

(** Two comparisons of [a * 2^x] with [b * 2^y] whose exponents differ
    by the same amount agree. *)
Lemma pow2_rescale_lt (a b x y x' y' : Z) :
  0 <= x -> 0 <= y -> 0 <= x' -> 0 <= y' -> x - y = x' - y' ->
  a * 2 ^ x < b * 2 ^ y -> a * 2 ^ x' < b * 2 ^ y'.
Proof.
  intros Hx Hy Hx' Hy' He H.
  assert (Py : 0 < 2 ^ y) by (apply Z.pow_pos_nonneg; lia).
  assert (Py' : 0 < 2 ^ y') by (apply Z.pow_pos_nonneg; lia).
  apply (Z.mul_lt_mono_pos_r (2 ^ y)); [assumption|].
  rewrite <- !Z.mul_assoc, <- !Z.pow_add_r by lia.
  replace (x' + y) with (x + y') by lia.
  rewrite (Z.add_comm y' y), !Z.pow_add_r, !Z.mul_assoc by lia.
  apply Z.mul_lt_mono_pos_r; assumption.
Qed.

Lemma pow2_rescale_le (a b x y x' y' : Z) :
  0 <= x -> 0 <= y -> 0 <= x' -> 0 <= y' -> x - y = x' - y' ->
  a * 2 ^ x <= b * 2 ^ y -> a * 2 ^ x' <= b * 2 ^ y'.
Proof.
  intros Hx Hy Hx' Hy' He H.
  assert (Py : 0 < 2 ^ y) by (apply Z.pow_pos_nonneg; lia).
  assert (Py' : 0 < 2 ^ y') by (apply Z.pow_pos_nonneg; lia).
  apply (Z.mul_le_mono_pos_r _ _ (2 ^ y)); [assumption|].
  rewrite <- !Z.mul_assoc, <- !Z.pow_add_r by lia.
  replace (x' + y) with (x + y') by lia.
  rewrite (Z.add_comm y' y), !Z.pow_add_r, !Z.mul_assoc by lia.
  apply Z.mul_le_mono_pos_r; assumption.
Qed.

(** Aligning a mantissa to a smaller exponent multiplies it by the
    power of two in between. *)
Lemma shl_align_spec (m : positive) (e e' : Z) :
  e' <= e ->
  Z.pos (fst (shl_align m e e')) = Z.pos m * 2 ^ (e - e') /\
  snd (shl_align m e e') = e' /\
  Z.pos (digits2_pos (fst (shl_align m e e'))) =
  Z.pos (digits2_pos m) + (e - e').
Proof.
  intros He. unfold shl_align.
  destruct (e' - e) as [|d|d] eqn:Ed; try lia.
  - replace (e - e') with 0 by lia. cbn [fst snd]. repeat split; lia.
  - destruct (iter_xO_spec m d) as [H1 H2]. cbn [fst snd].
    replace (e - e') with (Z.pos d) by lia. repeat split; assumption.
Qed.

Lemma Prim2SF_two : Prim2SF 2 = S754_finite false 4503599627370496 (-51).
Proof. vm_compute. reflexivity. Qed.

Lemma shr_52_r (m : positive) :
  iter_pos shr_1 52
    (Build_shr_record (Z.pos (m * 4503599627370496)) false false) =
  Build_shr_record (Z.pos m) false false.
Proof. rewrite Pos.mul_comm. apply shr_52. Qed.

(** Doubling a normal double adds one to its exponent, or overflows. *)
Lemma SFmul_two_finite (m : positive) (e : Z) :
  bounded prec emax m e = true -> 2 ^ 52 <= Z.pos m ->
  SF64mul (S754_finite false m e) (S754_finite false 4503599627370496 (-51)) =
  if e + 1 <=? emax - prec then S754_finite false m (e + 1)
  else S754_infinity false.
Proof.
  intros Hb Hm.
  assert (Hd : Z.pos (digits2_pos m) = 53).
  { apply digits2_pos_53. split; [assumption|].
    apply (bounded_mantissa m e Hb). }
  apply bounded_inv in Hb. destruct Hb as [Hc He]. rewrite Hd in Hc.
  unfold fexp, SpecFloat.emin, prec, emax in Hc.
  unfold SF64mul, SFmul, binary_round_aux. cbn [xorb].
  assert (E1 : shr_fexp prec emax (Z.pos (m * 4503599627370496))
                 (e + -51) loc_Exact
               = (Build_shr_record (Z.pos m) false false, e + 1)).
  { unfold shr_fexp. cbn [Zdigits2].
    rewrite Pos.mul_comm, digits2_pos_52, Hd, Pos.mul_comm.
    replace (fexp prec emax (53 + 52 + (e + -51)) - (e + -51)) with 52
      by (unfold fexp, SpecFloat.emin, prec, emax; lia).
    cbn [shr shr_record_of_loc]. rewrite shr_52_r. f_equal. lia. }
  rewrite E1. cbn [shr_m loc_of_shr_record round_nearest_even].
  assert (E2 : shr_fexp prec emax (Z.pos m) (e + 1) loc_Exact
               = (Build_shr_record (Z.pos m) false false, e + 1)).
  { unfold shr_fexp. cbn [Zdigits2]. rewrite Hd.
    replace (fexp prec emax (53 + (e + 1)) - (e + 1)) with 0
      by (unfold fexp, SpecFloat.emin, prec, emax; lia).
    reflexivity. }
  rewrite E2. reflexivity.
Qed.

Lemma SFltb_finite_inv (m1 m2 : positive) (e1 e2 : Z) :
  SFltb (S754_finite false m1 e1) (S754_finite false m2 e2) = true ->
  e1 < e2 \/ (e1 = e2 /\ Z.pos m1 < Z.pos m2).
Proof.
  unfold SFltb. cbn [SFcompare]. intros H.
  destruct (e1 ?= e2) eqn:E.
  - apply Z.compare_eq in E. right. split; [assumption|].
    destruct (Pos.compare_cont Eq m1 m2) eqn:E'; try discriminate.
    apply Pos2Z.pos_lt_pos in E'. exact E'.
  - left. apply Z.compare_lt_iff in E. exact E.
  - discriminate.
Qed.

Lemma SFleb_negative_inv (m1 m2 : positive) (e1 e2 : Z) :
  SFleb (S754_finite true m1 e1) (S754_finite true m2 e2) = true ->
  e2 < e1 \/ (e2 = e1 /\ Z.pos m2 <= Z.pos m1).
Proof.
  unfold SFleb. cbn [SFcompare]. intros H.
  destruct (e1 ?= e2) eqn:E.
  - apply Z.compare_eq in E. right. split; [symmetry; assumption|].
    destruct (Pos.compare_cont Eq m1 m2) eqn:E'; try discriminate.
    + apply Pos.compare_eq in E'. subst m2. lia.
    + change (Pos.compare m1 m2 = Gt) in E'.
      apply Pos.compare_gt_iff in E'. lia.
  - discriminate.
  - left. apply Z.compare_gt_iff in E. exact E.
Qed.

(** The sum [x + p] for [-p <= x < p], with [p] normal and [2 * p]
    finite: it is [+0] or a positive double of at most [2 * p]. *)
Lemma SFadd_within (x : spec_float) (mp : positive) (ep : Z) :
  valid_binary x = true ->
  bounded prec emax mp ep = true -> 2 ^ 52 <= Z.pos mp ->
  ep + 1 <= emax - prec ->
  SFleb (S754_finite true mp ep) x = true ->
  SFltb x (S754_finite false mp ep) = true ->
  SF64add x (S754_finite false mp ep) = S754_zero false \/
  exists ma ea K,
    SF64add x (S754_finite false mp ep) = S754_finite false ma ea /\
    K <= ea /\ K <= ep + 1 /\
    Z.pos ma * 2 ^ (ea - K) <= Z.pos mp * 2 ^ (ep + 1 - K).
Proof.
  intros Hvx Hbp Hnp Hep Hle Hlt.
  pose proof (bounded_mantissa mp ep Hbp) as Hmp.
  assert (Hep0 : -1074 <= ep).
  { apply bounded_inv in Hbp. destruct Hbp as [Hc _].
    unfold fexp, SpecFloat.emin, prec, emax in Hc. lia. }
  destruct x as [s|s| |sx mx ex].
  - (* a zero *) right. exists mp, ep, ep.
    split; [reflexivity|]. rewrite Z.sub_diag.
    replace (ep + 1 - ep) with 1 by lia. lia.
  - destruct s; discriminate.
  - discriminate.
  - cbn [SpecFloat.valid_binary] in Hvx.
    pose proof (bounded_mantissa mx ex Hvx) as Hmx.
    assert (Hex : ex <= ep /\
                  (if sx then Z.pos mx <= Z.pos mp * 2 ^ (ep - ex)
                   else Z.pos mx < Z.pos mp * 2 ^ (ep - ex))).
    { assert (Hbig : ex < ep -> Z.pos mx < Z.pos mp * 2 ^ (ep - ex)).
      { intros H.
        assert (2 ^ 1 <= 2 ^ (ep - ex)) by (apply Z.pow_le_mono_r; lia).
        change (2 ^ 53) with (2 ^ 52 * 2 ^ 1) in Hmx. nia. }
      destruct sx.
      - apply SFleb_negative_inv in Hle. destruct Hle as [H|[-> H]].
        + split; [lia|]. specialize (Hbig H). lia.
        + split; [lia|]. rewrite Z.sub_diag. lia.
      - apply SFltb_finite_inv in Hlt. destruct Hlt as [H|[-> H]].
        + split; [lia|]. apply Hbig. exact H.
        + split; [lia|]. rewrite Z.sub_diag. lia. }
    destruct Hex as [Hex Hcmp].
    unfold SF64add, SFadd. rewrite (Z.min_l ex ep Hex).
    destruct (shl_align_spec mx ex ex ltac:(lia)) as (Hx1 & _ & _).
    destruct (shl_align_spec mp ep ex Hex) as (Hp1 & _ & _).
    rewrite Hx1, Hp1, Z.sub_diag, Z.mul_1_r.
    set (mp' := Z.pos mp * 2 ^ (ep - ex)) in *.
    assert (Hp' : 0 < 2 ^ (ep - ex)) by (apply Z.pow_pos_nonneg; lia).
    change (cond_Zopp false mp') with mp'.
    set (S := cond_Zopp sx (Z.pos mx) + mp').
    assert (HS : 0 <= S < 2 * mp').
    { unfold S. destruct sx; cbn [cond_Zopp]; lia. }
    clearbody S.
    destruct S as [|pS|pS]; [left; reflexivity| |lia].
    cbn [binary_normalize]. unfold binary_round.
    set (c0 := fexp prec emax (Z.pos (digits2_pos pS) + ex)).
    assert (Hc0 : c0 = Z.max (Z.pos (digits2_pos pS) + ex - 53) (-1074))
      by reflexivity.
    pose proof (digits2_pos_lower pS) as HdS.
    assert (HdS' : Z.pos (digits2_pos pS) + ex <= 54 + ep).
    { assert (2 ^ (Z.pos (digits2_pos pS) - 1) < 2 ^ (54 + ep - ex)).
      { eapply Z.le_lt_trans; [exact HdS|].
        replace (54 + ep - ex) with (54 + (ep - ex)) by lia.
        rewrite Z.pow_add_r by lia.
        change (2 ^ 54) with (2 * 2 ^ 53). unfold mp' in HS. nia. }
      apply Z.pow_lt_mono_r_iff in H; lia. }
    clearbody c0.
    (* the exponent the sum is rounded at *)
    assert (Hal : exists mz ez,
               shl_align pS ex c0 = (mz, ez) /\ ez <= ex /\ ez <= c0 /\
               Z.pos mz = Z.pos pS * 2 ^ (ex - ez) /\
               fexp prec emax (Z.pos (digits2_pos mz) + ez) = c0).
    { destruct (Z.le_gt_cases c0 ex) as [H|H].
      - destruct (shl_align_spec pS ex c0 H) as (H1 & H2 & H3).
        destruct (shl_align pS ex c0) as [mz ez]. cbn [fst snd] in *.
        exists mz, ez. subst ez. repeat split; try lia.
        rewrite H3. unfold fexp, SpecFloat.emin, prec, emax.
        replace (Z.pos (digits2_pos pS) + (ex - c0) + c0)
          with (Z.pos (digits2_pos pS) + ex) by lia. lia.
      - exists pS, ex. unfold shl_align.
        destruct (c0 - ex) as [|d|d] eqn:Ed; try lia;
          (split; [reflexivity|]); rewrite Z.sub_diag, Z.mul_1_r;
          repeat split; try lia; unfold fexp, SpecFloat.emin, prec, emax;
          lia. }
    destruct Hal as (mz & ez & Hal & Hez & Hezc & Hmz & Hfz).
    rewrite Hal.
    assert (Hpz : 0 < 2 ^ (ex - ez)) by (apply Z.pow_pos_nonneg; lia).
    assert (HTE : Z.pos mz < Z.pos mp * 2 ^ (ep + 1 - ez)).
    { rewrite Hmz.
      replace (ep + 1 - ez) with (1 + (ep - ex) + (ex - ez)) by lia.
      rewrite !Z.pow_add_r by lia. change (2 ^ 1) with 2.
      unfold mp' in HS. nia. }
    destruct (binary_round_aux_grid (Z.pos mz) ez
                (Z.pos mp * 2 ^ (ep + 1 - ez)) loc_Exact ltac:(lia) HTE)
      as [Hz|(m2 & e2 & Hr & He2 & Hv2 & Hn2)].
    { cbn [Zdigits2]. rewrite Hfz.
      exists (Z.pos mp * 2 ^ (ep + 1 - ez - Z.max (c0 - ez) 0)).
      rewrite <- Z.mul_assoc, <- Z.pow_add_r by lia.
      f_equal. f_equal. lia. }
    { left. exact Hz. }
    right.
    assert (He2' : e2 <= ep + 1).
    { destruct Hn2 as [Hn2|Hn2]; [|lia].
      assert (2 ^ (52 + (e2 - ez)) < 2 ^ (54 + ep - ez)).
      { rewrite Z.pow_add_r by lia.
        replace (54 + ep - ez) with (53 + (ep + 1 - ez)) by lia.
        rewrite (Z.pow_add_r 2 53) by lia.
        assert (0 < 2 ^ (e2 - ez)) by (apply Z.pow_pos_nonneg; lia).
        assert (0 < 2 ^ (ep + 1 - ez)) by (apply Z.pow_pos_nonneg; lia).
        nia. }
      apply Z.pow_lt_mono_r_iff in H; lia. }
    exists m2, e2, ez. rewrite Hr.
    replace (e2 <=? emax - prec) with true
      by (symmetry; apply Z.leb_le; lia).
    repeat split; try lia.
Qed.

Lemma SFleb_one_intro (m : positive) (e : Z) :
  e < -52 \/ (e = -52 /\ Z.pos m <= 2 ^ 52) ->
  SFleb (S754_finite false m e)
        (S754_finite false 4503599627370496 (-52)) = true.
Proof.
  intros H. unfold SFleb. cbn [SFcompare].
  destruct (e ?= -52) eqn:E.
  - apply Z.compare_eq in E. destruct H as [H|[_ H]]; [lia|].
    destruct (Pos.compare_cont Eq m 4503599627370496) eqn:E';
      try reflexivity.
    exfalso. assert (Hgt : Z.pos m > 4503599627370496) by exact E'.
    change (2 ^ 52) with 4503599627370496 in H. lia.
  - reflexivity.
  - apply Z.compare_gt_iff in E. lia.
Qed.

(** Two doubles of the same value are the same double. *)
Lemma bounded_unique (m1 m2 : positive) (e1 e2 K : Z) :
  bounded prec emax m1 e1 = true -> bounded prec emax m2 e2 = true ->
  K <= e1 -> K <= e2 ->
  Z.pos m1 * 2 ^ (e1 - K) = Z.pos m2 * 2 ^ (e2 - K) ->
  m1 = m2 /\ e1 = e2.
Proof.
  assert (Hlt : forall (a b : positive) (ea eb : Z),
             bounded prec emax a ea = true -> bounded prec emax b eb = true ->
             K <= ea -> ea < eb ->
             Z.pos a * 2 ^ (ea - K) < Z.pos b * 2 ^ (eb - K)).
  { intros a b ea eb Ha Hb HK Hab.
    pose proof (bounded_mantissa a ea Ha) as Hma.
    assert (Heb : -1074 < eb).
    { apply bounded_inv in Ha. destruct Ha as [Hc _].
      unfold fexp, SpecFloat.emin, prec, emax in Hc. lia. }
    pose proof (bounded_normal b eb Hb Heb) as Hmb.
    replace (eb - K) with (1 + (eb - ea - 1) + (ea - K)) by lia.
    rewrite !Z.pow_add_r by lia. change (2 ^ 1) with 2.
    assert (0 < 2 ^ (eb - ea - 1)) by (apply Z.pow_pos_nonneg; lia).
    assert (0 < 2 ^ (ea - K)) by (apply Z.pow_pos_nonneg; lia).
    change (2 ^ 53) with (2 * 2 ^ 52) in Hma.
    set (X := 2 ^ (ea - K)) in *. set (Y := 2 ^ (eb - ea - 1)) in *.
    set (C := 2 ^ 52) in *.
    apply Z.lt_le_trans with (2 * C * X); [nia|].
    apply Z.le_trans with (Z.pos b * 2 * X); [nia|].
    replace (Z.pos b * (2 * Y * X)) with (Z.pos b * 2 * X * Y) by ring.
    nia. }
  intros H1 H2 HK1 HK2 Hv.
  destruct (Z.lt_trichotomy e1 e2) as [H|[H|H]].
  - pose proof (Hlt m1 m2 e1 e2 H1 H2 HK1 H). lia.
  - subst e2. split; [|reflexivity].
    assert (0 < 2 ^ (e1 - K)) by (apply Z.pow_pos_nonneg; lia).
    apply Z.mul_reg_r in Hv; [|lia]. congruence.
  - pose proof (Hlt m2 m1 e2 e1 H2 H1 HK2 H). lia.
Qed.

(** A normal double divided by itself is [1.0]. *)
Lemma SFdiv_self (m : positive) (e : Z) :
  Z.pos (digits2_pos m) = 53 ->
  SF64div (S754_finite false m e) (S754_finite false m e) =
  S754_finite false 4503599627370496 (-52).
Proof.
  intros Hd. unfold SF64div, SFdiv, SFdiv_core_binary.
  cbn [Zdigits2 xorb]. rewrite Hd.
  replace (53 + e - (53 + e)) with 0 by lia. rewrite Z.sub_diag.
  change (Z.min (fexp prec emax 0) 0) with (-53).
  change (0 - -53) with 53.
  pose proof (Z_div_mod (Z.shiftl (Z.pos m) 53) (Z.pos m) ltac:(lia)) as H.
  destruct (Z.div_eucl (Z.shiftl (Z.pos m) 53) (Z.pos m)) as [q r].
  rewrite Z.shiftl_mul_pow2 in H by lia. destruct H as [H Hr].
  assert (Hq : q = 2 ^ 53 /\ r = 0).
  { assert (Hm : Z.pos m * 2 ^ 53 = Z.pos m * q + r) by lia.
    destruct (Z.lt_trichotomy q (2 ^ 53)) as [Hlt|[Heq|Hgt]].
    - exfalso. assert (Z.pos m * (q + 1) <= Z.pos m * 2 ^ 53)
        by (apply Z.mul_le_mono_nonneg_l; lia). lia.
    - subst q. lia.
    - exfalso. assert (Z.pos m * (2 ^ 53 + 1) <= Z.pos m * q)
        by (apply Z.mul_le_mono_nonneg_l; lia). lia. }
  destruct Hq as [-> ->].
  replace (new_location (Z.pos m) 0) with loc_Exact
    by (unfold new_location; destruct (Z.even (Z.pos m)); reflexivity).
  vm_compute. reflexivity.
Qed.

(** A quotient below 1 is rounded to at most [1.0]. *)
Lemma SFdiv_below_one (ma md : positive) (ea ed K : Z) :
  Z.pos md < 2 ^ 53 ->
  K <= ea -> K <= ed ->
  Z.pos ma * 2 ^ (ea - K) < Z.pos md * 2 ^ (ed - K) ->
  SFleb (S754_zero false)
        (SF64div (S754_finite false ma ea) (S754_finite false md ed)) = true /\
  SFleb (SF64div (S754_finite false ma ea) (S754_finite false md ed))
        (S754_finite false 4503599627370496 (-52)) = true.
Proof.
  intros Hmd HKa HKd Hlt.
  unfold SF64div, SFdiv, SFdiv_core_binary. cbn [Zdigits2 xorb].
  pose proof (digits2_pos_lower ma) as Hda.
  pose proof (digits2_pos_lower md) as Hdd.
  pose proof (digits2_pos_bound md) as Hdd'.
  set (d1 := Z.pos (digits2_pos ma)) in *.
  set (d2 := Z.pos (digits2_pos md)) in *.
  (* the magnitude of the quotient *)
  assert (Hmag : d1 + ea - (d2 + ed) <= 0).
  { assert (H : 2 ^ (d1 - 1 + (ea - K)) < 2 ^ (d2 + (ed - K))).
    { rewrite !Z.pow_add_r by (unfold d1, d2; lia).
      assert (0 < 2 ^ (ea - K)) by (apply Z.pow_pos_nonneg; lia).
      assert (0 < 2 ^ (ed - K)) by (apply Z.pow_pos_nonneg; lia).
      apply Z.le_lt_trans with (Z.pos ma * 2 ^ (ea - K)); [nia|].
      apply Z.lt_trans with (Z.pos md * 2 ^ (ed - K)); [assumption|nia]. }
    apply Z.pow_lt_mono_r_iff in H; unfold d2 in *; lia. }
  set (e' := Z.min (fexp prec emax (d1 + ea - (d2 + ed))) (ea - ed)).
  assert (He' : e' <= -53 /\ e' <= ea - ed).
  { unfold e', fexp, SpecFloat.emin, prec, emax. lia. }
  clearbody e'. destruct He' as [He1 He2].
  set (s := ea - ed - e').
  assert (Hs : 0 <= s) by (unfold s; lia).
  assert (Hm' : match s with
                | 0 => Z.pos ma
                | Z.pos _ => Z.shiftl (Z.pos ma) s
                | Z.neg _ => 0
                end = Z.pos ma * 2 ^ s).
  { destruct s as [|ps|ps] eqn:Es; try lia.
    apply Z.shiftl_mul_pow2. lia. }
  rewrite Hm'. clear Hm'.
  assert (Hnum : Z.pos ma * 2 ^ s < Z.pos md * 2 ^ (- e')).
  { apply (pow2_rescale_lt _ _ (ea - K) (ed - K)); unfold s; lia. }
  pose proof (Z_div_mod (Z.pos ma * 2 ^ s) (Z.pos md) ltac:(lia)) as H.
  destruct (Z.div_eucl (Z.pos ma * 2 ^ s) (Z.pos md)) as [q r].
  destruct H as [Hq Hr].
  assert (Hps : 0 < 2 ^ s) by (apply Z.pow_pos_nonneg; lia).
  assert (HTE : 0 < 2 ^ (- e')) by (apply Z.pow_pos_nonneg; lia).
  assert (Hq0 : 0 <= q) by nia.
  assert (HqT : q < 2 ^ (- e')) by nia.
  destruct (Zdigits2_bounds q Hq0) as (Hd0 & Hdu & Hdl).
  assert (Hdq : Zdigits2 q + e' <= 0).
  { destruct (Z.eq_dec q 0) as [->|Hne]; [cbn; lia|].
    specialize (Hdl ltac:(lia)).
    assert (H : 2 ^ (Zdigits2 q - 1) < 2 ^ (- e')) by lia.
    apply Z.pow_lt_mono_r_iff in H; lia. }
  destruct (binary_round_aux_grid q e' (2 ^ (- e'))
              (new_location (Z.pos md) r) Hq0 HqT)
    as [Hz|(m2 & e2 & Hres & He2' & Hv2 & Hn2)].
  { set (kk := Z.max (fexp prec emax (Zdigits2 q + e') - e') 0).
    assert (Hkk : 0 <= kk <= - e').
    { unfold kk, fexp, SpecFloat.emin, prec, emax. lia. }
    exists (2 ^ (- e' - kk)). rewrite <- Z.pow_add_r by lia.
    f_equal. lia. }
  - rewrite Hz. split; reflexivity.
  - assert (Hp2 : 0 < 2 ^ (e2 - e')) by (apply Z.pow_pos_nonneg; lia).
    assert (He20 : e2 <= 0).
    { assert (H : 2 ^ (e2 - e') <= 2 ^ (- e')) by nia.
      apply Z.pow_le_mono_r_iff in H; lia. }
    rewrite Hres.
    replace (e2 <=? emax - prec) with true
      by (symmetry; apply Z.leb_le; unfold emax, prec; lia).
    split; [reflexivity|].
    apply SFleb_one_intro.
    destruct (Z.lt_trichotomy e2 (-52)) as [H|[H|H]]; [left; exact H| |].
    + right. split; [exact H|]. subst e2.
      replace (- e') with (52 + (-52 - e')) in Hv2 by lia.
      rewrite Z.pow_add_r in Hv2 by lia. nia.
    + exfalso. destruct Hn2 as [Hn2|Hn2]; [|lia].
      assert (Hc : 2 ^ (52 + (e2 - e')) <= 2 ^ (- e')).
      { rewrite Z.pow_add_r by lia. nia. }
      apply Z.pow_le_mono_r_iff in Hc; lia.
Qed.

(** The quotient of a positive double by a normal one that is at least
    as large lies in [[0, 1]]. *)
Lemma SFdiv_within (ma md : positive) (ea ed K : Z) :
  bounded prec emax ma ea = true -> bounded prec emax md ed = true ->
  2 ^ 52 <= Z.pos md ->
  K <= ea -> K <= ed ->
  Z.pos ma * 2 ^ (ea - K) <= Z.pos md * 2 ^ (ed - K) ->
  SFleb (S754_zero false)
        (SF64div (S754_finite false ma ea) (S754_finite false md ed)) = true /\
  SFleb (SF64div (S754_finite false ma ea) (S754_finite false md ed))
        (S754_finite false 4503599627370496 (-52)) = true.
Proof.
  intros Ha Hd Hn HKa HKd Hle.
  pose proof (bounded_mantissa md ed Hd) as Hmd.
  destruct (Z.eq_dec (Z.pos ma * 2 ^ (ea - K)) (Z.pos md * 2 ^ (ed - K)))
    as [Heq|Hne].
  - destruct (bounded_unique ma md ea ed K Ha Hd HKa HKd Heq) as [-> ->].
    rewrite SFdiv_self; [split; reflexivity|].
    apply digits2_pos_53. lia.
  - apply (SFdiv_below_one ma md ea ed K Hmd HKa HKd). lia.
Qed.

(** A parameter of at least [2.0] whose double is finite is a normal
    double, and the double is the same mantissa one exponent up. *)
Lemma gaussian_parameter_inv (p : float) :
  (2 <=? p)%float = true -> (p * 2 <? infinity)%float = true ->
  exists mp ep,
    Prim2SF p = S754_finite false mp ep /\
    Prim2SF (p * 2) = S754_finite false mp (ep + 1) /\
    bounded prec emax mp ep = true /\ 2 ^ 52 <= Z.pos mp /\
    ep + 1 <= emax - prec.
Proof.
  rewrite leb_spec, ltb_spec, mul_spec, Prim2SF_two, Prim2SF_infinity.
  pose proof (Prim2SF_valid p) as Hv.
  destruct (Prim2SF p) as [s|s| |s mp ep]; intros H2 Hfin;
    try discriminate; destruct s; try discriminate.
  cbn [SpecFloat.valid_binary] in Hv.
  apply SFleb_finite_inv in H2.
  assert (Hn : 2 ^ 52 <= Z.pos mp)
    by (apply (bounded_normal mp ep Hv); lia).
  rewrite (SFmul_two_finite mp ep Hv Hn) in Hfin |- *.
  destruct (Z.leb_spec (ep + 1) (emax - prec)) as [He|He];
    [|discriminate].
  exists mp, ep. repeat split; assumption.
Qed.

(** With a parameter of at least [2.0] whose double is finite, an
    accepted [stdev] is normalised into [[0, 1]]. *)
Lemma gaussian_rand_within (p x : float) :
  (2 <=? p)%float = true -> (p * 2 <? infinity)%float = true ->
  is_nan x = false -> gaussian_retry p x = false ->
  (0 <=? gaussian_rand p x)%float = true /\
  (gaussian_rand p x <=? 1)%float = true.
Proof.
  intros H2 Hfin Hx Hacc.
  destruct (gaussian_parameter_inv p H2 Hfin)
    as (mp & ep & Hp & Hd & Hbp & Hnp & Hep).
  assert (Hpn : is_nan p = false).
  { unfold is_nan. rewrite FloatAxioms.eqb_spec, Hp. unfold SFeqb.
    rewrite SFcompare_refl by discriminate. reflexivity. }
  apply (gaussian_retry_false_iff p x Hpn Hx) in Hacc.
  destruct Hacc as [Hle Hlt].
  rewrite leb_spec, opp_spec, Hp in Hle. rewrite ltb_spec, Hp in Hlt.
  cbn [SFopp negb] in Hle.
  pose proof (Prim2SF_valid (x + p)) as Hva.
  pose proof (Prim2SF_valid (p * 2)) as Hvd.
  rewrite Hd in Hvd. cbn [SpecFloat.valid_binary] in Hvd.
  rewrite add_spec, Hp in Hva.
  unfold gaussian_rand.
  rewrite !leb_spec, div_spec, add_spec, Hd, Hp, Prim2SF_zero, Prim2SF_one.
  destruct (SFadd_within (Prim2SF x) mp ep (Prim2SF_valid x)
              Hbp Hnp Hep Hle Hlt)
    as [Hz|(ma & ea & K & Ha & HK1 & HK2 & Hv)].
  - rewrite Hz. split; reflexivity.
  - rewrite Ha in Hva |- *. cbn [SpecFloat.valid_binary] in Hva.
    apply (SFdiv_within ma mp ea (ep + 1) K); assumption.
Qed.

Lemma SFmul_comm (x y : spec_float) : SF64mul x y = SF64mul y x.
Proof.
  destruct x as [sx|sx| |sx mx ex], y as [sy|sy| |sy my ey];
    try reflexivity; cbn [SF64mul SFmul];
    try (rewrite (xorb_comm sx sy); reflexivity).
  rewrite (xorb_comm sx sy), (Pos.mul_comm mx my), (Z.add_comm ex ey).
  reflexivity.
Qed.

Lemma mul_1_r (r : float) : (r * 1)%float = r.
Proof.
  rewrite <- (mul_1_l r) at 2. apply Prim2SF_inj.
  rewrite !mul_spec. apply SFmul_comm.
Qed.

(** A double that is at most [1.0] and not below it is [1.0]. *)
Lemma leb_one_not_ltb (r : float) :
  (r <=? 1)%float = true -> (r <? 1)%float = false -> r = 1%float.
Proof.
  rewrite leb_spec, ltb_spec, Prim2SF_one. unfold SFleb, SFltb.
  intros H1 H2. apply Prim2SF_inj. rewrite Prim2SF_one.
  destruct (Prim2SF r) as [s|s| |s m e]; try discriminate;
    try (destruct s; discriminate).
  destruct s; [discriminate|]. cbn [SFcompare] in H1, H2.
  destruct (e ?= -52) eqn:E; try discriminate.
  apply Z.compare_eq in E. subst e.
  destruct (Pos.compare_cont Eq m 4503599627370496) eqn:E';
    try discriminate.
  assert (Hm : Z.pos m = 4503599627370496)
    by (apply Z.compare_eq; exact E').
  congruence.
Qed.

(** Integers up to [2^53] survive the round trip through [double]. *)
Lemma to_int64_of_int64 (n : Z) :
  1 <= n <= 2 ^ 53 -> Double.to_int64 (Double.of_int64 n) = Some n.
Proof.
  intros Hn.
  destruct (of_int64_exact n Hn) as (m & e & H & He & Hv).
  unfold Double.to_int64. rewrite H, (SFtrunc_scaled m e) by lia.
  rewrite Hv, Z.div_mul by lia.
  rewrite in_rangeb_true; [reflexivity|].
  unfold Int64.in_range, Int64.min_signed, Int64.max_signed.
  change (2 ^ 53) with 9007199254740992 in Hn.
  change (2 ^ 63) with 9223372036854775808. lia.
Qed.

(** The range mapper on [[0, 1]]: a [rand] of exactly 1 is mapped one
    past the range. *)
Lemma scale_to_range_closed (min max : Z) (rand : float) :
  Int64.in_range min -> Int64.in_range max ->
  min <= max -> max - min + 1 <= 2 ^ 53 ->
  (0 <=? rand)%float = true -> (rand <=? 1)%float = true ->
  exists v, scale_to_range min max rand = Some v /\
            (min <= v <= max \/
             (rand = 1%float /\ v = Int64.add max 1)).
Proof.
  intros Hmin Hmax Hle Hw H0 H1.
  destruct (rand <? 1)%float eqn:Hlt.
  - destruct (scale_to_range_in_range min max rand Hmin Hmax Hle
                ltac:(unfold Int64.max_signed;
                      change (2 ^ 53) with 9007199254740992 in Hw;
                      change (2 ^ 63) with 9223372036854775808; lia)
                H0 Hlt) as (v & Hv & Hb).
    exists v. split; [exact Hv|left; exact Hb].
  - rewrite (leb_one_not_ltb rand H1 Hlt).
    exists (Int64.add max 1). split; [|right; split; reflexivity].
    unfold scale_to_range.
    rewrite Int64Facts.width_eq, Int64Facts.wrap_small.
    + rewrite mul_1_r, to_int64_of_int64 by lia.
      unfold Int64.add. f_equal. f_equal. lia.
    + unfold Int64.in_range, Int64.min_signed, Int64.max_signed in *.
      change (2 ^ 53) with 9007199254740992 in Hw.
      change (2 ^ 63) with 9223372036854775808 in *. lia.
Qed.

(** X6: the Gaussian sampler misses its range by at most one.  For a
    parameter of at least [2.0] whose double [parameter * 2.0] is
    finite, a [stdev] that leaves the loop, if it is a number, is
    normalised to a [rand] in [[0, 1]]: never below 0, never above 1.
    So on a range [min <= max] of width at most [2^53] the value
    returned lies in [[min, max]], or [rand] is exactly 1 and the value
    is [max + 1] (as [int64] computes it). *)
Theorem gaussian_sample_within_one_of_range
  (P : Platform) (st : RandomState) (min max : Z) (parameter : float)
  (k fuel : nat) :
  Int64.in_range min -> Int64.in_range max ->
  min <= max -> max - min + 1 <= 2 ^ 53 ->
  (2 <=? parameter)%float = true ->
  (parameter * 2 <? infinity)%float = true ->
  gaussian_first_accept P st parameter k ->
  is_nan (gaussian_candidate P (after_draws P (2 * k) st)) = false ->
  (k < fuel)%nat ->
  (0 <=? gaussian_rand parameter
           (gaussian_candidate P (after_draws P (2 * k) st)))%float = true /\
  (gaussian_rand parameter
     (gaussian_candidate P (after_draws P (2 * k) st)) <=? 1)%float = true /\
  exists v,
    getGaussianRand P fuel st min max parameter =
    Returns v (after_draws P (2 * k + 2) st) /\
    (min <= v <= max \/
     (gaussian_rand parameter
        (gaussian_candidate P (after_draws P (2 * k) st)) = 1%float /\
      v = Int64.add max 1)).
Proof.
  intros Hmin Hmax Hle Hw H2 Hfin Hk Hnum Hf.
  destruct (gaussian_rand_within parameter _ H2 Hfin Hnum (proj1 Hk))
    as [H0 H1].
  split; [exact H0|]. split; [exact H1|].
  unfold getGaussianRand.
  rewrite (gaussian_loop_first_accept P parameter k st fuel Hk Hf).
  destruct (scale_to_range_closed min max _ Hmin Hmax Hle Hw H0 H1)
    as (v & Hv & Hb).
  exists v. rewrite Hv. split; [reflexivity|exact Hb].
Qed.

Lemma gaussian_sample_within_one_of_range_witness :
  (0 <=? gaussian_rand 0x1.0252286b505bep+1
           (gaussian_candidate Sample.platform
              (after_draws Sample.platform (2 * 0) (seed_words 9721))))%float
  = true /\
  (gaussian_rand 0x1.0252286b505bep+1
     (gaussian_candidate Sample.platform
        (after_draws Sample.platform (2 * 0) (seed_words 9721)))
   <=? 1)%float = true /\
  exists v,
    getGaussianRand Sample.platform 1 (seed_words 9721) 1 10
      0x1.0252286b505bep+1 =
    Returns v (after_draws Sample.platform (2 * 0 + 2) (seed_words 9721)) /\
    (1 <= v <= 10 \/
     (gaussian_rand 0x1.0252286b505bep+1
        (gaussian_candidate Sample.platform
           (after_draws Sample.platform (2 * 0) (seed_words 9721)))
      = 1%float /\
      v = Int64.add 10 1)).
Proof.
  apply (gaussian_sample_within_one_of_range Sample.platform
           (seed_words 9721) 1 10 0x1.0252286b505bep+1%float 0%nat 1%nat).
  - unfold Int64.in_range, Int64.min_signed, Int64.max_signed. lia.
  - unfold Int64.in_range, Int64.min_signed, Int64.max_signed. lia.
  - lia.
  - lia.
  - reflexivity.
  - reflexivity.
  - split; [vm_compute; reflexivity|]. intros j Hj. lia.
  - vm_compute. reflexivity.
  - lia.
Defined.

(** ** Ranges wider than [int64] *)

(** The width of a range of more than [INT64_MAX] values wraps to a
    number that is zero or negative. *)
Lemma width_wraps (min max : Z) :
  Int64.in_range min -> Int64.in_range max ->
  Int64.max_signed < max - min + 1 ->
  Int64.add (Int64.sub max min) 1 = max - min + 1 - 2 ^ 64 /\
  Int64.min_signed <= max - min + 1 - 2 ^ 64 <= 0.
Proof.
  intros Hmin Hmax Hw. rewrite Int64Facts.width_eq.
  unfold Int64.in_range, Int64.min_signed, Int64.max_signed in *.
  unfold Int64.wrap.
  replace (max - min + 1 + 2 ^ 63)
    with (max - min + 1 - 2 ^ 63 + 1 * 2 ^ 64) by lia.
  rewrite Z.mod_add, Z.mod_small by lia. lia.
Qed.

(** X7: on a range of more than [INT64_MAX] values the Zipfian sampler
    is constant.  [n = max - min + 1] wraps to a number that is zero
    or negative, [computeIterativeZipfian] takes its [n <= 1] branch,
    and [min] is returned for every [s] without a draw; through
    [random_zipfian], for every shape that passes the check. *)
Theorem zipfian_wide_range_returns_min
  (P : Platform) (fuel : nat) (st : RandomState) (min max : Z) (s : float) :
  Int64.in_range min -> Int64.in_range max ->
  Int64.max_signed < max - min + 1 ->
  getZipfianRand P fuel st min max s = Returns min st /\
  forall (iseed : Z) (g : RandomState),
    (MIN_ZIPFIAN_PARAM <=? s)%float = true ->
    (s <=? MAX_ZIPFIAN_PARAM)%float = true ->
    random_zipfian P fuel (Some iseed) g min max s =
    Returns min (seed_words iseed).
Proof.
  intros Hmin Hmax Hw.
  destruct (width_wraps min max Hmin Hmax Hw) as [Hn Hr].
  assert (E : forall st', getZipfianRand P fuel st' min max s
                          = Returns min st').
  { intros st'. apply getZipfianRand_degenerate; [assumption|].
    rewrite Hn. lia. }
  split; [apply E|].
  intros iseed g H1 H2. unfold random_zipfian.
  rewrite zipfian_param_check_passes by assumption.
  cbn [initRandomState]. apply E.
Qed.

Lemma zipfian_wide_range_returns_min_witness :
  getZipfianRand Sample.platform 0 (seed_words 0) (-1) Int64.max_signed 2 =
  Returns (-1) (seed_words 0) /\
  forall (iseed : Z) (g : RandomState),
    (MIN_ZIPFIAN_PARAM <=? 2)%float = true ->
    (2 <=? MAX_ZIPFIAN_PARAM)%float = true ->
    random_zipfian Sample.platform 0 (Some iseed) g (-1) Int64.max_signed 2 =
    Returns (-1) (seed_words iseed).
Proof.
  apply (zipfian_wide_range_returns_min Sample.platform 0 (seed_words 0)
           (-1) Int64.max_signed 2%float);
    unfold Int64.in_range, Int64.min_signed, Int64.max_signed; lia.
Defined.

(** On such a range the offset the range mapper adds to [min] is zero
    or negative, and [min] plus a negative offset is below [min], or
    wraps to a value above [max]. *)
Lemma scale_to_range_wide (min max : Z) (rand : float) :
  Int64.in_range min -> Int64.in_range max ->
  2 ^ 63 < max - min + 1 ->
  (0 <=? rand)%float = true -> (rand <? 1)%float = true ->
  exists v, scale_to_range min max rand = Some v /\
            (v = min \/ v < min \/ max < v).
Proof.
  intros Hmin Hmax Hw H0 H1.
  destruct (width_wraps min max Hmin Hmax
              ltac:(unfold Int64.max_signed; lia)) as [Hn Hr].
  unfold scale_to_range. rewrite Hn.
  unfold Int64.in_range, Int64.min_signed, Int64.max_signed in *.
  destruct (scaled_rand_above (max - min + 1 - 2 ^ 64) rand
              ltac:(lia) H0 H1) as (t & Ht & Hb & Hb').
  rewrite Ht. eexists. split; [reflexivity|].
  unfold Int64.add, Int64.wrap.
  destruct (Z.eq_dec t 0) as [->|Hne].
  - left. rewrite Z.add_0_r, Z.mod_small by lia. lia.
  - right. destruct (Z.le_gt_cases (- 2 ^ 63) (min + t)) as [Hin|Hout].
    + left. rewrite Z.mod_small by lia. lia.
    + right.
      replace (min + t + 2 ^ 63)
        with (min + t + 2 ^ 63 + 2 ^ 64 + (-1) * 2 ^ 64) by lia.
      rewrite Z.mod_add, Z.mod_small by lia. lia.
Qed.

(** X8: on a range of more than [2^63] values the exponential and the
    Gaussian sampler never return a value of [(min, max]]: with a
    [rand] in [[0, 1)] they return [min], a value below [min], or a
    value above [max]. *)
Theorem wide_range_is_missed (P : Platform) (min max : Z) :
  Int64.in_range min -> Int64.in_range max ->
  2 ^ 63 < max - min + 1 ->
  (forall (st : RandomState) (parameter : float),
      (0 <=? exponential_rand P parameter (fst (pg_erand48 P st)))%float
      = true ->
      (exponential_rand P parameter (fst (pg_erand48 P st)) <? 1)%float
      = true ->
      exists v,
        getExponentialRand P st min max parameter =
        Returns v (after_draws P 1 st) /\
        (v = min \/ v < min \/ max < v)) /\
  (forall (st : RandomState) (parameter : float) (k fuel : nat),
      gaussian_first_accept P st parameter k ->
      (0 <=? gaussian_rand parameter
               (gaussian_candidate P (after_draws P (2 * k) st)))%float
      = true ->
      (gaussian_rand parameter
         (gaussian_candidate P (after_draws P (2 * k) st)) <? 1)%float
      = true ->
      (k < fuel)%nat ->
      exists v,
        getGaussianRand P fuel st min max parameter =
        Returns v (after_draws P (2 * k + 2) st) /\
        (v = min \/ v < min \/ max < v)).
Proof.
  intros Hmin Hmax Hw. split.
  - intros st parameter H0 H1. unfold getExponentialRand.
    cbn [after_draws].
    destruct (pg_erand48 P st) as [u st']. cbn [fst snd] in *.
    destruct (scale_to_range_wide min max _ Hmin Hmax Hw H0 H1)
      as (v & Hv & Hb).
    exists v. rewrite Hv. split; [reflexivity|exact Hb].
  - intros st parameter k fuel Hk H0 H1 Hf. unfold getGaussianRand.
    rewrite (gaussian_loop_first_accept P parameter k st fuel Hk Hf).
    destruct (scale_to_range_wide min max _ Hmin Hmax Hw H0 H1)
      as (v & Hv & Hb).
    exists v. rewrite Hv. split; [reflexivity|exact Hb].
Qed.

Lemma wide_range_is_missed_witness :
  (exists v,
      getExponentialRand Sample.platform (seed_words 107048004364969)
        (-2) Int64.max_signed 0x1.2p-50 =
      Returns v (after_draws Sample.platform 1 (seed_words 107048004364969)) /\
      (v = -2 \/ v < -2 \/ Int64.max_signed < v)) /\
  (exists v,
      getGaussianRand Sample.platform 1 (seed_words 107048004364969)
        (-2) Int64.max_signed 2 =
      Returns v
        (after_draws Sample.platform (2 * 0 + 2)
           (seed_words 107048004364969)) /\
      (v = -2 \/ v < -2 \/ Int64.max_signed < v)).
Proof.
  destruct (wide_range_is_missed Sample.platform (-2) Int64.max_signed)
    as (He & Hg).
  - unfold Int64.in_range, Int64.min_signed, Int64.max_signed. lia.
  - unfold Int64.in_range, Int64.min_signed, Int64.max_signed. lia.
  - unfold Int64.max_signed. lia.
  - split.
    + apply (He (seed_words 107048004364969) 0x1.2p-50%float);
        vm_compute; reflexivity.
    + apply (Hg (seed_words 107048004364969) 2%float 0%nat 1%nat).
      * split; [vm_compute; reflexivity|]. intros j Hj. lia.
      * vm_compute. reflexivity.
      * vm_compute. reflexivity.
      * lia.
Defined.
